(** * S2 cell identifiers: the curve-position encoding, the path encoding
      and the conversion between them

    A shallow embedding of [src/s2/s2cell_id_v1.h] (the 64-bit Hilbert-curve
    identifier, [s2v1::S2CellId]) and of [src/s2/s2cell_id.h] (the
    face + quadtree-path identifier, [S2CellId], limited to 28 levels).

    Every [uint64_t] is a [Z] in [0, 2^64) and every operation that can
    leave that range is wrapped explicitly; [int] values are [Z] as well,
    with the two conversions [to_int] and [of_int] written where the source
    has a [static_cast]. *)

From Stdlib Require Import ZArith Lia List Bool Ascii String DecimalString.
From Stdlib Require Import Sorting.Sorted.
Import ListNotations.

Local Open Scope Z_scope.

(* ================================================================== *)
(** * Unsigned 64-bit arithmetic *)
(* ================================================================== *)

Module U64.

Definition modulus : Z := 2 ^ 64.

Definition wrap (z : Z) : Z := z mod modulus.

Definition add (a b : Z) : Z := wrap (a + b).
Definition sub (a b : Z) : Z := wrap (a - b).
Definition mul (a b : Z) : Z := wrap (a * b).
Definition lnot (a : Z) : Z := wrap (Z.lnot a).
Definition shl (a n : Z) : Z := wrap (Z.shiftl a n).
Definition shr (a n : Z) : Z := Z.shiftr a n.

(** [static_cast<int>(u)]: keep the low 32 bits, read as two's complement. *)
Definition to_int (u : Z) : Z := (u + 2 ^ 31) mod 2 ^ 32 - 2 ^ 31.

(** [static_cast<uint64_t>(i)] for an [int] (or the implicit conversion in
    mixed arithmetic): reduce modulo [2^64]. *)
Definition of_int (i : Z) : Z := wrap i.

Fixpoint ctz_pos (p : positive) : Z :=
  match p with
  | xO q => 1 + ctz_pos q
  | _ => 0
  end.

(** [absl::countr_zero] on a 64-bit word: the number of trailing zero bits,
    64 for the word 0. *)
Definition countr_zero (u : Z) : Z :=
  match u with
  | Z0 => 64
  | Zpos p => ctz_pos p
  | Zneg _ => 0
  end.

End U64.

(* ================================================================== *)
(** * The curve-position identifier, [s2v1::S2CellId] *)
(* ================================================================== *)

(** Modelled from the spec: [S2::kMaxCellLevel] is declared in
    [s2/s2coords.h], which is not among the sources; the specification gives
    the maximum depth of the curve-position identifier as 30 (and the
    validity mask [0x1555555555555555] of [is_valid] has its highest set bit
    at position 60 = 2 * 30). *)
Definition kMaxCellLevel : Z := 30.

Module s2v1.

Definition kFaceBits : Z := 3.
Definition kNumFaces : Z := 6.
Definition kMaxLevel : Z := kMaxCellLevel.
Definition kPosBits : Z := 2 * kMaxLevel + 1.

Definition None : Z := 0.
Definition Sentinel : Z := U64.lnot 0.

Definition lsb (id : Z) : Z := Z.land id (U64.add (U64.lnot id) 1).

Definition lsb_for_level (level : Z) : Z :=
  U64.shl 1 (2 * (kMaxLevel - level)).

Definition FromFace (face : Z) : Z :=
  U64.add (U64.shl (U64.of_int face) kPosBits) (lsb_for_level 0).

Definition face (id : Z) : Z := U64.to_int (U64.shr id kPosBits).

Definition pos (id : Z) : Z :=
  Z.land id (U64.shr (U64.lnot 0) kFaceBits).

Definition level (id : Z) : Z :=
  kMaxLevel - Z.shiftr (U64.countr_zero id) 1.

Definition is_valid (id : Z) : bool :=
  (face id <? kNumFaces) &&
  negb (Z.land (lsb id) 0x1555555555555555 =? 0).

Definition is_leaf (id : Z) : bool := negb (Z.land id 1 =? 0).

Definition is_face (id : Z) : bool :=
  Z.land id (U64.sub (lsb_for_level 0) 1) =? 0.

Definition child_position_at (id level : Z) : Z :=
  Z.land (U64.to_int (U64.shr id (2 * (kMaxLevel - level) + 1))) 3.

Definition child_position (id : Z) : Z := child_position_at id (level id).

Definition range_min (id : Z) : Z := U64.sub id (U64.sub (lsb id) 1).
Definition range_max (id : Z) : Z := U64.add id (U64.sub (lsb id) 1).

Definition lt (x y : Z) : bool := x <? y.
Definition le (x y : Z) : bool := x <=? y.
Definition ge (x y : Z) : bool := x >=? y.

Definition contains (id other : Z) : bool :=
  ge other (range_min id) && le other (range_max id).

Definition parent_at (id level : Z) : Z :=
  let new_lsb := lsb_for_level level in
  Z.lor (Z.land id (U64.add (U64.lnot new_lsb) 1)) new_lsb.

Definition parent (id : Z) : Z :=
  let new_lsb := U64.shl (lsb id) 2 in
  Z.lor (Z.land id (U64.add (U64.lnot new_lsb) 1)) new_lsb.

(** [(2 * position + 1 - 4)] is computed on [int] and converted to
    [uint64_t] by the multiplication with [new_lsb]. *)
Definition child (id position : Z) : Z :=
  let new_lsb := U64.shr (lsb id) 2 in
  U64.add id (U64.mul (U64.of_int (2 * position + 1 - 4)) new_lsb).

Definition FromFacePosLevel (face pos level : Z) : Z :=
  let cell := U64.add (U64.shl (U64.of_int face) kPosBits) (Z.lor pos 1) in
  parent_at cell level.

(** The preconditions that the source states with [ABSL_DCHECK]. *)
Definition parent_at_pre (id level : Z) : bool :=
  is_valid id && (0 <=? level) && (level <=? s2v1.level id).

(** [static_cast<uint64_t>(kNumFaces) << kPosBits]: the span of the whole
    curve, used to wrap around from the last face to the first. *)
Definition kWrapOffset : Z := U64.shl (U64.of_int kNumFaces) kPosBits.

Definition intersects (id other : Z) : bool :=
  le (range_min other) (range_max id) && ge (range_max other) (range_min id).

Definition child_begin (id : Z) : Z :=
  let old_lsb := lsb id in
  U64.add (U64.sub id old_lsb) (U64.shr old_lsb 2).

Definition child_begin_at (id level : Z) : Z :=
  U64.add (U64.sub id (lsb id)) (lsb_for_level level).

Definition child_end (id : Z) : Z :=
  let old_lsb := lsb id in
  U64.add (U64.add id old_lsb) (U64.shr old_lsb 2).

(** The preconditions that [child_begin()] and [child_end()] state with
    [ABSL_DCHECK]: a valid identifier that is not a leaf. *)
Definition child_begin_pre (id : Z) : bool :=
  is_valid id && negb (is_leaf id).

Definition child_end_at (id level : Z) : Z :=
  U64.add (U64.add id (lsb id)) (lsb_for_level level).

Definition next (id : Z) : Z := U64.add id (U64.shl (lsb id) 1).

Definition prev (id : Z) : Z := U64.sub id (U64.shl (lsb id) 1).

Definition next_wrap (id : Z) : Z :=
  let n := next id in
  if n <? kWrapOffset then n else U64.sub n kWrapOffset.

Definition prev_wrap (id : Z) : Z :=
  let p := prev id in
  if p <? kWrapOffset then p else U64.add p kWrapOffset.

Definition Begin (level : Z) : Z := child_begin_at (FromFace 0) level.

Definition End (level : Z) : Z := child_end_at (FromFace 5) level.

End s2v1.

(* ================================================================== *)
(** * The pieces of [std::string] that the text codec uses *)
(* ================================================================== *)

Module Str.

(** [s.find(c)]: index of the first occurrence, [None] for [npos]. *)
Fixpoint find (c : ascii) (s : string) : option nat :=
  match s with
  | EmptyString => Datatypes.None
  | String d rest =>
      if Ascii.eqb d c then Some O
      else match find c rest with
           | Some n => Some (S n)
           | Datatypes.None => Datatypes.None
           end
  end.

(** [s.substr(pos)], for [pos <= s.size()]. *)
Definition substr_from (pos : nat) (s : string) : string :=
  substring pos (String.length s - pos) s.

(** [s.substr(0, n)]. *)
Definition substr_to (n : nat) (s : string) : string := substring 0 n s.

Definition code (c : ascii) : Z := Z.of_nat (nat_of_ascii c).

(** [std::isspace] in the "C" locale. *)
Definition isspace (c : ascii) : bool :=
  (code c =? 32) || ((9 <=? code c) && (code c <=? 13)).

Definition isdigit (c : ascii) : bool :=
  (48 <=? code c) && (code c <=? 57).

Fixpoint skip_spaces (s : string) : string :=
  match s with
  | String c rest => if isspace c then skip_spaces rest else s
  | EmptyString => s
  end.

(** The longest prefix of decimal digits, as a number; [None] when the
    prefix is empty. *)
Fixpoint read_digits (s : string) (acc : option Z) : option Z :=
  match s with
  | String c rest =>
      if isdigit c
      then read_digits rest
             (Some (10 * match acc with Some a => a | Datatypes.None => 0 end
                    + (code c - 48)))
      else acc
  | EmptyString => acc
  end.

(** [std::stoi(s)] in base 10: leading white space is skipped, one sign is
    accepted, the digits are read up to the first other character.
    [None] stands for the two exceptions it can throw
    ([std::invalid_argument] when there is no digit, [std::out_of_range]
    when the value does not fit an [int]). *)
Definition stoi (s : string) : option Z :=
  let s1 := skip_spaces s in
  let '(negative, s2) :=
    match s1 with
    | String "-"%char rest => (true, rest)
    | String "+"%char rest => (false, rest)
    | _ => (false, s1)
    end in
  match read_digits s2 Datatypes.None with
  | Datatypes.None => Datatypes.None
  | Some v =>
      let v := if negative then - v else v in
      if (v <? - 2 ^ 31) || (v >? 2 ^ 31 - 1) then Datatypes.None
      else Some v
  end.

(** [std::to_string(int)]. *)
Definition to_string (i : Z) : string := NilZero.string_of_int (Z.to_int i).

End Str.

(* ================================================================== *)
(** * The path identifier, [S2CellId], and the conversion layer *)
(* ================================================================== *)

Module S2CellId.

Definition kFaceBits : Z := 3.
Definition kNumFaces : Z := 6.
Definition kLevelBits : Z := 5.
Definition kMaxLevel : Z := 28.
Definition kPathBits : Z := 64 - kFaceBits - kLevelBits.
Definition kFaceMask : Z := U64.sub (U64.shl 1 kFaceBits) 1.
Definition kLevelMask : Z := U64.sub (U64.shl 1 kLevelBits) 1.

Definition None : Z := 0.
Definition Sentinel : Z := U64.lnot 0.

(** [1ULL << (kLevelBits + kPathBits - 1)], the pattern that stands for the
    root cell of face 0. *)
Definition root_marker : Z := U64.shl 1 (kLevelBits + kPathBits - 1).

Definition new_id (x : Z) : Z := x.

Definition face (x : Z) : Z :=
  if x =? root_marker then 0
  else U64.to_int (U64.shr x (64 - kFaceBits)).

Definition level (x : Z) : Z :=
  if x =? root_marker then 0
  else U64.to_int (Z.land x kLevelMask).

Definition path (x : Z) : Z :=
  let l := level x in
  if l =? 0 then 0
  else
    let mask := U64.sub (U64.shl 1 kPathBits) 1 in
    let raw_path := Z.land (U64.shr x kLevelBits) mask in
    if (l >? 0) && (l <=? kMaxLevel) then
      let shift_bits := l * 2 in
      let valid_path_mask := U64.sub (U64.shl 1 shift_bits) 1 in
      Z.land raw_path valid_path_mask
    else raw_path.

Definition is_valid (x : Z) : bool :=
  if x =? 0 then false
  else
    let f := U64.to_int (U64.shr x (64 - kFaceBits)) in
    let l := U64.to_int (Z.land x kLevelMask) in
    if (l =? 0) && (f =? 0) && (x =? root_marker) then true
    else if (f <? 0) || (f >=? 6) then false
    else if (l <? 0) || (l >? kMaxLevel) then false
    else if l =? 0 then true
    else
      let mask := U64.sub (U64.shl 1 kPathBits) 1 in
      let current_path := Z.land (U64.shr x kLevelBits) mask in
      let used_bits := l * 2 in
      if (used_bits <? kPathBits) &&
         negb (Z.land current_path
                 (U64.lnot (U64.sub (U64.shl 1 used_bits) 1)) =? 0)
      then false
      else true.

(** The three fields packed into one word, as every constructor does. *)
Definition pack (face path level : Z) : Z :=
  Z.lor (Z.lor (U64.shl (U64.of_int face) (64 - kFaceBits))
               (U64.shl path kLevelBits))
        (U64.of_int level).

Definition parent (x : Z) : Z :=
  if negb (is_valid x) then None
  else if level x =? 0 then None
  else
    let parent_level := level x - 1 in
    let parent_path := U64.shr (path x) 2 in
    let parent_id := pack (face x) parent_path parent_level in
    if parent_id =? 0 then root_marker else parent_id.

Definition child (x position : Z) : Z :=
  if negb (is_valid x) then None
  else if (position <? 0) || (position >=? 4) then None
  else if level x >=? kMaxLevel then None
  else
    let child_level := level x + 1 in
    let child_path := Z.lor (U64.shl (path x) 2) (U64.of_int position) in
    pack (face x) child_path child_level.

Definition child_position (x : Z) : Z :=
  if negb (is_valid x) then -1
  else
    let l := level x in
    if l =? 0 then -1
    else U64.to_int (Z.land (path x) 3).

(** ** Conversion from and to the curve-position identifier *)

Inductive trace : Type :=
| Finished (current : Z) (path_stack : list Z)
| Aborted
| Diverged.

(** The loop [while (current.level() > 0)] of [ConvertFromOldFormat].
    [path_stack] grows at its end ([push_back]).  [Aborted] is the
    [return 0] inside the loop; [Diverged] means that [fuel] iterations
    did not reach level 0. *)
Fixpoint trace_to_root (fuel : nat) (current : Z) (path_stack : list Z)
  : trace :=
  if s2v1.level current >? 0 then
    match fuel with
    | O => Diverged
    | S fuel' =>
        let child_pos := s2v1.child_position current in
        if (child_pos <? 0) || (child_pos >=? 4) then Aborted
        else trace_to_root fuel' (s2v1.parent current)
               (path_stack ++ [child_pos])
    end
  else Finished current path_stack.

(** The loop [for (i = size - 1; i >= 0; --i)] over the stack. *)
Definition build_path (path_stack : list Z) : Z :=
  fold_left (fun path child_pos =>
               Z.lor (U64.shl path 2) (U64.of_int child_pos))
            (rev path_stack) 0.

(** More iterations than any 64-bit word has levels. *)
Definition trace_fuel : nat := 32.

Definition ConvertFromOldFormat (old_id : Z) : Z :=
  if negb (s2v1.is_valid old_id) then 0
  else
    let face := s2v1.face old_id in
    let level := s2v1.level old_id in
    if level >? kMaxLevel then 0
    else if (face <? 0) || (face >=? 6) then 0
    else if level =? 0 then
      let result := Z.lor (U64.shl (U64.of_int face) (64 - kFaceBits)) 0 in
      if result =? 0 then U64.shl 1 (kLevelBits + kPathBits - 1)
      else result
    else
      match trace_to_root trace_fuel old_id [] with
      | Diverged => 0
      | Aborted => 0
      | Finished current path_stack =>
          if negb (s2v1.face current =? face) then 0
          else pack face (build_path path_stack) level
      end.

(** The loop [for (i = 0; i < level; ++i)] of [ConvertToOldFormat];
    [steps] is the number of iterations that remain. *)
Fixpoint descend (steps : nat) (i level path result : Z) : Z :=
  match steps with
  | O => result
  | S steps' =>
      let child_pos :=
        U64.to_int (Z.land (U64.shr path (2 * (level - 1 - i))) 3) in
      if (child_pos <? 0) || (child_pos >=? 4) then s2v1.None
      else
        let result := s2v1.child result child_pos in
        if negb (s2v1.is_valid result) then s2v1.None
        else descend steps' (i + 1) level path result
  end.

Definition ConvertToOldFormat (new_id : Z) : Z :=
  if new_id =? 0 then s2v1.None
  else if new_id =? root_marker then s2v1.FromFace 0
  else
    let face := U64.to_int (U64.shr new_id (64 - kFaceBits)) in
    let level := U64.to_int (Z.land new_id kLevelMask) in
    if (face <? 0) || (face >=? 6) then s2v1.None
    else if (level <? 0) || (level >? kMaxLevel) then s2v1.None
    else if level =? 0 then s2v1.FromFace face
    else
      let result := s2v1.FromFace face in
      let path :=
        Z.land (U64.shr new_id kLevelBits)
               (U64.sub (U64.shl 1 kPathBits) 1) in
      descend (Z.to_nat level) 0 level path result.

Definition ToOldFormat (x : Z) : Z := ConvertToOldFormat x.

(** [explicit S2CellId(const OriginalS2CellId&)]. *)
Definition FromS2CellId (old_id : Z) : Z := ConvertFromOldFormat old_id.

Definition id (x : Z) : Z := ToOldFormat x.

(** The prologue shared by the factories that may meet a deeper cell
    ([FromToken], [FromDebugString], [FromFaceIJ], [Decode], the
    constructors from a point or a latitude/longitude): cut the
    curve-position identifier at [kMaxLevel], then convert. *)
Definition truncate_to_kMaxLevel (old_id : Z) : Z :=
  if s2v1.level old_id >? kMaxLevel
  then s2v1.parent_at old_id kMaxLevel
  else old_id.

(** [FromToken] and [FromDebugString], given the identifier that the
    curve-position parser returned for the text. *)
Definition FromParsed (old_id : Z) : Z :=
  if negb (s2v1.is_valid old_id) then None
  else FromS2CellId (truncate_to_kMaxLevel old_id).

(** [Decode], [FromFaceIJ] and the point constructors, given the
    identifier that the curve-position layer produced. *)
Definition FromDecoded (old_id : Z) : Z :=
  ConvertFromOldFormat (truncate_to_kMaxLevel old_id).

Definition FromFaceLevel (face level : Z) : Z :=
  if (face <? 0) || (face >? 5) || (level <? 0) || (level >? kMaxLevel)
  then None
  else if level =? 0 then
    let id := Z.lor (U64.shl (U64.of_int face) (64 - kFaceBits))
                    (U64.of_int level) in
    if id =? 0 then U64.shl 1 (kLevelBits + kPathBits - 1) else id
  else
    let old_id := s2v1.FromFacePosLevel face 0 level in
    if negb (s2v1.is_valid old_id) then None
    else FromS2CellId old_id.

Definition FromFace (face : Z) : Z := FromS2CellId (s2v1.FromFace face).

(** The loop [while (current.level() > target_level)] of [parent(int)];
    [Datatypes.None] means that [fuel] iterations were not enough. *)
Fixpoint climb (fuel : nat) (current target_level : Z) : option Z :=
  if level current >? target_level then
    match fuel with
    | O => Datatypes.None
    | S fuel' => climb fuel' (parent current) target_level
    end
  else Some current.

Definition climb_fuel : nat := 32.

(** [parent(int target_level)].  The result is [Datatypes.None] when the
    call returns no value: on a long span it calls [parent(level)] of the
    curve-position identifier, which asserts its preconditions with
    [ABSL_DCHECK] (a fatal assertion when they fail); on a short span the
    loop would have to finish. *)
Definition parent_at (x target_level : Z) : option Z :=
  if (target_level <? 0) || (target_level >? kMaxLevel) then Some None
  else if target_level >=? level x then Some x
  else if level x - target_level >? 5 then
    let old_format := ToOldFormat x in
    if s2v1.parent_at_pre old_format target_level then
      let parent_old := s2v1.parent_at old_format target_level in
      Some (FromS2CellId parent_old)
    else Datatypes.None
  else climb climb_fuel x target_level.

(** ** Text form *)

(** [static_cast<char>('0' + child_pos)]. *)
Definition digit_char (child_pos : Z) : ascii :=
  ascii_of_nat (Z.to_nat ((48 + child_pos) mod 256)).

(** The loop [for (i = l - 1; i >= 0; --i)] of [ToString]. *)
Fixpoint path_digits (n : nat) (current_path : Z) : string :=
  match n with
  | O => EmptyString
  | S i =>
      let child_pos :=
        U64.to_int (Z.land (U64.shr current_path (2 * Z.of_nat i)) 3) in
      String (digit_char child_pos) (path_digits i current_path)
  end.

Definition ToString (x : Z) : string :=
  if negb (is_valid x) then "INVALID"%string
  else
    let f := face x in
    let l := level x in
    let result := Str.to_string f in
    if l =? 0 then result
    else ((result ++ "/") ++ path_digits (Z.to_nat l) (path x))%string.

(** The loop [for (i = 0; i < level; ++i)] over [path_str] of
    [FromString]; [steps] is the number of iterations that remain and
    [path_str] what is left of the text.  [Datatypes.None] is the
    [return S2CellId()] on a character outside ['0'..'3'] (whether [char]
    is signed or not, a byte above 127 fails one of the two comparisons;
    past the end of the text [operator[]] yields the null character, which
    fails the first). *)
Fixpoint parse_path (steps : nat) (path_str : string) (path : Z)
  : option Z :=
  match steps with
  | O => Some path
  | S steps' =>
      match path_str with
      | EmptyString => Datatypes.None
      | String c rest =>
          if (Str.code c <? 48) || (Str.code c >? 51) then Datatypes.None
          else parse_path steps' rest
                 (Z.lor (U64.shl path 2) (U64.of_int (Str.code c - 48)))
      end
  end.

Definition FromString (str : string) : Z :=
  match str with
  | EmptyString => None
  | _ =>
      let slash_pos := Str.find "/"%char str in
      let face_str :=
        match slash_pos with
        | Datatypes.None => str
        | Some p => Str.substr_to p str
        end in
      match Str.stoi face_str with
      | Datatypes.None => None
      | Some face =>
          if (face <? 0) || (face >? 5) then None
          else
            match slash_pos with
            | Datatypes.None => FromFaceLevel face 0
            | Some p =>
                let path_str := Str.substr_from (p + 1) str in
                let level :=
                  U64.to_int (Z.of_nat (String.length path_str)) in
                if level =? 0 then FromFaceLevel face 0
                else if level >? kMaxLevel then None
                else
                  match parse_path (Z.to_nat level) path_str 0 with
                  | Datatypes.None => None
                  | Some path => pack face path level
                  end
            end
      end
  end.

(** ** Comparison *)

Definition eqb (x y : Z) : bool := new_id x =? new_id y.

(** [operator<] delegates to the comparison of the converted
    identifiers. *)
Definition lt (x y : Z) : bool :=
  s2v1.lt (ToOldFormat x) (ToOldFormat y).

(** ** Operations that delegate to the curve-position identifier *)

Definition CanRepresentInNewFormat (old_id : Z) : bool :=
  s2v1.level old_id <=? kMaxLevel.

Definition FromFacePosLevel (face pos level : Z) : Z :=
  if level >? kMaxLevel then None
  else FromS2CellId (s2v1.FromFacePosLevel face pos level).

Definition Begin (level : Z) : Z :=
  if level >? kMaxLevel then None else FromS2CellId (s2v1.Begin level).

Definition End (level : Z) : Z :=
  if level >? kMaxLevel then None else FromS2CellId (s2v1.End level).

Definition pos (x : Z) : Z := s2v1.pos (ToOldFormat x).

Definition lsb (x : Z) : Z := s2v1.lsb (ToOldFormat x).

Definition is_leaf (x : Z) : bool := level x =? kMaxLevel.

Definition is_face (x : Z) : bool := level x =? 0.

Definition child_position_at (x target_level : Z) : Z :=
  if negb (is_valid x) then -1
  else
    let l := level x in
    if (target_level <=? 0) || (target_level >? l) then -1
    else
      let current_path := path x in
      let shift := 2 * (l - target_level) in
      U64.to_int (Z.land (U64.shr current_path shift) 3).

Definition range_min (x : Z) : Z :=
  if negb (is_valid x) then None
  else
    let old_format := ToOldFormat x in
    if negb (s2v1.is_valid old_format) then None
    else
      let range_min_old := s2v1.range_min old_format in
      if negb (s2v1.is_valid range_min_old) then None
      else
        FromS2CellId
          (if s2v1.level range_min_old >? kMaxLevel
           then s2v1.parent_at range_min_old kMaxLevel
           else range_min_old).

Definition range_max (x : Z) : Z :=
  if negb (is_valid x) then None
  else
    let old_format := ToOldFormat x in
    if negb (s2v1.is_valid old_format) then None
    else
      let range_max_old := s2v1.range_max old_format in
      if negb (s2v1.is_valid range_max_old) then None
      else
        FromS2CellId
          (if s2v1.level range_max_old >? kMaxLevel
           then s2v1.parent_at range_max_old kMaxLevel
           else range_max_old).

Definition child_begin (x : Z) : Z :=
  if level x >=? kMaxLevel then None else child x 0.

Definition child_begin_at (x target_level : Z) : Z :=
  if (target_level >? kMaxLevel) || (target_level <=? level x) then None
  else FromS2CellId (s2v1.child_begin_at (ToOldFormat x) target_level).

Definition child_end (x : Z) : Z :=
  if level x >=? kMaxLevel then None
  else
    let child_end_old := s2v1.child_end (ToOldFormat x) in
    if s2v1.level child_end_old >? kMaxLevel then None
    else FromS2CellId child_end_old.

Definition child_end_at (x target_level : Z) : Z :=
  if (target_level >? kMaxLevel) || (target_level <=? level x) then None
  else FromS2CellId (s2v1.child_end_at (ToOldFormat x) target_level).

Definition next (x : Z) : Z :=
  let next_old := s2v1.next (ToOldFormat x) in
  if s2v1.level next_old >? kMaxLevel then None else FromS2CellId next_old.

Definition prev (x : Z) : Z :=
  let prev_old := s2v1.prev (ToOldFormat x) in
  if s2v1.level prev_old >? kMaxLevel then None else FromS2CellId prev_old.

Definition next_wrap (x : Z) : Z :=
  let next_old := s2v1.next_wrap (ToOldFormat x) in
  if s2v1.level next_old >? kMaxLevel then None else FromS2CellId next_old.

Definition prev_wrap (x : Z) : Z :=
  let prev_old := s2v1.prev_wrap (ToOldFormat x) in
  if s2v1.level prev_old >? kMaxLevel then None else FromS2CellId prev_old.

Definition contains (x other : Z) : bool :=
  s2v1.contains (ToOldFormat x) (ToOldFormat other).

Definition intersects (x other : Z) : bool :=
  s2v1.intersects (ToOldFormat x) (ToOldFormat other).

Definition gt (x y : Z) : bool := lt y x.
Definition le (x y : Z) : bool := negb (lt y x).
Definition ge (x y : Z) : bool := negb (lt x y).

End S2CellId.

(* ================================================================== *)
(** * Normal forms used in the proofs *)
(* ================================================================== *)

(** The curve-position identifier of the cell at depth [l] whose index among
    the cells of that depth, along the curve and over all faces, is [a]:
    the index, a 1 as marker bit, and [2 * (30 - l)] zeros. *)
Definition cell (l a : Z) : Z :=
  (2 * a + 1) * 2 ^ (2 * (kMaxCellLevel - l)).

(** The path identifier of the same cell, for [l <= 28]: the face
    [a / 4^l], the path [a mod 4^l] and the depth, each in its field, and
    the marker pattern for the root of face 0. *)
Definition enc (l a : Z) : Z :=
  if (l =? 0) && (a =? 0) then S2CellId.root_marker
  else a / 4 ^ l * 2 ^ 61 + a mod 4 ^ l * 32 + l.

(** The [n] lowest base-4 digits of [a], lowest first: the order in which
    [ConvertFromOldFormat] pushes them. *)
Fixpoint digits_up (n : nat) (a : Z) : list Z :=
  match n with
  | O => []
  | S m => a mod 4 :: digits_up m (a / 4)
  end.

(** A path identifier is canonical when it is the marker pattern or, at
    depth 0, carries nothing in its path field: the form in which every
    constructor produces a face cell. *)
Definition canonical (x : Z) : bool :=
  (x =? S2CellId.root_marker)
  || negb (x mod 32 =? 0)
  || ((x / 32) mod 2 ^ 56 =? 0).

(** The shape that an identifier has by construction: the marker pattern,
    or a face below 6, a depth of at most 28 and a path field that holds
    nothing above its [2 * depth] low bits. *)
Definition well_formed (x : Z) : bool :=
  (x =? S2CellId.root_marker)
  || ((x / 2 ^ 61 <? 6) && (x mod 32 <=? 28)
      && ((x / 32) mod 2 ^ 56 <? 4 ^ (x mod 32))).

(** What an operation may return: [None], or a valid identifier of that
    shape. *)
Definition produced_ok (r : Z) : Prop :=
  r = S2CellId.None
  \/ (S2CellId.is_valid r = true /\ well_formed r = true).

(** The text "0/00...0" with [n] digits after the slash. *)
Fixpoint zeros (n : nat) : string :=
  match n with
  | O => EmptyString
  | S m => String "0" (zeros m)
  end.

Definition long_text (n : nat) : string :=
  String "0" (String "/" (zeros n)).

(** The [n] lowest base-4 digits of [p], from the root to the leaf. *)
Fixpoint root_to_leaf (n : nat) (p : Z) : list Z :=
  match n with
  | O => []
  | S m => root_to_leaf m (p / 4) ++ [p mod 4]
  end.

Definition digit_text (ds : list Z) : string :=
  string_of_list_ascii (map S2CellId.digit_char ds).

(** The canonical text of a cell, in the words of the specification: the
    face digit alone at depth 0, else the face digit, a slash and one digit
    for each child position from the root to the leaf. *)
Definition cell_text (f : Z) (ds : list Z) : string :=
  match ds with
  | [] => String (S2CellId.digit_char f) EmptyString
  | _ => String (S2CellId.digit_char f) (String "/" (digit_text ds))
  end.

(* ================================================================== *)
(** * Facts about words *)
(* ================================================================== *)

(** Closes [0 <= c < 2 ^ 64] for a closed term [c]. *)
Ltac word_range :=
  vm_compute; split; [intro; discriminate | reflexivity].

Section WordFacts.

Lemma pow2_pos (n : Z) : 0 <= n -> 0 < 2 ^ n.
Proof. intros; apply Z.pow_pos_nonneg; lia. Qed.

Lemma pow2_le (m n : Z) : 0 <= m <= n -> 2 ^ m <= 2 ^ n.
Proof. intros; apply Z.pow_le_mono_r; lia. Qed.

Lemma pow2_lt (m n : Z) : 0 <= m < n -> 2 ^ m < 2 ^ n.
Proof. intros; apply Z.pow_lt_mono_r; lia. Qed.

Lemma pow2_split (m n : Z) : 0 <= m <= n -> 2 ^ n = 2 ^ (n - m) * 2 ^ m.
Proof.
  intros. rewrite <- Z.pow_add_r by lia. f_equal. lia.
Qed.

Lemma wrap_small (z : Z) : 0 <= z < 2 ^ 64 -> U64.wrap z = z.
Proof. intros; unfold U64.wrap, U64.modulus; apply Z.mod_small; lia. Qed.

Lemma wrap_range (z : Z) : 0 <= U64.wrap z < 2 ^ 64.
Proof. unfold U64.wrap, U64.modulus; apply Z.mod_pos_bound; lia. Qed.

Lemma to_int_small (u : Z) : 0 <= u < 2 ^ 31 -> U64.to_int u = u.
Proof.
  intros; unfold U64.to_int. rewrite Z.mod_small by lia. lia.
Qed.

(** The two low bits survive the conversion to [int]. *)
Lemma to_int_land3 (u : Z) : Z.land (U64.to_int u) 3 = u mod 4.
Proof.
  unfold U64.to_int. change 3 with (Z.ones 2). rewrite Z.land_ones by lia.
  change (2 ^ 2) with 4.
  pose proof (Z.mod_pos_bound (u + 2 ^ 31) (2 ^ 32) ltac:(lia)).
  pose proof (Z.div_mod (u + 2 ^ 31) (2 ^ 32) ltac:(lia)).
  replace ((u + 2 ^ 31) mod 2 ^ 32 - 2 ^ 31)
    with (u + (- (2 ^ 30) * ((u + 2 ^ 31) / 2 ^ 32)) * 4) by lia.
  apply Z.mod_add; lia.
Qed.

Lemma land3_mod4 (u : Z) : Z.land u 3 = u mod 4.
Proof. change 3 with (Z.ones 2). rewrite Z.land_ones by lia. reflexivity. Qed.

(** [~x + 1] is the negation modulo [2^64]. *)
Lemma neg64 (x : Z) : U64.add (U64.lnot x) 1 = (- x) mod 2 ^ 64.
Proof.
  unfold U64.add, U64.lnot, U64.wrap, U64.modulus.
  rewrite Zplus_mod_idemp_l. f_equal. unfold Z.lnot. lia.
Qed.

Lemma land_mod64 (x y : Z) :
  0 <= x < 2 ^ 64 -> Z.land x (y mod 2 ^ 64) = Z.land x y.
Proof.
  intros H. rewrite <- (Z.land_ones y 64) by lia.
  rewrite (Z.land_comm y), Z.land_assoc, Z.land_ones by lia.
  rewrite Z.mod_small by lia. reflexivity.
Qed.

Lemma land_odd_odd (a b : Z) :
  Z.land (2 * a + 1) (2 * b + 1) = 2 * Z.land a b + 1.
Proof.
  apply Z.bits_inj'. intros i Hi.
  rewrite Z.land_spec.
  destruct (Z.eq_dec i 0) as [->|Hne].
  - rewrite !Z.testbit_odd_0. reflexivity.
  - replace i with (Z.succ (i - 1)) by lia.
    rewrite !Z.testbit_odd_succ by lia. apply eq_sym, Z.land_spec.
Qed.

Lemma land_neg_odd (a : Z) : Z.land (2 * a + 1) (- (2 * a + 1)) = 1.
Proof.
  replace (- (2 * a + 1)) with (2 * Z.lnot a + 1) by (unfold Z.lnot; lia).
  rewrite land_odd_odd, Z.land_lnot_diag. reflexivity.
Qed.

(** The lowest set bit of an odd multiple of [2^n]. *)
Lemma land_neg_odd_shift (a n : Z) :
  0 <= n -> Z.land ((2 * a + 1) * 2 ^ n) (- ((2 * a + 1) * 2 ^ n)) = 2 ^ n.
Proof.
  intros Hn.
  replace (- ((2 * a + 1) * 2 ^ n)) with ((- (2 * a + 1)) * 2 ^ n) by lia.
  rewrite <- !Z.shiftl_mul_pow2 by lia.
  rewrite <- Z.shiftl_land, land_neg_odd, Z.shiftl_mul_pow2 by lia. lia.
Qed.

(** Clearing the bits below position [m]. *)
Lemma land_neg_pow2 (x m : Z) :
  0 <= m -> Z.land x (- 2 ^ m) = x / 2 ^ m * 2 ^ m.
Proof.
  intros Hm.
  replace (- 2 ^ m) with (Z.lnot (Z.ones m))
    by (rewrite Z.ones_equiv; unfold Z.lnot; lia).
  rewrite <- Z.ldiff_land, Z.ldiff_ones_r by lia.
  rewrite Z.shiftl_mul_pow2, Z.shiftr_div_pow2 by lia. reflexivity.
Qed.

Lemma lor_1 (b : Z) : Z.lor b 1 = 2 * (b / 2) + 1.
Proof.
  apply Z.bits_inj'. intros i Hi.
  rewrite Z.lor_spec.
  destruct (Z.eq_dec i 0) as [->|Hne].
  - rewrite Z.testbit_odd_0. apply orb_true_r.
  - replace i with (Z.succ (i - 1)) by lia.
    rewrite Z.testbit_odd_succ by lia.
    pose proof (Z.testbit_odd_succ 0 (i - 1) ltac:(lia)) as H1.
    change (2 * 0 + 1) with 1 in H1.
    rewrite H1, Z.testbit_0_l, orb_false_r.
    rewrite Z.div2_bits by lia. reflexivity.
Qed.

(** A value below [2^n] occupies bits disjoint from a multiple of [2^n]:
    the bitwise or is the sum. *)
Lemma lor_disjoint (u b n : Z) :
  0 <= n -> 0 <= b < 2 ^ n -> Z.lor (u * 2 ^ n) b = u * 2 ^ n + b.
Proof.
  intros Hn Hb.
  assert (Hl : Z.land (u * 2 ^ n) b = 0).
  { apply Z.bits_inj'. intros i Hi.
    rewrite Z.land_spec, Z.bits_0.
    destruct (Z_lt_dec i n).
    - rewrite Z.mul_pow2_bits_low by lia. reflexivity.
    - rewrite <- (Z.mod_small b (2 ^ n)) by lia.
      rewrite Z.mod_pow2_bits_high by lia. apply andb_false_r. }
  rewrite <- Z.lxor_lor by exact Hl.
  symmetry. apply Z.add_nocarry_lxor. exact Hl.
Qed.

Lemma ctz_double (z : Z) :
  0 < z -> U64.countr_zero (2 * z) = 1 + U64.countr_zero z.
Proof. destruct z; try lia. intros _. reflexivity. Qed.

Lemma ctz_odd (a : Z) : 0 <= a -> U64.countr_zero (2 * a + 1) = 0.
Proof. destruct a; try lia; intros _; reflexivity. Qed.

Lemma ctz_odd_shift (a n : Z) :
  0 <= a -> 0 <= n -> U64.countr_zero ((2 * a + 1) * 2 ^ n) = n.
Proof.
  intros Ha Hn. revert n Hn.
  apply natlike_ind.
  - rewrite Z.pow_0_r, Z.mul_1_r. apply ctz_odd; exact Ha.
  - intros n Hn IH.
    rewrite Z.pow_succ_r by lia.
    replace ((2 * a + 1) * (2 * 2 ^ n)) with (2 * ((2 * a + 1) * 2 ^ n))
      by lia.
    rewrite ctz_double, IH by (pose proof (pow2_pos n Hn); nia). lia.
Qed.

(** Every positive number is an odd multiple of a power of two. *)
Lemma odd_shift_form (x : Z) :
  0 < x -> exists a n, 0 <= a /\ 0 <= n /\ x = (2 * a + 1) * 2 ^ n.
Proof.
  destruct x as [|p|p]; try lia. intros _.
  induction p as [p _|p IH|].
  - exists (Zpos p), 0. rewrite Z.pow_0_r. lia.
  - destruct IH as (a & n & Ha & Hn & E).
    exists a, (n + 1). rewrite Z.pow_add_r, Z.pow_1_r by lia.
    rewrite Pos2Z.inj_xO, E. lia.
  - exists 0, 0. rewrite Z.pow_0_r. lia.
Qed.

End WordFacts.

(* ================================================================== *)
(** * The curve-position identifier in normal form *)
(* ================================================================== *)

Section CurveFacts.

Lemma cell_unfold (l a : Z) :
  cell l a = (2 * a + 1) * 2 ^ (2 * (30 - l)).
Proof. reflexivity. Qed.

Lemma cell_range (l a : Z) :
  0 <= l <= 30 -> 0 <= a < 8 * 2 ^ (2 * l) -> 0 < cell l a < 2 ^ 64.
Proof.
  intros Hl Ha. rewrite cell_unfold.
  pose proof (pow2_pos (2 * (30 - l)) ltac:(lia)) as Hp.
  pose proof (pow2_pos (2 * l) ltac:(lia)) as Hq.
  assert (E : 2 ^ 64 = 16 * 2 ^ (2 * l) * 2 ^ (2 * (30 - l))).
  { rewrite <- Z.mul_assoc, <- Z.pow_add_r by lia.
    replace (2 * l + 2 * (30 - l)) with 60 by lia. reflexivity. }
  rewrite E. split; [nia|].
  apply Z.mul_lt_mono_pos_r; lia.
Qed.

Lemma lsb_odd_shift (a n : Z) :
  0 <= a -> 0 <= n -> (2 * a + 1) * 2 ^ n < 2 ^ 64 ->
  s2v1.lsb ((2 * a + 1) * 2 ^ n) = 2 ^ n.
Proof.
  intros Ha Hn Hx. unfold s2v1.lsb.
  pose proof (pow2_pos n Hn).
  rewrite neg64, land_mod64 by nia.
  apply land_neg_odd_shift; exact Hn.
Qed.

Lemma lsb_cell (l a : Z) :
  0 <= l <= 30 -> 0 <= a < 8 * 2 ^ (2 * l) ->
  s2v1.lsb (cell l a) = 2 ^ (2 * (30 - l)).
Proof.
  intros Hl Ha. pose proof (cell_range l a Hl Ha).
  rewrite cell_unfold in *. apply lsb_odd_shift; lia.
Qed.

Lemma level_cell (l a : Z) :
  0 <= l <= 30 -> 0 <= a -> s2v1.level (cell l a) = l.
Proof.
  intros Hl Ha. unfold s2v1.level. rewrite cell_unfold.
  rewrite ctz_odd_shift by lia.
  rewrite Z.shiftr_div_pow2 by lia. change (2 ^ 1) with 2.
  rewrite Z.mul_comm, Z.div_mul by lia.
  unfold s2v1.kMaxLevel, kMaxCellLevel. lia.
Qed.

(** The quotient that [id >> kPosBits] reads. *)
Lemma cell_div_face (l a : Z) :
  0 <= l <= 30 -> 0 <= a -> cell l a / 2 ^ 61 = a / 2 ^ (2 * l).
Proof.
  intros Hl Ha. rewrite cell_unfold.
  rewrite (pow2_split (2 * (30 - l)) 61) by lia.
  pose proof (pow2_pos (2 * (30 - l)) ltac:(lia)).
  pose proof (pow2_pos (61 - 2 * (30 - l)) ltac:(lia)).
  rewrite Z.div_mul_cancel_r by lia.
  replace (61 - 2 * (30 - l)) with (1 + 2 * l) by lia.
  rewrite Z.pow_add_r, Z.pow_1_r by lia.
  rewrite <- Z.div_div by lia.
  f_equal. rewrite Z.mul_comm, Z.div_add_l by lia.
  change (1 / 2) with 0. lia.
Qed.

Lemma face_cell (l a : Z) :
  0 <= l <= 30 -> 0 <= a < 8 * 2 ^ (2 * l) ->
  s2v1.face (cell l a) = a / 2 ^ (2 * l).
Proof.
  intros Hl Ha. unfold s2v1.face, U64.shr.
  rewrite Z.shiftr_div_pow2 by (vm_compute; discriminate).
  change (2 ^ s2v1.kPosBits) with (2 ^ 61).
  rewrite cell_div_face by lia.
  pose proof (pow2_pos (2 * l) ltac:(lia)).
  apply to_int_small. split.
  - apply Z.div_pos; lia.
  - apply Z.lt_trans with 8; [|lia].
    apply Z.div_lt_upper_bound; lia.
Qed.

Lemma level_bit_mask (n : Z) :
  0 <= n < 64 ->
  (Z.land (2 ^ n) 0x1555555555555555 =? 0)
  = negb (Z.even n && (n <=? 60)).
Proof.
  intros Hn.
  replace n with (Z.of_nat (Z.to_nat n)) by lia.
  assert (Hm : (Z.to_nat n < 64)%nat) by lia.
  generalize dependent (Z.to_nat n). clear. intros m Hm.
  do 64 (destruct m as [|m]; [reflexivity|]). lia.
Qed.

Lemma is_valid_cell (l a : Z) :
  0 <= l <= 30 -> 0 <= a < 6 * 2 ^ (2 * l) ->
  s2v1.is_valid (cell l a) = true.
Proof.
  intros Hl Ha. unfold s2v1.is_valid.
  pose proof (pow2_pos (2 * l) ltac:(lia)).
  rewrite face_cell, lsb_cell by lia.
  rewrite level_bit_mask by lia.
  apply andb_true_intro; split.
  - apply Z.ltb_lt. apply Z.div_lt_upper_bound; unfold s2v1.kNumFaces; lia.
  - rewrite Z.even_mul. simpl Z.even.
    replace (2 * (30 - l) <=? 60) with true by (symmetry; apply Z.leb_le; lia).
    reflexivity.
Qed.

(** Every valid identifier is a [cell]. *)
Lemma valid_is_cell (x : Z) :
  0 <= x < 2 ^ 64 -> s2v1.is_valid x = true ->
  exists l a, 0 <= l <= 30 /\ 0 <= a < 6 * 2 ^ (2 * l) /\ x = cell l a.
Proof.
  intros Hx Hv.
  assert (Hpos : 0 < x).
  { destruct (Z.eq_dec x 0) as [->|]; [discriminate Hv|lia]. }
  destruct (odd_shift_form x Hpos) as (a & n & Ha & Hn & E).
  pose proof (pow2_pos n Hn) as Hp.
  assert (Hn64 : n < 64).
  { destruct (Z_lt_dec n 64); [assumption|].
    pose proof (pow2_le 64 n ltac:(lia)). nia. }
  unfold s2v1.is_valid in Hv. apply andb_prop in Hv. destruct Hv as [Hf Hb].
  rewrite E, lsb_odd_shift, level_bit_mask, negb_involutive in Hb by lia.
  apply andb_prop in Hb. destruct Hb as [He Hle].
  apply Z.leb_le in Hle. apply Z.even_spec in He. destruct He as [k Hk].
  exists (30 - k), a.
  assert (Ecell : x = cell (30 - k) a).
  { rewrite cell_unfold, E. do 2 f_equal. lia. }
  split; [lia|]. split; [|exact Ecell].
  split; [lia|].
  pose proof (pow2_pos (2 * (30 - k)) ltac:(lia)).
  assert (Ha8 : a < 8 * 2 ^ (2 * (30 - k))).
  { destruct (Z_lt_dec a (8 * 2 ^ (2 * (30 - k)))); [assumption|exfalso].
    assert (2 ^ 64 = 16 * 2 ^ (2 * (30 - k)) * 2 ^ (2 * k)).
    { rewrite <- Z.mul_assoc, <- Z.pow_add_r by lia.
      replace (2 * (30 - k) + 2 * k) with 60 by lia. reflexivity. }
    rewrite Hk in E, Hp. nia. }
  rewrite Ecell, face_cell in Hf by lia.
  apply Z.ltb_lt in Hf. unfold s2v1.kNumFaces in Hf.
  destruct (Z_lt_dec a (6 * 2 ^ (2 * (30 - k)))); [assumption|exfalso].
  assert (6 <= a / 2 ^ (2 * (30 - k))); [|lia].
  apply Z.div_le_lower_bound; lia.
Qed.

End CurveFacts.

Section CurveNavigation.

(** Moving the marker bit [e] positions up. *)
Lemma raise_marker (a n e : Z) :
  0 <= a -> 0 <= n -> 0 <= e -> n + e < 64 ->
  (2 * a + 1) * 2 ^ n < 2 ^ 64 ->
  let x := (2 * a + 1) * 2 ^ n in
  let new_lsb := 2 ^ (n + e) in
  Z.lor (Z.land x (U64.add (U64.lnot new_lsb) 1)) new_lsb
  = (2 * (a / 2 ^ e) + 1) * 2 ^ (n + e).
Proof.
  intros Ha Hn He Hne Hx x new_lsb. subst x new_lsb.
  pose proof (pow2_pos n Hn). pose proof (pow2_pos e He).
  rewrite neg64, land_mod64 by nia.
  rewrite land_neg_pow2 by lia.
  replace (2 ^ (n + e)) with (1 * 2 ^ (n + e)) at 3 by lia.
  rewrite <- !Z.shiftl_mul_pow2, <- Z.shiftl_lor by lia.
  rewrite lor_1. do 3 f_equal.
  rewrite Z.shiftl_mul_pow2 by lia.
  rewrite Z.pow_add_r, (Z.mul_comm (2 ^ n)) by lia.
  rewrite Z.div_mul_cancel_r by lia.
  rewrite Z.div_div, (Z.mul_comm (2 ^ e)), <- Z.div_div by lia.
  f_equal. rewrite Z.mul_comm, Z.div_add_l by lia.
  change (1 / 2) with 0. lia.
Qed.

Lemma lsb_for_level_eq (k : Z) :
  0 <= k <= 30 -> s2v1.lsb_for_level k = 2 ^ (2 * (30 - k)).
Proof.
  intros Hk. unfold s2v1.lsb_for_level, U64.shl.
  change s2v1.kMaxLevel with 30.
  rewrite Z.shiftl_mul_pow2, Z.mul_1_l by lia.
  apply wrap_small. split; [apply Z.lt_le_incl, pow2_pos; lia|].
  apply pow2_lt; lia.
Qed.

Lemma parent_at_cell (l a k : Z) :
  0 <= k <= l -> l <= 30 -> 0 <= a < 8 * 2 ^ (2 * l) ->
  s2v1.parent_at (cell l a) k = cell k (a / 2 ^ (2 * (l - k))).
Proof.
  intros Hk Hl Ha. unfold s2v1.parent_at.
  pose proof (cell_range l a ltac:(lia) Ha) as Hr.
  rewrite lsb_for_level_eq by lia. rewrite !cell_unfold in *.
  replace (2 * (30 - k)) with (2 * (30 - l) + 2 * (l - k)) by lia.
  apply raise_marker; lia.
Qed.

Lemma parent_cell (l a : Z) :
  1 <= l <= 30 -> 0 <= a < 8 * 2 ^ (2 * l) ->
  s2v1.parent (cell l a) = cell (l - 1) (a / 4).
Proof.
  intros Hl Ha. unfold s2v1.parent.
  pose proof (cell_range l a ltac:(lia) Ha) as Hr.
  rewrite lsb_cell by lia.
  assert (E : U64.shl (2 ^ (2 * (30 - l))) 2 = 2 ^ (2 * (30 - l) + 2)).
  { unfold U64.shl. rewrite Z.shiftl_mul_pow2, <- Z.pow_add_r by lia.
    apply wrap_small. split; [apply Z.lt_le_incl, pow2_pos; lia|].
    apply pow2_lt; lia. }
  rewrite E. rewrite !cell_unfold in *.
  replace (2 * (30 - (l - 1))) with (2 * (30 - l) + 2) by lia.
  change 4 with (2 ^ 2). apply raise_marker; lia.
Qed.

Lemma child_cell (l a p : Z) :
  0 <= l < 30 -> 0 <= a < 8 * 2 ^ (2 * l) -> 0 <= p < 4 ->
  s2v1.child (cell l a) p = cell (l + 1) (4 * a + p).
Proof.
  intros Hl Ha Hp. unfold s2v1.child.
  rewrite lsb_cell by lia.
  pose proof (cell_range (l + 1) (4 * a + p) ltac:(lia)) as Hr.
  replace (2 * (l + 1)) with (2 * l + 2) in Hr by lia.
  rewrite Z.pow_add_r in Hr by lia. change (2 ^ 2) with 4 in Hr.
  specialize (Hr ltac:(lia)).
  unfold U64.shr, U64.add, U64.mul, U64.of_int, U64.wrap, U64.modulus.
  rewrite Z.shiftr_div_pow2 by lia.
  rewrite Zmult_mod_idemp_l, Zplus_mod_idemp_r.
  rewrite !cell_unfold in *.
  replace (2 * (30 - l)) with (2 * (30 - (l + 1)) + 2) by lia.
  rewrite Z.pow_add_r by lia. change (2 ^ 2) with 4.
  pose proof (pow2_pos (2 * (30 - (l + 1))) ltac:(lia)).
  rewrite Z.div_mul by lia.
  replace ((2 * a + 1) * (2 ^ (2 * (30 - (l + 1))) * 4) +
           (2 * p + 1 - 4) * 2 ^ (2 * (30 - (l + 1))))
    with ((2 * (4 * a + p) + 1) * 2 ^ (2 * (30 - (l + 1)))) by lia.
  apply Z.mod_small. lia.
Qed.

Lemma child_position_cell (l a : Z) :
  1 <= l <= 30 -> 0 <= a ->
  s2v1.child_position (cell l a) = a mod 4.
Proof.
  intros Hl Ha. unfold s2v1.child_position, s2v1.child_position_at.
  rewrite level_cell by lia. rewrite to_int_land3.
  unfold U64.shr. change s2v1.kMaxLevel with 30.
  rewrite Z.shiftr_div_pow2 by lia. rewrite cell_unfold.
  rewrite Z.pow_add_r, Z.pow_1_r by lia.
  pose proof (pow2_pos (2 * (30 - l)) ltac:(lia)).
  rewrite <- Z.div_div, Z.div_mul by lia.
  f_equal. rewrite Z.mul_comm, Z.div_add_l by lia.
  change (1 / 2) with 0. lia.
Qed.

Lemma FromFace_cell (f : Z) : 0 <= f < 8 -> s2v1.FromFace f = cell 0 f.
Proof.
  intros Hf. unfold s2v1.FromFace.
  rewrite lsb_for_level_eq by lia.
  unfold U64.of_int, U64.shl, U64.add. change s2v1.kPosBits with 61.
  rewrite (wrap_small f) by lia.
  rewrite Z.shiftl_mul_pow2 by lia.
  rewrite (wrap_small (f * 2 ^ 61)) by lia.
  rewrite cell_unfold. rewrite wrap_small by lia. lia.
Qed.

Lemma cell_inj (l a l' a' : Z) :
  0 <= l <= 30 -> 0 <= l' <= 30 -> 0 <= a -> 0 <= a' ->
  cell l a = cell l' a' -> l = l' /\ a = a'.
Proof.
  intros Hl Hl' Ha Ha' E.
  assert (El : l = l').
  { rewrite <- (level_cell l a), <- (level_cell l' a'), E by lia.
    reflexivity. }
  subst l'. split; [reflexivity|].
  rewrite !cell_unfold in E.
  pose proof (pow2_pos (2 * (30 - l)) ltac:(lia)).
  apply Z.mul_reg_r in E; lia.
Qed.

Lemma range_min_cell (l a : Z) :
  0 <= l <= 30 -> 0 <= a < 6 * 2 ^ (2 * l) ->
  s2v1.range_min (cell l a) = cell l a - (2 ^ (2 * (30 - l)) - 1).
Proof.
  intros Hl Ha. unfold s2v1.range_min.
  pose proof (pow2_pos (2 * l) ltac:(lia)).
  pose proof (cell_range l a Hl ltac:(lia)).
  rewrite lsb_cell by lia.
  pose proof (pow2_pos (2 * (30 - l)) ltac:(lia)).
  pose proof (pow2_le (2 * (30 - l)) 60 ltac:(lia)).
  unfold U64.sub. rewrite (wrap_small (_ - 1)) by lia.
  apply wrap_small. rewrite cell_unfold in *. nia.
Qed.

Lemma range_max_cell (l a : Z) :
  0 <= l <= 30 -> 0 <= a < 6 * 2 ^ (2 * l) ->
  s2v1.range_max (cell l a) = cell l a + (2 ^ (2 * (30 - l)) - 1).
Proof.
  intros Hl Ha. unfold s2v1.range_max.
  pose proof (pow2_pos (2 * l) ltac:(lia)).
  pose proof (cell_range l a Hl ltac:(lia)).
  rewrite lsb_cell by lia.
  pose proof (pow2_pos (2 * (30 - l)) ltac:(lia)).
  pose proof (pow2_le (2 * (30 - l)) 60 ltac:(lia)).
  unfold U64.sub, U64.add. rewrite (wrap_small (_ - 1)) by lia.
  apply wrap_small. rewrite cell_unfold in *.
  assert (E : 2 ^ 64 = 16 * 2 ^ (2 * l) * 2 ^ (2 * (30 - l))).
  { rewrite <- Z.mul_assoc, <- Z.pow_add_r by lia.
    replace (2 * l + 2 * (30 - l)) with 60 by lia. reflexivity. }
  rewrite E. nia.
Qed.

End CurveNavigation.

(* ================================================================== *)
(** * Properties of the curve-position identifier *)
(* ================================================================== *)

Section CurveClaims.

(** C5.  For a valid curve-position identifier [x] that is not a leaf and
    a position [p] in 0..3: the parent of the [p]-th child is [x] again,
    the child is a valid cell one level deeper, [x] contains it, and two
    different positions give two different children. *)
Theorem child_parent_roundtrip (x p : Z) :
  0 <= x < 2 ^ 64 ->
  s2v1.is_valid x = true ->
  s2v1.level x < s2v1.kMaxLevel ->
  0 <= p < 4 ->
  s2v1.parent (s2v1.child x p) = x
  /\ s2v1.is_valid (s2v1.child x p) = true
  /\ s2v1.level (s2v1.child x p) = s2v1.level x + 1
  /\ s2v1.contains x (s2v1.child x p) = true
  /\ (forall q, 0 <= q < 4 -> q <> p -> s2v1.child x q <> s2v1.child x p).
Proof.
  intros Hx Hv Hlev Hp.
  destruct (valid_is_cell x Hx Hv) as (l & a & Hl & Ha & ->).
  rewrite level_cell in * by lia. change s2v1.kMaxLevel with 30 in Hlev.
  pose proof (pow2_pos (2 * l) ltac:(lia)) as Hq.
  assert (Hpow : 2 ^ (2 * (l + 1)) = 4 * 2 ^ (2 * l)).
  { replace (2 * (l + 1)) with (2 + 2 * l) by lia.
    rewrite Z.pow_add_r by lia. reflexivity. }
  rewrite child_cell by lia.
  split; [|split; [|split; [|split]]].
  - rewrite parent_cell by (rewrite ?Hpow; lia).
    replace (l + 1 - 1) with l by lia. f_equal.
    rewrite Z.mul_comm, Z.div_add_l by lia.
    rewrite Z.div_small by lia. lia.
  - apply is_valid_cell; rewrite ?Hpow; lia.
  - rewrite level_cell by lia. reflexivity.
  - unfold s2v1.contains, s2v1.ge, s2v1.le.
    rewrite range_min_cell, range_max_cell by lia.
    rewrite !cell_unfold.
    replace (2 * (30 - l)) with (2 * (30 - (l + 1)) + 2) by lia.
    rewrite Z.pow_add_r by lia. change (2 ^ 2) with 4.
    pose proof (pow2_pos (2 * (30 - (l + 1))) ltac:(lia)).
    apply andb_true_intro; split.
    + rewrite Z.geb_leb. apply Z.leb_le. nia.
    + apply Z.leb_le. nia.
  - intros q Hq4 Hne E. rewrite child_cell in E by lia.
    apply cell_inj in E; lia.
Qed.

Lemma child_parent_roundtrip_witness :
  s2v1.parent (s2v1.child (s2v1.FromFace 3) 2) = s2v1.FromFace 3
  /\ s2v1.contains (s2v1.FromFace 3) (s2v1.child (s2v1.FromFace 3) 2) = true.
Proof.
  destruct (child_parent_roundtrip (s2v1.FromFace 3) 2) as (E & _ & _ & C & _).
  - word_range.
  - reflexivity.
  - reflexivity.
  - lia.
  - split; [exact E | exact C].
Defined.

(** C6.  For a valid curve-position identifier [x], [range_min x] is
    [x - (lsb x - 1)] and [range_max x] is [x + (lsb x - 1)], computed
    without wrap-around, so that [range_min x <= x <= range_max x] and
    [range_min x <= range_max x]; and the range of [Sentinel] is
    [Sentinel] itself at both ends. *)
Theorem range_bounds (x : Z) :
  0 <= x < 2 ^ 64 ->
  s2v1.is_valid x = true ->
  s2v1.range_min x = x - (s2v1.lsb x - 1)
  /\ s2v1.range_max x = x + (s2v1.lsb x - 1)
  /\ s2v1.le (s2v1.range_min x) x = true
  /\ s2v1.le x (s2v1.range_max x) = true
  /\ s2v1.le (s2v1.range_min x) (s2v1.range_max x) = true
  /\ s2v1.range_min s2v1.Sentinel = s2v1.Sentinel
  /\ s2v1.range_max s2v1.Sentinel = s2v1.Sentinel.
Proof.
  intros Hx Hv.
  destruct (valid_is_cell x Hx Hv) as (l & a & Hl & Ha & ->).
  pose proof (pow2_pos (2 * l) ltac:(lia)).
  pose proof (pow2_pos (2 * (30 - l)) ltac:(lia)).
  rewrite range_min_cell, range_max_cell, lsb_cell by lia.
  unfold s2v1.le.
  split; [reflexivity|]. split; [reflexivity|].
  split; [apply Z.leb_le; lia|]. split; [apply Z.leb_le; lia|].
  split; [apply Z.leb_le; lia|].
  split; vm_compute; reflexivity.
Qed.

Lemma range_bounds_witness :
  s2v1.le (s2v1.range_min (s2v1.FromFace 0)) (s2v1.FromFace 0) = true
  /\ s2v1.le (s2v1.FromFace 0) (s2v1.range_max (s2v1.FromFace 0)) = true.
Proof.
  destruct (range_bounds (s2v1.FromFace 0)) as (_ & _ & A & B & _).
  - word_range.
  - reflexivity.
  - split; [exact A | exact B].
Defined.

End CurveClaims.

(* ================================================================== *)
(** * The fields of the path identifier *)
(* ================================================================== *)

Section CompactFields.

Lemma pow4 (n : Z) : 0 <= n -> 2 ^ (2 * n) = 4 ^ n.
Proof. intros; rewrite Z.pow_mul_r by lia; reflexivity. Qed.

Lemma pow4_pos (n : Z) : 0 <= n -> 0 < 4 ^ n.
Proof. intros; apply Z.pow_pos_nonneg; lia. Qed.

Lemma pow4_succ (n : Z) : 0 <= n -> 4 ^ (n + 1) = 4 * 4 ^ n.
Proof. intros; rewrite Z.pow_add_r by lia; lia. Qed.

Lemma pow4_le_56 (l : Z) : 0 <= l <= 28 -> 4 ^ l <= 2 ^ 56.
Proof.
  intros. rewrite <- pow4 by lia. apply pow2_le; lia.
Qed.

Lemma root_marker_eq : S2CellId.root_marker = 2 ^ 60.
Proof. reflexivity. Qed.

Lemma face_field (x : Z) :
  0 <= x < 2 ^ 64 ->
  U64.to_int (U64.shr x (64 - S2CellId.kFaceBits)) = x / 2 ^ 61.
Proof.
  intros Hx. unfold U64.shr.
  change (64 - S2CellId.kFaceBits) with 61.
  rewrite Z.shiftr_div_pow2 by lia.
  apply to_int_small. split.
  - apply Z.div_pos; lia.
  - apply Z.lt_trans with 8; [|lia]. apply Z.div_lt_upper_bound; lia.
Qed.

Lemma level_field (x : Z) :
  U64.to_int (Z.land x S2CellId.kLevelMask) = x mod 32.
Proof.
  change S2CellId.kLevelMask with (Z.ones 5).
  rewrite Z.land_ones by lia. change (2 ^ 5) with 32.
  apply to_int_small. pose proof (Z.mod_pos_bound x 32 ltac:(lia)). lia.
Qed.

Lemma path_field (x : Z) :
  Z.land (U64.shr x S2CellId.kLevelBits)
         (U64.sub (U64.shl 1 S2CellId.kPathBits) 1)
  = (x / 32) mod 2 ^ 56.
Proof.
  change (U64.sub (U64.shl 1 S2CellId.kPathBits) 1) with (Z.ones 56).
  rewrite Z.land_ones by lia. unfold U64.shr.
  change S2CellId.kLevelBits with 5.
  rewrite Z.shiftr_div_pow2 by lia. reflexivity.
Qed.

Lemma face_eq (x : Z) :
  0 <= x < 2 ^ 64 -> S2CellId.face x = x / 2 ^ 61.
Proof.
  intros Hx. unfold S2CellId.face.
  destruct (Z.eqb_spec x S2CellId.root_marker) as [->|_].
  - reflexivity.
  - apply face_field; exact Hx.
Qed.

Lemma level_eq (x : Z) : S2CellId.level x = x mod 32.
Proof.
  unfold S2CellId.level.
  destruct (Z.eqb_spec x S2CellId.root_marker) as [->|_].
  - reflexivity.
  - apply level_field.
Qed.

Lemma low_mask (u : Z) :
  0 <= u < 64 -> U64.sub (U64.shl 1 u) 1 = 2 ^ u - 1.
Proof.
  intros Hu. unfold U64.sub, U64.shl.
  rewrite Z.shiftl_mul_pow2, Z.mul_1_l by lia.
  pose proof (pow2_pos u ltac:(lia)). pose proof (pow2_lt u 64 ltac:(lia)).
  rewrite (wrap_small (2 ^ u)) by lia. apply wrap_small; lia.
Qed.

(** The test of [is_valid] on the bits of the path above [u]. *)
Lemma high_bits (p u : Z) :
  0 <= u < 64 -> 0 <= p < 2 ^ 64 ->
  Z.land p (U64.lnot (U64.sub (U64.shl 1 u) 1)) = p / 2 ^ u * 2 ^ u.
Proof.
  intros Hu Hp. rewrite low_mask by lia.
  unfold U64.lnot, U64.wrap, U64.modulus.
  replace (Z.lnot (2 ^ u - 1)) with (- 2 ^ u) by (unfold Z.lnot; lia).
  rewrite land_mod64 by lia. apply land_neg_pow2; lia.
Qed.

Lemma land_low (p u : Z) : 0 <= u -> Z.land p (2 ^ u - 1) = p mod 2 ^ u.
Proof.
  intros Hu. replace (2 ^ u - 1) with (Z.ones u)
    by (rewrite Z.ones_equiv; lia).
  apply Z.land_ones; exact Hu.
Qed.

Lemma path_eq (x : Z) :
  1 <= x mod 32 <= 28 ->
  S2CellId.path x = ((x / 32) mod 2 ^ 56) mod 4 ^ (x mod 32).
Proof.
  intros Hl. unfold S2CellId.path. rewrite level_eq.
  destruct (Z.eqb_spec (x mod 32) 0); [lia|].
  replace ((x mod 32 >? 0) && (x mod 32 <=? S2CellId.kMaxLevel)) with true.
  2:{ symmetry. apply andb_true_intro. split.
      - apply Z.gtb_lt. lia.
      - apply Z.leb_le. change S2CellId.kMaxLevel with 28. lia. }
  rewrite path_field, low_mask by lia.
  rewrite land_low by lia.
  rewrite (Z.mul_comm _ 2), pow4 by lia. reflexivity.
Qed.

Lemma path_eq_root (x : Z) : x mod 32 = 0 -> S2CellId.path x = 0.
Proof.
  intros Hl. unfold S2CellId.path. rewrite level_eq, Hl. reflexivity.
Qed.

(** What [is_valid] decides, on the three fields. *)
Lemma is_valid_fields (x : Z) :
  0 <= x < 2 ^ 64 ->
  S2CellId.is_valid x = true <->
  x <> 0 /\ x / 2 ^ 61 < 6 /\ x mod 32 <= 28 /\
  (x mod 32 = 0 \/ (x / 32) mod 2 ^ 56 < 4 ^ (x mod 32)).
Proof.
  intros Hx. unfold S2CellId.is_valid.
  rewrite face_field, level_field, path_field by lia.
  pose proof (Z.mod_pos_bound x 32 ltac:(lia)) as Hl.
  pose proof (Z.mod_pos_bound (x / 32) (2 ^ 56) ltac:(lia)) as Hp.
  assert (Hf : 0 <= x / 2 ^ 61) by (apply Z.div_pos; lia).
  change S2CellId.kMaxLevel with 28. change S2CellId.kPathBits with 56.
  remember (x / 2 ^ 61) as F eqn:EF.
  remember (x mod 32) as L eqn:EL.
  remember ((x / 32) mod 2 ^ 56) as P eqn:EP.
  rewrite Z.geb_leb, Z.gtb_ltb.
  destruct (Z.eqb_spec x 0) as [E0|N0].
  { split; [discriminate|]. intros (H & _). contradiction. }
  destruct (Z.ltb_spec F 0) as [?|_]; [lia|].
  destruct (Z.ltb_spec L 0) as [?|_]; [lia|].
  cbn [orb].
  destruct (Z.eqb_spec L 0) as [L0|L0]; cbn [andb].
  - destruct (Z.leb_spec 6 F) as [F6|F6].
    + replace (F =? 0) with false by (symmetry; apply Z.eqb_neq; lia).
      cbn [andb]. split; [discriminate|lia].
    + destruct (Z.ltb_spec 28 L); [lia|].
      destruct ((F =? 0) && (x =? S2CellId.root_marker));
        (split; [intros _; lia|reflexivity]).
  - destruct (Z.leb_spec 6 F) as [F6|F6].
    { split; [discriminate|lia]. }
    destruct (Z.ltb_spec 28 L) as [L28|L28].
    { split; [discriminate|lia]. }
    pose proof (pow4_pos L ltac:(lia)).
    pose proof (pow4_le_56 L ltac:(lia)).
    destruct (Z.ltb_spec (L * 2) 56) as [Lu|Lu]; cbn [andb].
    + rewrite high_bits by lia.
      rewrite (Z.mul_comm _ 2), pow4 by lia.
      destruct (Z.eqb_spec (P / 4 ^ L * 4 ^ L) 0) as [EZ|NZ]; cbn [negb].
      * split; [intros _|reflexivity].
        repeat split; try lia. right.
        assert (EQ : P / 4 ^ L = 0) by nia.
        apply Z.div_small_iff in EQ; lia.
      * split; [discriminate|]. intros (_ & _ & _ & [?|Hlt]); [lia|].
        rewrite Z.div_small in NZ by lia. lia.
    + split; [intros _|reflexivity].
      repeat split; try lia. right.
      replace L with 28 by lia.
      change (4 ^ 28) with (2 ^ 56). lia.
Qed.

(** The three fields in their slots add up. *)
Lemma pack_sum (f p l : Z) :
  0 <= f < 8 -> 0 <= p < 2 ^ 56 -> 0 <= l < 32 ->
  S2CellId.pack f p l = f * 2 ^ 61 + p * 32 + l.
Proof.
  intros Hf Hp Hl. unfold S2CellId.pack, U64.of_int, U64.shl.
  change (64 - S2CellId.kFaceBits) with 61.
  change S2CellId.kLevelBits with 5.
  rewrite (wrap_small f), (wrap_small l) by lia.
  rewrite !Z.shiftl_mul_pow2 by lia.
  rewrite !wrap_small by lia.
  rewrite lor_disjoint by lia.
  replace (f * 2 ^ 61 + p * 2 ^ 5) with ((f * 2 ^ 56 + p) * 2 ^ 5) by lia.
  rewrite lor_disjoint by lia. lia.
Qed.

Lemma sum_fields (f p l : Z) :
  0 <= f < 8 -> 0 <= p < 2 ^ 56 -> 0 <= l < 32 ->
  let x := f * 2 ^ 61 + p * 32 + l in
  0 <= x < 2 ^ 64 /\ x / 2 ^ 61 = f /\ x mod 32 = l /\
  (x / 32) mod 2 ^ 56 = p.
Proof.
  intros Hf Hp Hl x. subst x.
  split; [lia|]. split; [|split].
  - symmetry. apply Z.div_unique with (p * 32 + l); lia.
  - symmetry. apply Z.mod_unique with (f * 2 ^ 56 + p); lia.
  - replace ((f * 2 ^ 61 + p * 32 + l) / 32) with (f * 2 ^ 56 + p).
    + symmetry. apply Z.mod_unique with f; lia.
    + apply Z.div_unique with l; lia.
Qed.

End CompactFields.

(* ================================================================== *)
(** * The conversion layer on normal forms *)
(* ================================================================== *)

Section Conversion.

Lemma digit_range (a : Z) : 0 <= a mod 4 < 4.
Proof. apply Z.mod_pos_bound; lia. Qed.

Lemma append_digit (q d : Z) :
  0 <= q < 2 ^ 60 -> 0 <= d < 4 ->
  Z.lor (U64.shl q 2) (U64.of_int d) = 4 * q + d.
Proof.
  intros Hq Hd. unfold U64.shl, U64.of_int.
  rewrite Z.shiftl_mul_pow2 by lia.
  rewrite !wrap_small by lia.
  rewrite lor_disjoint by lia. lia.
Qed.

Lemma trace_cell (n : nat) :
  forall (fuel : nat) (a : Z) (st : list Z),
    (n <= fuel)%nat -> Z.of_nat n <= 30 ->
    0 <= a < 8 * 4 ^ Z.of_nat n ->
    S2CellId.trace_to_root fuel (cell (Z.of_nat n) a) st
    = S2CellId.Finished (cell 0 (a / 4 ^ Z.of_nat n)) (st ++ digits_up n a).
Proof.
  induction n as [|m IH]; intros fuel a st Hfuel Hn Ha.
  - change (Z.of_nat 0) with 0 in *. rewrite Z.pow_0_r, Z.div_1_r.
    cbn [digits_up]. rewrite app_nil_r.
    destruct fuel; cbn [S2CellId.trace_to_root];
      rewrite level_cell by lia; reflexivity.
  - destruct fuel as [|fuel]; [lia|].
    rewrite Nat2Z.inj_succ in *. unfold Z.succ in *.
    rewrite pow4_succ in Ha by lia.
    cbn [S2CellId.trace_to_root digits_up].
    rewrite level_cell by lia.
    replace (Z.of_nat m + 1 >? 0) with true by (symmetry; apply Z.gtb_lt; lia).
    rewrite child_position_cell by lia.
    pose proof (digit_range a) as Hd.
    replace ((a mod 4 <? 0) || (a mod 4 >=? 4)) with false.
    2:{ symmetry. apply orb_false_intro.
        - apply Z.ltb_ge; lia.
        - rewrite Z.geb_leb. apply Z.leb_gt; lia. }
    rewrite parent_cell by (rewrite ?pow4, ?pow4_succ; lia).
    replace (Z.of_nat m + 1 - 1) with (Z.of_nat m) by lia.
    rewrite IH by (try lia; Z.div_mod_to_equations; lia).
    rewrite <- app_assoc. cbn [app].
    rewrite Z.div_div, pow4_succ by (try apply pow4_pos; lia).
    reflexivity.
Qed.

Lemma build_path_digits (n : nat) :
  forall a, Z.of_nat n <= 29 -> 0 <= a ->
            S2CellId.build_path (digits_up n a) = a mod 4 ^ Z.of_nat n.
Proof.
  induction n as [|m IH]; intros a Hn Ha.
  - change (Z.of_nat 0) with 0. rewrite Z.pow_0_r, Z.mod_1_r. reflexivity.
  - rewrite Nat2Z.inj_succ in *. unfold Z.succ in *.
    cbn [digits_up]. unfold S2CellId.build_path in *.
    cbn [rev]. rewrite fold_left_app. cbn [fold_left].
    rewrite IH by (try lia; apply Z.div_pos; lia).
    pose proof (pow4_pos (Z.of_nat m) ltac:(lia)) as Hp.
    pose proof (Z.mod_pos_bound (a / 4) (4 ^ Z.of_nat m) Hp) as Hq.
    assert (4 ^ Z.of_nat m <= 2 ^ 56).
    { rewrite <- pow4 by lia. apply pow2_le; lia. }
    rewrite append_digit by (try apply digit_range; lia).
    rewrite pow4_succ by lia.
    rewrite (Z.rem_mul_r a 4 (4 ^ Z.of_nat m)) by lia. lia.
Qed.

(** The first [i] of the [l] digits of a path, as a number. *)
Lemma top_bound (p l i : Z) :
  0 <= i <= l -> 0 <= p < 4 ^ l -> 0 <= p / 4 ^ (l - i) < 4 ^ i.
Proof.
  intros Hi Hp.
  pose proof (pow4_pos (l - i) ltac:(lia)).
  split; [apply Z.div_pos; lia|].
  apply Z.div_lt_upper_bound; [lia|].
  rewrite <- Z.pow_add_r by lia.
  replace (l - i + i) with l by lia. lia.
Qed.

Lemma top_step (p l i : Z) :
  0 <= i < l -> 0 <= p ->
  p / 4 ^ (l - (i + 1)) = 4 * (p / 4 ^ (l - i)) + (p / 4 ^ (l - 1 - i)) mod 4.
Proof.
  intros Hi Hp.
  replace (l - (i + 1)) with (l - 1 - i) by lia.
  replace (l - i) with (l - 1 - i + 1) by lia.
  pose proof (pow4_pos (l - 1 - i) ltac:(lia)).
  rewrite pow4_succ, (Z.mul_comm 4 (4 ^ _)), <- Z.div_div by lia.
  apply Z.div_mod; lia.
Qed.

Lemma descend_cell (n : nat) :
  forall i f p l,
    0 <= i -> i + Z.of_nat n <= l -> l <= 28 ->
    0 <= f < 6 -> 0 <= p < 4 ^ l ->
    S2CellId.descend n i l p (cell i (f * 4 ^ i + p / 4 ^ (l - i)))
    = cell (i + Z.of_nat n)
           (f * 4 ^ (i + Z.of_nat n) + p / 4 ^ (l - (i + Z.of_nat n))).
Proof.
  induction n as [|m IH]; intros i f p l Hi Hn Hl Hf Hp.
  - change (Z.of_nat 0) with 0. rewrite Z.add_0_r. reflexivity.
  - rewrite Nat2Z.inj_succ in *. unfold Z.succ in *.
    cbn [S2CellId.descend].
    unfold U64.shr. rewrite Z.shiftr_div_pow2, pow4 by lia.
    rewrite land3_mod4.
    pose proof (digit_range (p / 4 ^ (l - 1 - i))) as Hd.
    rewrite to_int_small by lia.
    replace ((_ <? 0) || (_ >=? 4)) with false.
    2:{ symmetry. apply orb_false_intro.
        - apply Z.ltb_ge; lia.
        - rewrite Z.geb_leb. apply Z.leb_gt; lia. }
    pose proof (pow4_pos i Hi) as Hpi.
    pose proof (top_bound p l i ltac:(lia) Hp) as Ht.
    pose proof (top_bound p l (i + 1) ltac:(lia) Hp) as Ht'.
    rewrite pow4_succ in Ht' by lia.
    rewrite child_cell by (rewrite ?pow4; nia).
    replace (4 * (f * 4 ^ i + p / 4 ^ (l - i)) + (p / 4 ^ (l - 1 - i)) mod 4)
      with (f * 4 ^ (i + 1) + p / 4 ^ (l - (i + 1)))
      by (rewrite (top_step p l i), pow4_succ by lia; lia).
    rewrite is_valid_cell by (rewrite ?pow4, ?pow4_succ; nia).
    cbn [negb].
    rewrite IH by lia.
    replace (i + 1 + Z.of_nat m) with (i + (Z.of_nat m + 1)) by lia.
    reflexivity.
Qed.

Lemma enc_sum (l a : Z) :
  0 <= l <= 28 -> 0 <= a < 6 * 4 ^ l ->
  let f := a / 4 ^ l in
  let p := a mod 4 ^ l in
  0 <= f < 6 /\ 0 <= p < 4 ^ l /\ p < 2 ^ 56 /\ a = f * 4 ^ l + p.
Proof.
  intros Hl Ha f p. subst f p.
  pose proof (pow4_pos l ltac:(lia)) as Hp.
  pose proof (pow4_le_56 l Hl).
  pose proof (Z.mod_pos_bound a (4 ^ l) Hp).
  pose proof (Z.div_mod a (4 ^ l) ltac:(lia)).
  repeat split; try lia.
  - apply Z.div_pos; lia.
  - apply Z.div_lt_upper_bound; lia.
Qed.

Theorem ConvertFromOldFormat_cell (l a : Z) :
  0 <= l <= 28 -> 0 <= a < 6 * 4 ^ l ->
  S2CellId.ConvertFromOldFormat (cell l a) = enc l a.
Proof.
  intros Hl Ha.
  destruct (enc_sum l a Hl Ha) as (Hf & Hp & Hp56 & Ea).
  pose proof (pow4_pos l ltac:(lia)) as H4.
  unfold S2CellId.ConvertFromOldFormat, enc.
  rewrite is_valid_cell, level_cell, face_cell by (rewrite ?pow4; lia).
  rewrite pow4 by lia. cbn [negb].
  change S2CellId.kMaxLevel with 28.
  replace (l >? 28) with false by (symmetry; rewrite Z.gtb_ltb; apply Z.ltb_ge; lia).
  replace ((a / 4 ^ l <? 0) || (a / 4 ^ l >=? 6)) with false.
  2:{ symmetry. apply orb_false_intro.
      - apply Z.ltb_ge; lia.
      - rewrite Z.geb_leb. apply Z.leb_gt; lia. }
  destruct (Z.eqb_spec l 0) as [->|Hl0]; cbn [andb].
  - rewrite Z.pow_0_r, Z.div_1_r, Z.mod_1_r, Z.lor_0_r in *.
    unfold U64.shl, U64.of_int. change (64 - S2CellId.kFaceBits) with 61.
    rewrite (wrap_small a), Z.shiftl_mul_pow2, wrap_small by lia.
    destruct (Z.eqb_spec a 0) as [->|Ha0].
    + reflexivity.
    + destruct (Z.eqb_spec (a * 2 ^ 61) 0); lia.
  - replace l with (Z.of_nat (Z.to_nat l)) at 1 by lia.
    rewrite trace_cell
      by (unfold S2CellId.trace_fuel; rewrite ?Z2Nat.id; lia).
    rewrite Z2Nat.id by lia. cbn [app].
    rewrite face_cell by (change (2 ^ (2 * 0)) with 1; lia).
    change (2 ^ (2 * 0)) with 1. rewrite Z.div_1_r, Z.eqb_refl. cbn [negb].
    rewrite build_path_digits by lia.
    rewrite Z2Nat.id by lia.
    apply pack_sum; lia.
Qed.

Theorem ConvertToOldFormat_enc (l a : Z) :
  0 <= l <= 28 -> 0 <= a < 6 * 4 ^ l ->
  S2CellId.ConvertToOldFormat (enc l a) = cell l a.
Proof.
  intros Hl Ha.
  destruct (enc_sum l a Hl Ha) as (Hf & Hp & Hp56 & Ea).
  pose proof (pow4_pos l ltac:(lia)) as H4.
  unfold enc.
  destruct (Z.eqb_spec l 0) as [->|Hl0]; cbn [andb].
  - rewrite Z.pow_0_r, Z.div_1_r, Z.mod_1_r in *.
    destruct (Z.eqb_spec a 0) as [->|Ha0].
    + unfold S2CellId.ConvertToOldFormat. cbn [Z.eqb].
      rewrite root_marker_eq. change (2 ^ 60 =? 0) with false.
      rewrite Z.eqb_refl. apply FromFace_cell; lia.
    + unfold S2CellId.ConvertToOldFormat.
      destruct (sum_fields a 0 0 ltac:(lia) ltac:(lia) ltac:(lia))
        as (Hr & EF & EL & EP).
      rewrite face_field, level_field, EF, EL by lia.
      replace (a * 2 ^ 61 + 0 * 32 + 0 =? 0) with false
        by (symmetry; apply Z.eqb_neq; lia).
      replace (a * 2 ^ 61 + 0 * 32 + 0 =? S2CellId.root_marker) with false
        by (symmetry; apply Z.eqb_neq; rewrite root_marker_eq; lia).
      replace ((a <? 0) || (a >=? 6)) with false.
      2:{ symmetry. apply orb_false_intro.
          - apply Z.ltb_ge; lia.
          - rewrite Z.geb_leb. apply Z.leb_gt; lia. }
      cbn. apply FromFace_cell; lia.
  - unfold S2CellId.ConvertToOldFormat.
    destruct (sum_fields (a / 4 ^ l) (a mod 4 ^ l) l
                ltac:(lia) ltac:(lia) ltac:(lia)) as (Hr & EF & EL & EP).
    rewrite face_field, level_field, path_field, EF, EL, EP by lia.
    replace (_ =? 0) with false at 1
      by (symmetry; apply Z.eqb_neq; lia).
    replace (_ =? S2CellId.root_marker) with false.
    2:{ symmetry; apply Z.eqb_neq. intros E.
        apply (f_equal (fun z => z mod 32)) in E.
        rewrite EL, root_marker_eq in E. change (2 ^ 60 mod 32) with 0 in E.
        lia. }
    replace ((a / 4 ^ l <? 0) || (a / 4 ^ l >=? 6)) with false.
    2:{ symmetry. apply orb_false_intro.
        - apply Z.ltb_ge; lia.
        - rewrite Z.geb_leb. apply Z.leb_gt; lia. }
    change S2CellId.kMaxLevel with 28.
    replace ((l <? 0) || (l >? 28)) with false.
    2:{ symmetry. apply orb_false_intro.
        - apply Z.ltb_ge; lia.
        - rewrite Z.gtb_ltb. apply Z.ltb_ge; lia. }
    replace (l =? 0) with false by (symmetry; apply Z.eqb_neq; lia).
    rewrite FromFace_cell by lia.
    pose proof (descend_cell (Z.to_nat l) 0 (a / 4 ^ l) (a mod 4 ^ l) l) as D.
    rewrite Z2Nat.id in D by lia.
    rewrite Z.sub_0_r, Z.add_0_l, Z.sub_diag, Z.pow_0_r, Z.div_1_r in D.
    rewrite (Z.div_small (a mod 4 ^ l)), Z.mul_1_r, Z.add_0_r in D by lia.
    rewrite D by lia. f_equal. lia.
Qed.

End Conversion.

Section EncFacts.

Lemma fields_decompose (x : Z) :
  0 <= x < 2 ^ 64 ->
  x = x / 2 ^ 61 * 2 ^ 61 + (x / 32) mod 2 ^ 56 * 32 + x mod 32.
Proof. intros Hx. Z.div_mod_to_equations. lia. Qed.

(** [enc l a] away from the root of face 0. *)
Lemma enc_unfold (l a : Z) :
  0 <= l <= 28 -> 0 <= a < 6 * 4 ^ l -> l <> 0 \/ a <> 0 ->
  enc l a = a / 4 ^ l * 2 ^ 61 + a mod 4 ^ l * 32 + l.
Proof.
  intros Hl Ha Hne. unfold enc.
  destruct (Z.eqb_spec l 0); [|reflexivity].
  destruct (Z.eqb_spec a 0); [lia|reflexivity].
Qed.

Lemma enc_fields (l a : Z) :
  0 <= l <= 28 -> 0 <= a < 6 * 4 ^ l ->
  0 < enc l a < 2 ^ 64
  /\ enc l a / 2 ^ 61 = a / 4 ^ l
  /\ enc l a mod 32 = l
  /\ (l <> 0 -> (enc l a / 32) mod 2 ^ 56 = a mod 4 ^ l).
Proof.
  intros Hl Ha.
  destruct (enc_sum l a Hl Ha) as (Hf & Hp & Hp56 & Ea).
  destruct (Z.eq_dec l 0) as [->|Hl0].
  - rewrite Z.pow_0_r, Z.div_1_r in *.
    destruct (Z.eq_dec a 0) as [->|Ha0].
    + unfold enc. cbn [Z.eqb andb]. rewrite root_marker_eq.
      repeat split; try reflexivity; lia.
    + rewrite enc_unfold by (rewrite ?Z.pow_0_r; lia).
      rewrite Z.pow_0_r, Z.div_1_r, Z.mod_1_r.
      destruct (sum_fields a 0 0 ltac:(lia) ltac:(lia) ltac:(lia))
        as (Hr & EF & EL & EP).
      repeat split; try assumption; lia.
  - rewrite enc_unfold by lia.
    destruct (sum_fields (a / 4 ^ l) (a mod 4 ^ l) l
                ltac:(lia) ltac:(lia) ltac:(lia)) as (Hr & EF & EL & EP).
    repeat split; try assumption; lia.
Qed.

Lemma enc_valid (l a : Z) :
  0 <= l <= 28 -> 0 <= a < 6 * 4 ^ l ->
  S2CellId.is_valid (enc l a) = true.
Proof.
  intros Hl Ha.
  destruct (enc_sum l a Hl Ha) as (Hf & Hp & Hp56 & Ea).
  destruct (enc_fields l a Hl Ha) as (Hr & EF & EL & EP).
  apply is_valid_fields; [lia|].
  rewrite EF, EL. repeat split; lia.
Qed.

Lemma enc_level (l a : Z) :
  0 <= l <= 28 -> 0 <= a < 6 * 4 ^ l -> S2CellId.level (enc l a) = l.
Proof.
  intros Hl Ha. rewrite level_eq. apply (enc_fields l a Hl Ha).
Qed.

Lemma enc_face (l a : Z) :
  0 <= l <= 28 -> 0 <= a < 6 * 4 ^ l ->
  S2CellId.face (enc l a) = a / 4 ^ l.
Proof.
  intros Hl Ha. destruct (enc_fields l a Hl Ha) as (Hr & EF & _).
  rewrite face_eq by lia. exact EF.
Qed.

Lemma enc_path (l a : Z) :
  0 <= l <= 28 -> 0 <= a < 6 * 4 ^ l ->
  S2CellId.path (enc l a) = a mod 4 ^ l.
Proof.
  intros Hl Ha.
  destruct (enc_sum l a Hl Ha) as (Hf & Hp & Hp56 & Ea).
  destruct (enc_fields l a Hl Ha) as (Hr & EF & EL & EP).
  destruct (Z.eq_dec l 0) as [->|Hl0].
  - rewrite path_eq_root by exact EL.
    rewrite Z.pow_0_r, Z.mod_1_r. reflexivity.
  - rewrite path_eq by lia. rewrite EL, EP by assumption.
    apply Z.mod_small; lia.
Qed.

(** A valid path identifier that is canonical is the code of a cell. *)
Lemma canonical_is_enc (x : Z) :
  0 <= x < 2 ^ 64 -> S2CellId.is_valid x = true -> canonical x = true ->
  exists l a, 0 <= l <= 28 /\ 0 <= a < 6 * 4 ^ l /\ x = enc l a.
Proof.
  intros Hx Hv Hc.
  apply is_valid_fields in Hv; [|exact Hx].
  destruct Hv as (N0 & HF & HL & HP).
  pose proof (fields_decompose x Hx) as E.
  pose proof (Z.mod_pos_bound x 32 ltac:(lia)) as Hl.
  pose proof (Z.mod_pos_bound (x / 32) (2 ^ 56) ltac:(lia)) as Hp.
  assert (Hf : 0 <= x / 2 ^ 61) by (apply Z.div_pos; lia).
  unfold canonical in Hc.
  destruct (Z.eqb_spec x S2CellId.root_marker) as [EM|NM].
  { exists 0, 0. rewrite Z.pow_0_r. repeat split; try lia. exact EM. }
  destruct (Z.eqb_spec (x mod 32) 0) as [EL|NL].
  - destruct (Z.eqb_spec ((x / 32) mod 2 ^ 56) 0) as [EP|NP];
      [|discriminate Hc].
    exists 0, (x / 2 ^ 61). rewrite Z.pow_0_r.
    split; [lia|]. split; [lia|].
    rewrite enc_unfold by (rewrite ?Z.pow_0_r; lia).
    rewrite Z.pow_0_r, Z.div_1_r, Z.mod_1_r. lia.
  - destruct HP as [?|HP]; [lia|].
    pose proof (pow4_pos (x mod 32) ltac:(lia)) as H4.
    exists (x mod 32), (x / 2 ^ 61 * 4 ^ (x mod 32) + (x / 32) mod 2 ^ 56).
    split; [lia|]. split; [nia|].
    rewrite enc_unfold by (try lia; nia).
    rewrite Z.div_add_l by lia.
    rewrite (Z.div_small ((x / 32) mod 2 ^ 56) (4 ^ (x mod 32))) by lia.
    rewrite Z.add_0_r.
    rewrite (Z.add_comm (_ * 4 ^ (x mod 32))), Z.mod_add by lia.
    rewrite (Z.mod_small ((x / 32) mod 2 ^ 56) (4 ^ (x mod 32))) by lia.
    exact E.
Qed.

End EncFacts.

(* ================================================================== *)
(** * Round trip through the conversion *)
(* ================================================================== *)

Section ConversionClaims.

Lemma deep_parent (l a : Z) :
  28 < l <= 30 -> 0 <= a < 6 * 4 ^ l ->
  0 <= a / 4 ^ (l - 28) < 6 * 4 ^ 28
  /\ s2v1.parent_at (cell l a) 28 = cell 28 (a / 4 ^ (l - 28)).
Proof.
  intros Hl Ha.
  pose proof (pow4_pos (l - 28) ltac:(lia)) as H4.
  assert (E : 4 ^ l = 4 ^ 28 * 4 ^ (l - 28)).
  { rewrite <- Z.pow_add_r by lia. f_equal. lia. }
  split.
  - split; [apply Z.div_pos; lia|].
    apply Z.div_lt_upper_bound; [lia|]. rewrite E in Ha. lia.
  - rewrite parent_at_cell by (rewrite ?pow4; lia).
    rewrite pow4 by lia. reflexivity.
Qed.

(** C1, as the code has it.  For a valid curve-position identifier [x]
    of depth at most 28, converting to the path encoding and back gives
    [x].  For a deeper [x] the conversion itself gives 0, so the round
    trip gives [None]; the ancestor [x.parent(28)] is what comes back
    only when the identifier is cut at depth 28 before it is converted,
    as the truncating factories do. *)
Theorem conversion_roundtrip (x : Z) :
  0 <= x < 2 ^ 64 ->
  s2v1.is_valid x = true ->
  (s2v1.level x <= 28 ->
   S2CellId.ConvertToOldFormat (S2CellId.ConvertFromOldFormat x) = x)
  /\ (s2v1.level x > 28 ->
      S2CellId.ConvertToOldFormat (S2CellId.ConvertFromOldFormat x)
      = s2v1.None
      /\ S2CellId.ConvertToOldFormat
           (S2CellId.ConvertFromOldFormat (S2CellId.truncate_to_kMaxLevel x))
         = s2v1.parent_at x 28).
Proof.
  intros Hx Hv.
  destruct (valid_is_cell x Hx Hv) as (l & a & Hl & Ha & ->).
  rewrite pow4 in Ha by lia.
  rewrite level_cell by lia.
  split; intros Hlev.
  - rewrite ConvertFromOldFormat_cell, ConvertToOldFormat_enc by lia.
    reflexivity.
  - split.
    + unfold S2CellId.ConvertFromOldFormat.
      rewrite is_valid_cell, level_cell by (rewrite ?pow4; lia).
      cbn [negb]. change S2CellId.kMaxLevel with 28.
      replace (l >? 28) with true by (symmetry; apply Z.gtb_lt; lia).
      reflexivity.
    + unfold S2CellId.truncate_to_kMaxLevel.
      rewrite level_cell by lia. change S2CellId.kMaxLevel with 28.
      replace (l >? 28) with true by (symmetry; apply Z.gtb_lt; lia).
      destruct (deep_parent l a ltac:(lia) Ha) as (Hb & ->).
      rewrite ConvertFromOldFormat_cell, ConvertToOldFormat_enc by lia.
      reflexivity.
Qed.

Lemma conversion_roundtrip_witness :
  S2CellId.ConvertToOldFormat
    (S2CellId.ConvertFromOldFormat (s2v1.FromFacePosLevel 2 0 28))
  = s2v1.FromFacePosLevel 2 0 28.
Proof.
  destruct (conversion_roundtrip (s2v1.FromFacePosLevel 2 0 28)) as [H _].
  - word_range.
  - reflexivity.
  - apply H. vm_compute. intro; discriminate.
Defined.

(** C1, against the claim as written: for the leaf cell at position 0 of
    face 2 (depth 30) the round trip gives [None], not the ancestor at
    depth 28. *)
Lemma conversion_roundtrip_deep_counterexample :
  let x := s2v1.FromFacePosLevel 2 0 30 in
  s2v1.is_valid x = true
  /\ s2v1.level x = 30
  /\ S2CellId.ConvertToOldFormat (S2CellId.ConvertFromOldFormat x) = 0
  /\ s2v1.parent_at x 28 = s2v1.FromFacePosLevel 2 0 28
  /\ S2CellId.ConvertToOldFormat (S2CellId.ConvertFromOldFormat x)
     <> s2v1.parent_at x 28.
Proof.
  vm_compute. repeat split; try reflexivity. intro; discriminate.
Qed.

(** C2.  For a valid curve-position identifier deeper than 28,
    [ConvertFromOldFormat] returns 0, which is not the code of the
    ancestor at depth 28; the factories that may meet such an identifier
    cut it at depth 28 themselves and then obtain the valid code of that
    ancestor. *)
Theorem deep_conversion_is_invalid (x : Z) :
  0 <= x < 2 ^ 64 ->
  s2v1.is_valid x = true ->
  s2v1.level x > S2CellId.kMaxLevel ->
  S2CellId.ConvertFromOldFormat x = 0
  /\ S2CellId.ConvertFromOldFormat x
     <> S2CellId.ConvertFromOldFormat (s2v1.parent_at x S2CellId.kMaxLevel)
  /\ S2CellId.FromParsed x
     = S2CellId.ConvertFromOldFormat (s2v1.parent_at x S2CellId.kMaxLevel)
  /\ S2CellId.FromDecoded x
     = S2CellId.ConvertFromOldFormat (s2v1.parent_at x S2CellId.kMaxLevel)
  /\ S2CellId.is_valid (S2CellId.FromParsed x) = true
  /\ S2CellId.level (S2CellId.FromParsed x) = S2CellId.kMaxLevel.
Proof.
  intros Hx Hv Hlev.
  destruct (valid_is_cell x Hx Hv) as (l & a & Hl & Ha & ->).
  rewrite pow4 in Ha by lia.
  rewrite level_cell in Hlev by lia.
  change S2CellId.kMaxLevel with 28 in *.
  destruct (deep_parent l a ltac:(lia) Ha) as (Hb & EP).
  assert (E0 : S2CellId.ConvertFromOldFormat (cell l a) = 0).
  { unfold S2CellId.ConvertFromOldFormat.
    rewrite is_valid_cell, level_cell by (rewrite ?pow4; lia).
    cbn [negb]. change S2CellId.kMaxLevel with 28.
    replace (l >? 28) with true by (symmetry; apply Z.gtb_lt; lia).
    reflexivity. }
  assert (ET : S2CellId.truncate_to_kMaxLevel (cell l a)
               = cell 28 (a / 4 ^ (l - 28))).
  { unfold S2CellId.truncate_to_kMaxLevel.
    rewrite level_cell by lia. change S2CellId.kMaxLevel with 28.
    replace (l >? 28) with true by (symmetry; apply Z.gtb_lt; lia).
    exact EP. }
  assert (EPa : S2CellId.FromParsed (cell l a)
                = enc 28 (a / 4 ^ (l - 28))).
  { unfold S2CellId.FromParsed, S2CellId.FromS2CellId.
    rewrite is_valid_cell by (rewrite ?pow4; lia). cbn [negb].
    rewrite ET. apply ConvertFromOldFormat_cell; lia. }
  pose proof (enc_fields 28 (a / 4 ^ (l - 28)) ltac:(lia) Hb) as (Hr & _).
  rewrite EPa, E0, EP, ConvertFromOldFormat_cell by lia.
  split; [reflexivity|]. split; [lia|]. split; [reflexivity|].
  split.
  - unfold S2CellId.FromDecoded. rewrite ET.
    apply ConvertFromOldFormat_cell; lia.
  - split; [apply enc_valid; lia|apply enc_level; lia].
Qed.

Lemma deep_conversion_is_invalid_witness :
  S2CellId.ConvertFromOldFormat (s2v1.FromFacePosLevel 2 0 30) = 0.
Proof.
  apply (deep_conversion_is_invalid (s2v1.FromFacePosLevel 2 0 30)).
  - word_range.
  - reflexivity.
  - reflexivity.
Defined.

End ConversionClaims.

(* ================================================================== *)
(** * The root of face 0, the text scenarios, the ordering *)
(* ================================================================== *)

Section CompactScenarios.

Local Open Scope string_scope.

(** C8.  The scenarios of the text codec on the path identifier. *)
Theorem string_scenarios :
  S2CellId.ToString (S2CellId.FromFace 0) = "0"
  /\ S2CellId.ToString (S2CellId.child (S2CellId.FromFace 3) 2) = "3/2"
  /\ S2CellId.level (S2CellId.FromString "3/2") = 1
  /\ S2CellId.child_position (S2CellId.FromString "3/2") = 2
  /\ S2CellId.is_valid (S2CellId.FromString "6/0") = false
  /\ S2CellId.is_valid (S2CellId.FromString "0/4") = false.
Proof.
  split; [vm_compute; reflexivity|].
  split; [vm_compute; reflexivity|].
  split; [vm_compute; reflexivity|].
  split; [vm_compute; reflexivity|].
  split; vm_compute; reflexivity.
Qed.

Lemma valid_low_bit60 (x : Z) :
  0 <= x < 2 ^ 64 -> S2CellId.is_valid x = true ->
  1 <= S2CellId.level x <= 27 -> Z.testbit x 60 = false.
Proof.
  intros Hx Hv Hl. rewrite level_eq in Hl.
  apply is_valid_fields in Hv; [|exact Hx].
  destruct Hv as (_ & _ & _ & [?|HP]); [lia|].
  assert (H4 : 4 ^ (x mod 32) <= 2 ^ 54).
  { rewrite <- pow4 by lia. apply pow2_le; lia. }
  destruct (Z.testbit x 60) eqn:B; [exfalso|reflexivity].
  apply Z.testbit_true in B; [|lia].
  revert B HP H4. generalize (4 ^ (x mod 32)). intros q B HP H4.
  Z.div_mod_to_equations. lia.
Qed.

(** C4, as the code has it.  [FromFaceLevel(0, 0)] is the word with the
    single bit 60 set, the highest bit of the path field; it differs from
    [None], is valid, has face 0 and level 0, and is the parent of each of
    its four children.  No other face cell and no valid identifier of
    depth 1 to 27 has that bit set. *)
Theorem face0_root_marker :
  let root := S2CellId.FromFaceLevel 0 0 in
  root <> S2CellId.None
  /\ S2CellId.is_valid root = true
  /\ S2CellId.face root = 0
  /\ S2CellId.level root = 0
  /\ (forall p, 0 <= p < 4 -> S2CellId.parent (S2CellId.child root p) = root)
  /\ root = 2 ^ (S2CellId.kLevelBits + S2CellId.kPathBits - 1)
  /\ (forall f, 1 <= f <= 5 ->
        Z.testbit (S2CellId.FromFaceLevel f 0) 60 = false)
  /\ (forall x, 0 <= x < 2 ^ 64 -> S2CellId.is_valid x = true ->
        1 <= S2CellId.level x <= 27 -> Z.testbit x 60 = false).
Proof.
  cbv zeta.
  split; [vm_compute; discriminate|].
  split; [vm_compute; reflexivity|].
  split; [vm_compute; reflexivity|].
  split; [vm_compute; reflexivity|].
  split.
  { intros p Hp.
    assert (C : p = 0 \/ p = 1 \/ p = 2 \/ p = 3) by lia.
    destruct C as [->|[->|[->| ->]]]; vm_compute; reflexivity. }
  split; [vm_compute; reflexivity|].
  split.
  { intros f Hf.
    assert (C : f = 1 \/ f = 2 \/ f = 3 \/ f = 4 \/ f = 5) by lia.
    destruct C as [->|[->|[->|[->| ->]]]]; vm_compute; reflexivity. }
  exact valid_low_bit60.
Qed.

(** C4, against the claim as written: the bit of the root marker is not
    unused elsewhere.  The valid depth-28 cell "0/2000...0" has it set. *)
Lemma root_marker_bit_shared_counterexample :
  let root := S2CellId.FromFaceLevel 0 0 in
  let deep := S2CellId.FromString "0/2000000000000000000000000000" in
  S2CellId.is_valid deep = true
  /\ S2CellId.level deep = 28
  /\ deep <> root
  /\ Z.testbit root 60 = true
  /\ Z.testbit deep 60 = true.
Proof.
  vm_compute. repeat split; try reflexivity. discriminate.
Qed.

(** C3, as the code has it.  [x < y] on path identifiers is the comparison
    of the converted identifiers, [x.id() < y.id()]: on the codes of two
    cells it is the order of the cells along the curve.  A list sorted
    with it is in ascending order of [id()]. *)
Theorem lt_is_order_of_converted :
  (forall x y, S2CellId.lt x y = true <-> S2CellId.id x < S2CellId.id y)
  /\ (forall l a l' a',
        0 <= l <= 28 -> 0 <= a < 6 * 4 ^ l ->
        0 <= l' <= 28 -> 0 <= a' < 6 * 4 ^ l' ->
        (S2CellId.lt (enc l a) (enc l' a') = true <-> cell l a < cell l' a'))
  /\ (forall xs,
        Sorted (fun x y => S2CellId.lt x y = true) xs ->
        Sorted Z.lt (map S2CellId.id xs)).
Proof.
  assert (E : forall x y,
             S2CellId.lt x y = true <-> S2CellId.id x < S2CellId.id y).
  { intros x y. unfold S2CellId.lt, S2CellId.id, s2v1.lt. apply Z.ltb_lt. }
  split; [exact E|]. split.
  { intros l a l' a' Hl Ha Hl' Ha'. rewrite E. unfold S2CellId.id, S2CellId.ToOldFormat.
    rewrite !ConvertToOldFormat_enc by lia. reflexivity. }
  intros xs Hs. induction Hs as [|x xs _ IH Hhd]; cbn [map].
  - constructor.
  - constructor; [exact IH|].
    destruct Hhd as [|y ys Hxy]; cbn [map]; constructor.
    apply E. exact Hxy.
Qed.

(** C3, against the claim as written: the first child of face 0 and its own
    first child.  The raw values are 1 and 2, but the child precedes its
    parent on the curve, so [x < y] is false. *)
Lemma lt_raw_order_counterexample :
  let x := S2CellId.child (S2CellId.FromFace 0) 0 in
  let y := S2CellId.child x 0 in
  S2CellId.is_valid x = true
  /\ S2CellId.is_valid y = true
  /\ S2CellId.new_id x = 1
  /\ S2CellId.new_id y = 2
  /\ S2CellId.new_id x < S2CellId.new_id y
  /\ S2CellId.lt x y = false
  /\ S2CellId.lt y x = true.
Proof.
  vm_compute. repeat split; reflexivity.
Qed.

End CompactScenarios.

(* ================================================================== *)
(** * Navigation on the path identifier *)
(* ================================================================== *)

Section CompactNavigation.

(** What the accessors of a valid identifier return. *)
Lemma valid_view (x : Z) :
  0 <= x < 2 ^ 64 -> S2CellId.is_valid x = true ->
  exists l a,
    0 <= l <= 28 /\ 0 <= a < 6 * 4 ^ l
    /\ S2CellId.level x = l
    /\ S2CellId.face x = a / 4 ^ l
    /\ S2CellId.path x = a mod 4 ^ l
    /\ (canonical x = true -> x = enc l a).
Proof.
  intros Hx Hv.
  destruct (Z.eqb_spec (x mod 32) 0) as [EL|NL].
  - (* a face cell, whatever its path field holds *)
    pose proof Hv as Hv'. apply is_valid_fields in Hv'; [|exact Hx].
    destruct Hv' as (N0 & HF & _).
    assert (Hf : 0 <= x / 2 ^ 61) by (apply Z.div_pos; lia).
    exists 0, (x / 2 ^ 61).
    rewrite Z.pow_0_r, Z.div_1_r, Z.mod_1_r.
    rewrite level_eq, face_eq, path_eq_root by lia.
    repeat split; try lia.
    intros Hc.
    destruct (canonical_is_enc x Hx Hv Hc) as (l & a & Hl & Ha & E).
    destruct (enc_fields l a Hl Ha) as (_ & EF & EL' & _).
    rewrite <- E in EF, EL'.
    assert (L0 : l = 0) by lia. clear EL'. subst l.
    rewrite Z.pow_0_r, Z.div_1_r in EF. rewrite EF. exact E.
  - assert (Hc : canonical x = true).
    { unfold canonical.
      replace (x mod 32 =? 0) with false by (symmetry; apply Z.eqb_neq; exact NL).
      cbn [negb]. rewrite orb_true_r. reflexivity. }
    destruct (canonical_is_enc x Hx Hv Hc) as (l & a & Hl & Ha & E).
    exists l, a. subst x.
    rewrite enc_level, enc_face, enc_path by lia.
    repeat split; lia.
Qed.

Lemma in_digit (p : Z) :
  0 <= p < 4 -> (p <? 0) || (p >=? 4) = false.
Proof.
  intros Hp. apply orb_false_intro.
  - apply Z.ltb_ge; lia.
  - rewrite Z.geb_leb. apply Z.leb_gt; lia.
Qed.

Lemma child_view (x l a p : Z) :
  S2CellId.is_valid x = true ->
  0 <= l < 28 -> 0 <= a < 6 * 4 ^ l ->
  S2CellId.level x = l -> S2CellId.face x = a / 4 ^ l ->
  S2CellId.path x = a mod 4 ^ l ->
  0 <= p < 4 ->
  S2CellId.child x p = enc (l + 1) (4 * a + p).
Proof.
  intros Hv Hl Ha EL EF EP Hp.
  destruct (enc_sum l a ltac:(lia) Ha) as (Hf & Hq & Hq56 & Ea).
  pose proof (pow4_pos l ltac:(lia)) as H4.
  assert (H54 : 4 ^ l <= 2 ^ 54).
  { rewrite <- pow4 by lia. apply pow2_le; lia. }
  unfold S2CellId.child. rewrite Hv, in_digit, EL, EF, EP by lia.
  cbn [negb]. change S2CellId.kMaxLevel with 28.
  replace (l >=? 28) with false
    by (symmetry; rewrite Z.geb_leb; apply Z.leb_gt; lia).
  rewrite append_digit by lia.
  rewrite pack_sum by lia.
  rewrite enc_unfold by (rewrite ?pow4_succ; lia).
  rewrite pow4_succ by lia.
  assert (ED : (4 * a + p) / (4 * 4 ^ l) = a / 4 ^ l).
  { rewrite <- Z.div_div by lia. f_equal.
    Z.div_mod_to_equations; lia. }
  assert (EM : (4 * a + p) mod (4 * 4 ^ l) = 4 * (a mod 4 ^ l) + p).
  { rewrite Z.rem_mul_r by lia.
    assert (E1 : (4 * a + p) mod 4 = p) by (Z.div_mod_to_equations; lia).
    assert (E2 : (4 * a + p) / 4 = a) by (Z.div_mod_to_equations; lia).
    rewrite E1, E2. lia. }
  rewrite ED, EM. reflexivity.
Qed.

Lemma parent_view (x l a : Z) :
  S2CellId.is_valid x = true ->
  1 <= l <= 28 -> 0 <= a < 6 * 4 ^ l ->
  S2CellId.level x = l -> S2CellId.face x = a / 4 ^ l ->
  S2CellId.path x = a mod 4 ^ l ->
  S2CellId.parent x = enc (l - 1) (a / 4).
Proof.
  intros Hv Hl Ha EL EF EP.
  destruct (enc_sum l a ltac:(lia) Ha) as (Hf & Hq & Hq56 & Ea).
  pose proof (pow4_pos (l - 1) ltac:(lia)) as H4.
  assert (E4 : 4 ^ l = 4 * 4 ^ (l - 1)).
  { rewrite <- pow4_succ by lia. f_equal. lia. }
  unfold S2CellId.parent. rewrite Hv, EL, EF, EP. cbn [negb].
  replace (l =? 0) with false by (symmetry; apply Z.eqb_neq; lia).
  unfold U64.shr. rewrite Z.shiftr_div_pow2 by lia. change (2 ^ 2) with 4.
  assert (ED : a / 4 / 4 ^ (l - 1) = a / 4 ^ l).
  { rewrite Z.div_div, E4 by lia. reflexivity. }
  assert (EM : (a / 4) mod 4 ^ (l - 1) = a mod 4 ^ l / 4).
  { rewrite E4, Z.rem_mul_r by lia.
    rewrite Z.mul_comm, Z.div_add by lia.
    rewrite (Z.div_small (a mod 4) 4) by (apply digit_range). lia. }
  assert (Hm : 0 <= a mod 4 ^ l / 4 < 2 ^ 56).
  { rewrite <- EM.
    pose proof (Z.mod_pos_bound (a / 4) (4 ^ (l - 1)) H4).
    pose proof (pow4_le_56 (l - 1) ltac:(lia)). lia. }
  rewrite pack_sum by lia.
  rewrite <- EM, <- ED.
  unfold enc.
  destruct (Z.eqb_spec (l - 1) 0) as [E0|N0]; cbn [andb].
  - rewrite E0, Z.pow_0_r, Z.div_1_r, Z.mod_1_r.
    destruct (Z.eqb_spec (a / 4) 0) as [Ea0|Na0].
    + rewrite Ea0. reflexivity.
    + assert (0 <= a / 4) by (apply Z.div_pos; lia).
      destruct (Z.eqb_spec (a / 4 * 2 ^ 61 + 0 * 32 + 0) 0); [lia|reflexivity].
  - destruct (Z.eqb_spec (a / 4 / 4 ^ (l - 1) * 2 ^ 61
                          + (a / 4) mod 4 ^ (l - 1) * 32 + (l - 1)) 0)
      as [EZ|NZ]; [|reflexivity].
    pose proof (Z.mod_pos_bound (a / 4) (4 ^ (l - 1)) H4).
    rewrite ED in EZ. lia.
Qed.

Lemma quarter_bound (l a : Z) :
  1 <= l -> 0 <= a < 6 * 4 ^ l -> 0 <= a / 4 < 6 * 4 ^ (l - 1).
Proof.
  intros Hl Ha.
  replace l with (l - 1 + 1) in Ha by lia.
  rewrite pow4_succ in Ha by lia.
  Z.div_mod_to_equations. lia.
Qed.

Lemma parent_enc (l a : Z) :
  1 <= l <= 28 -> 0 <= a < 6 * 4 ^ l ->
  S2CellId.parent (enc l a) = enc (l - 1) (a / 4).
Proof.
  intros Hl Ha.
  apply parent_view; try lia;
    [apply enc_valid|apply enc_level|apply enc_face|apply enc_path]; lia.
Qed.

Lemma child_enc (l a p : Z) :
  0 <= l < 28 -> 0 <= a < 6 * 4 ^ l -> 0 <= p < 4 ->
  S2CellId.child (enc l a) p = enc (l + 1) (4 * a + p).
Proof.
  intros Hl Ha Hp.
  apply child_view; try lia;
    [apply enc_valid|apply enc_level|apply enc_face|apply enc_path]; lia.
Qed.

(** The loop of [parent(int)] ends after [l - t] turns. *)
Lemma climb_enc (n : nat) :
  forall fuel l a t,
    (n <= fuel)%nat -> 0 <= t -> l = t + Z.of_nat n -> l <= 28 ->
    0 <= a < 6 * 4 ^ l ->
    S2CellId.climb fuel (enc l a) t = Some (enc t (a / 4 ^ Z.of_nat n)).
Proof.
  induction n as [|m IH]; intros fuel l a t Hfuel Ht El Hl Ha.
  - change (Z.of_nat 0) with 0 in *. rewrite Z.pow_0_r, Z.div_1_r.
    replace l with t in * by lia.
    destruct fuel; cbn [S2CellId.climb]; rewrite enc_level by lia;
      replace (t >? t) with false
        by (symmetry; rewrite Z.gtb_ltb; apply Z.ltb_irrefl); reflexivity.
  - destruct fuel as [|fuel]; [lia|].
    rewrite Nat2Z.inj_succ in *. unfold Z.succ in *.
    cbn [S2CellId.climb]. rewrite enc_level by lia.
    replace (l >? t) with true by (symmetry; apply Z.gtb_lt; lia).
    rewrite parent_enc by lia.
    pose proof (quarter_bound l a ltac:(lia) Ha).
    rewrite (IH fuel (l - 1) (a / 4) t) by lia.
    rewrite Z.div_div, pow4_succ by (try apply pow4_pos; lia).
    reflexivity.
Qed.

Lemma ancestor_bound (l a t : Z) :
  0 <= t <= l -> 0 <= a < 6 * 4 ^ l -> 0 <= a / 4 ^ (l - t) < 6 * 4 ^ t.
Proof.
  intros Ht Ha.
  pose proof (pow4_pos (l - t) ltac:(lia)) as H4.
  assert (E : 4 ^ l = 4 ^ t * 4 ^ (l - t)).
  { rewrite <- Z.pow_add_r by lia. f_equal. lia. }
  split; [apply Z.div_pos; lia|].
  apply Z.div_lt_upper_bound; [lia|]. rewrite E in Ha. lia.
Qed.

(** The assertions of the curve-position [parent(level)] hold on a cell
    and a depth up to its own. *)
Lemma parent_at_pre_cell (l a t : Z) :
  0 <= t <= l -> l <= 30 -> 0 <= a < 6 * 4 ^ l ->
  s2v1.parent_at_pre (cell l a) t = true.
Proof.
  intros Ht Hl Ha. unfold s2v1.parent_at_pre.
  rewrite is_valid_cell, level_cell by (rewrite ?pow4; lia).
  apply andb_true_intro; split; [apply andb_true_intro; split|].
  - reflexivity.
  - apply Z.leb_le; lia.
  - apply Z.leb_le; lia.
Qed.

(** [parent(int)] on the code of a cell, on both of its branches. *)
Lemma parent_at_enc (l a t : Z) :
  0 <= t < l -> l <= 28 -> 0 <= a < 6 * 4 ^ l ->
  S2CellId.parent_at (enc l a) t = Some (enc t (a / 4 ^ (l - t))).
Proof.
  intros Ht Hl Ha. unfold S2CellId.parent_at.
  change S2CellId.kMaxLevel with 28.
  replace ((t <? 0) || (t >? 28)) with false.
  2:{ symmetry. apply orb_false_intro.
      - apply Z.ltb_ge; lia.
      - rewrite Z.gtb_ltb. apply Z.ltb_ge; lia. }
  rewrite enc_level by lia.
  replace (t >=? l) with false
    by (symmetry; rewrite Z.geb_leb; apply Z.leb_gt; lia).
  destruct (Z.gtb_spec (l - t) 5) as [Hbig|Hsmall].
  - unfold S2CellId.ToOldFormat, S2CellId.FromS2CellId. cbv zeta.
    rewrite ConvertToOldFormat_enc by lia.
    rewrite parent_at_pre_cell by lia.
    rewrite parent_at_cell by (rewrite ?pow4; lia).
    rewrite pow4 by lia.
    pose proof (ancestor_bound l a t ltac:(lia) Ha).
    rewrite ConvertFromOldFormat_cell by lia. reflexivity.
  - rewrite (climb_enc (Z.to_nat (l - t)))
      by (unfold S2CellId.climb_fuel; lia).
    rewrite Z2Nat.id by lia. reflexivity.
Qed.

End CompactNavigation.

(* ================================================================== *)
(** * What the operations on the path identifier return *)
(* ================================================================== *)

Section CompactInvariant.

Lemma enc_ok (l a : Z) :
  0 <= l <= 28 -> 0 <= a < 6 * 4 ^ l -> produced_ok (enc l a).
Proof.
  intros Hl Ha. right. split; [apply enc_valid; assumption|].
  destruct (enc_sum l a Hl Ha) as (Hf & Hp & Hp56 & Ea).
  destruct (enc_fields l a Hl Ha) as (Hr & EF & EL & EP).
  unfold well_formed.
  destruct (Z.eqb_spec (enc l a) S2CellId.root_marker) as [|NM];
    [reflexivity|].
  cbn [orb]. rewrite EF, EL.
  assert (EP' : (enc l a / 32) mod 2 ^ 56 = a mod 4 ^ l).
  { destruct (Z.eq_dec l 0) as [->|Hl0]; [|apply EP; exact Hl0].
    rewrite Z.pow_0_r, Z.mod_1_r.
    destruct (Z.eq_dec a 0) as [->|Ha0].
    - exfalso. apply NM. reflexivity.
    - rewrite enc_unfold by (rewrite ?Z.pow_0_r; lia).
      rewrite Z.pow_0_r, Z.div_1_r, Z.mod_1_r.
      apply (sum_fields a 0 0); lia. }
  rewrite EP'.
  apply andb_true_intro; split; [apply andb_true_intro; split|].
  - apply Z.ltb_lt; lia.
  - apply Z.leb_le; lia.
  - apply Z.ltb_lt; lia.
Qed.

Lemma sum_is_enc (f p l : Z) :
  0 <= f < 6 -> 1 <= l <= 28 -> 0 <= p < 4 ^ l ->
  f * 2 ^ 61 + p * 32 + l = enc l (f * 4 ^ l + p)
  /\ 0 <= f * 4 ^ l + p < 6 * 4 ^ l.
Proof.
  intros Hf Hl Hp.
  pose proof (pow4_pos l ltac:(lia)) as H4.
  assert (Hb : 0 <= f * 4 ^ l + p < 6 * 4 ^ l) by nia.
  split; [|exact Hb].
  rewrite enc_unfold by lia.
  rewrite Z.div_add_l, (Z.div_small p) by lia.
  rewrite (Z.add_comm (f * 4 ^ l) p), Z.mod_add, (Z.mod_small p) by lia.
  lia.
Qed.

Lemma FromFacePosLevel_cell (f k : Z) :
  0 <= f < 6 -> 0 <= k <= 30 ->
  s2v1.FromFacePosLevel f 0 k = cell k (f * 4 ^ k).
Proof.
  intros Hf Hk. unfold s2v1.FromFacePosLevel.
  assert (E : U64.add (U64.shl (U64.of_int f) s2v1.kPosBits) (Z.lor 0 1)
              = cell 30 (f * 4 ^ 30)).
  { unfold U64.of_int, U64.shl, U64.add. change s2v1.kPosBits with 61.
    rewrite (wrap_small f), Z.shiftl_mul_pow2 by lia.
    rewrite (wrap_small (f * 2 ^ 61)) by lia.
    rewrite cell_unfold. change (Z.lor 0 1) with 1.
    rewrite wrap_small by lia. lia. }
  rewrite E.
  rewrite parent_at_cell by (rewrite ?pow4; lia).
  f_equal. rewrite pow4 by lia.
  pose proof (pow4_pos k ltac:(lia)). pose proof (pow4_pos (30 - k) ltac:(lia)).
  replace (4 ^ 30) with (4 ^ k * 4 ^ (30 - k))
    by (rewrite <- Z.pow_add_r by lia; f_equal; lia).
  rewrite Z.mul_assoc, Z.div_mul by lia. reflexivity.
Qed.

(** [ConvertFromOldFormat] in full: 0 for an invalid identifier and for a
    depth above 28, the code of the cell otherwise; the loop never runs out
    of fuel. *)
Lemma ConvertFromOldFormat_total (old_id : Z) :
  0 <= old_id < 2 ^ 64 ->
  (s2v1.is_valid old_id = false /\ S2CellId.ConvertFromOldFormat old_id = 0)
  \/ (exists l a, 0 <= l <= 30 /\ 0 <= a < 6 * 4 ^ l /\ old_id = cell l a
        /\ S2CellId.ConvertFromOldFormat old_id
           = if l >? 28 then 0 else enc l a).
Proof.
  intros Hx. destruct (s2v1.is_valid old_id) eqn:Hv.
  - right. destruct (valid_is_cell old_id Hx Hv) as (l & a & Hl & Ha & ->).
    rewrite pow4 in Ha by lia.
    exists l, a. repeat split; try lia.
    destruct (Z.gtb_spec l 28) as [Hd|Hd].
    + unfold S2CellId.ConvertFromOldFormat.
      rewrite Hv, level_cell by lia. cbn [negb].
      change S2CellId.kMaxLevel with 28.
      replace (l >? 28) with true by (symmetry; apply Z.gtb_lt; lia).
      reflexivity.
    + apply ConvertFromOldFormat_cell; lia.
  - left. split; [reflexivity|].
    unfold S2CellId.ConvertFromOldFormat. rewrite Hv. reflexivity.
Qed.

Lemma ConvertFromOldFormat_ok (old_id : Z) :
  0 <= old_id < 2 ^ 64 ->
  produced_ok (S2CellId.ConvertFromOldFormat old_id).
Proof.
  intros Hx.
  destruct (ConvertFromOldFormat_total old_id Hx)
    as [(_ & ->)|(l & a & Hl & Ha & _ & ->)].
  - left; reflexivity.
  - destruct (Z.gtb_spec l 28); [left; reflexivity|apply enc_ok; lia].
Qed.

Lemma FromFaceLevel_ok (face level : Z) :
  produced_ok (S2CellId.FromFaceLevel face level).
Proof.
  unfold S2CellId.FromFaceLevel. change S2CellId.kMaxLevel with 28.
  destruct (Z.ltb_spec face 0); [left; reflexivity|].
  destruct (Z.gtb_spec face 5); [left; reflexivity|].
  destruct (Z.ltb_spec level 0); [left; reflexivity|].
  destruct (Z.gtb_spec level 28); [left; reflexivity|].
  cbn [orb].
  destruct (Z.eqb_spec level 0) as [->|Hl0].
  - assert (C : face = 0 \/ face = 1 \/ face = 2 \/ face = 3 \/ face = 4
                \/ face = 5) by lia.
    right. destruct C as [->|[->|[->|[->|[->| ->]]]]];
      split; vm_compute; reflexivity.
  - rewrite FromFacePosLevel_cell by lia.
    pose proof (pow4_pos level ltac:(lia)).
    rewrite is_valid_cell by (rewrite ?pow4; nia). cbn [negb].
    unfold S2CellId.FromS2CellId.
    rewrite ConvertFromOldFormat_cell by nia.
    apply enc_ok; nia.
Qed.

Lemma parse_path_bound (n : nat) :
  forall s acc p,
    0 <= acc -> (acc + 1) * 4 ^ Z.of_nat n <= 2 ^ 58 ->
    S2CellId.parse_path n s acc = Some p ->
    acc * 4 ^ Z.of_nat n <= p < (acc + 1) * 4 ^ Z.of_nat n.
Proof.
  induction n as [|m IH]; intros s acc p Hacc Hb E.
  - cbn in E. injection E as <-. change (Z.of_nat 0) with 0.
    rewrite Z.pow_0_r. lia.
  - rewrite Nat2Z.inj_succ in *. unfold Z.succ in *.
    rewrite pow4_succ in * by lia.
    pose proof (pow4_pos (Z.of_nat m) ltac:(lia)) as H4.
    cbn [S2CellId.parse_path] in E.
    destruct s as [|c rest]; [discriminate E|].
    destruct (Z.ltb_spec (Str.code c) 48); [discriminate E|].
    destruct (Z.gtb_spec (Str.code c) 51); [discriminate E|].
    cbn [orb] in E.
    rewrite append_digit in E by nia.
    apply IH in E; nia.
Qed.

End CompactInvariant.

Section CompactInvariantText.

Lemma substring_all (s : string) : substring 0 (String.length s) s = s.
Proof.
  induction s as [|c s IH]; cbn; [reflexivity|]. rewrite IH. reflexivity.
Qed.

Lemma substring_length_le (s : string) :
  forall n m, (String.length (substring n m s) <= String.length s)%nat.
Proof.
  induction s as [|c s IH]; intros n m.
  - destruct n, m; cbn; lia.
  - destruct n as [|n].
    + destruct m as [|m]; cbn; [lia|]. specialize (IH O m). lia.
    + cbn. specialize (IH n m). lia.
Qed.

Lemma FromString_ok (str : string) :
  Z.of_nat (String.length str) < 2 ^ 31 ->
  produced_ok (S2CellId.FromString str).
Proof.
  intros Hlen. unfold S2CellId.FromString.
  destruct str as [|c0 str0]; [left; reflexivity|].
  destruct (Str.stoi _) as [face|]; [|left; reflexivity].
  destruct (Z.ltb_spec face 0); [left; reflexivity|].
  destruct (Z.gtb_spec face 5); [left; reflexivity|].
  cbn [orb].
  destruct (Str.find _ _) as [p|]; [|apply FromFaceLevel_ok].
  remember (Str.substr_from (p + 1) (String c0 str0)) as path_str eqn:EP.
  assert (Hle : (String.length path_str <= String.length (String c0 str0))%nat).
  { rewrite EP. apply substring_length_le. }
  rewrite to_int_small by lia.
  remember (Z.of_nat (String.length path_str)) as level eqn:EL.
  destruct (Z.eqb_spec level 0); [apply FromFaceLevel_ok|].
  change S2CellId.kMaxLevel with 28.
  destruct (Z.gtb_spec level 28); [left; reflexivity|].
  destruct (S2CellId.parse_path _ _ _) as [path|] eqn:E; [|left; reflexivity].
  apply parse_path_bound in E;
    [|lia|rewrite Z2Nat.id, Z.add_0_l, Z.mul_1_l by lia;
          pose proof (pow4_le_56 level ltac:(lia)); lia].
  rewrite Z2Nat.id in E by lia.
  pose proof (pow4_le_56 level ltac:(lia)).
  rewrite pack_sum by lia.
  destruct (sum_is_enc face path level ltac:(lia) ltac:(lia) ltac:(lia))
    as (-> & Hb).
  apply enc_ok; lia.
Qed.

Lemma child_ok (x p : Z) :
  0 <= x < 2 ^ 64 -> produced_ok (S2CellId.child x p).
Proof.
  intros Hx. destruct (S2CellId.is_valid x) eqn:Hv.
  2:{ left. unfold S2CellId.child. rewrite Hv. reflexivity. }
  destruct (valid_view x Hx Hv) as (l & a & Hl & Ha & EL & EF & EP & _).
  destruct (Z_lt_dec p 0) as [Hp0|Hp0].
  { left. unfold S2CellId.child. rewrite Hv. cbn [negb].
    replace (p <? 0) with true by (symmetry; apply Z.ltb_lt; lia).
    reflexivity. }
  destruct (Z_lt_dec p 4) as [Hp4|Hp4].
  2:{ left. unfold S2CellId.child. rewrite Hv. cbn [negb].
      replace (p >=? 4) with true
        by (symmetry; rewrite Z.geb_leb; apply Z.leb_le; lia).
      rewrite orb_true_r. reflexivity. }
  destruct (Z_lt_dec l 28) as [Hd|Hd].
  - rewrite (child_view x l a p) by (assumption || lia).
    pose proof (pow4_pos l ltac:(lia)).
    apply enc_ok; rewrite ?pow4_succ; lia.
  - left. unfold S2CellId.child. rewrite Hv, in_digit, EL by lia.
    cbn [negb]. change S2CellId.kMaxLevel with 28.
    replace (l >=? 28) with true
      by (symmetry; rewrite Z.geb_leb; apply Z.leb_le; lia).
    reflexivity.
Qed.

Lemma parent_of_invalid (x : Z) :
  S2CellId.is_valid x = false -> S2CellId.parent x = S2CellId.None.
Proof. intros Hv. unfold S2CellId.parent. rewrite Hv. reflexivity. Qed.

Lemma parent_ok (x : Z) :
  0 <= x < 2 ^ 64 -> produced_ok (S2CellId.parent x).
Proof.
  intros Hx. destruct (S2CellId.is_valid x) eqn:Hv.
  2:{ left. apply parent_of_invalid; exact Hv. }
  destruct (valid_view x Hx Hv) as (l & a & Hl & Ha & EL & EF & EP & _).
  destruct (Z.eq_dec l 0) as [L0|L0].
  - left. unfold S2CellId.parent. rewrite Hv, EL, L0. reflexivity.
  - rewrite (parent_view x l a) by (assumption || lia).
    pose proof (quarter_bound l a ltac:(lia) Ha).
    apply enc_ok; lia.
Qed.

(** A valid identifier below the root is the code of a cell. *)
Lemma valid_deep_is_enc (x : Z) :
  0 <= x < 2 ^ 64 -> S2CellId.is_valid x = true -> S2CellId.level x <> 0 ->
  exists l a, 1 <= l <= 28 /\ 0 <= a < 6 * 4 ^ l /\ x = enc l a.
Proof.
  intros Hx Hv Hl.
  destruct (valid_view x Hx Hv) as (l & a & Hl' & Ha & EL & _ & _ & Hc).
  exists l, a. split; [lia|]. split; [exact Ha|].
  apply Hc. unfold canonical. rewrite level_eq in Hl.
  replace (x mod 32 =? 0) with false by (symmetry; apply Z.eqb_neq; exact Hl).
  cbn [negb]. rewrite orb_true_r. reflexivity.
Qed.

Lemma level_range (x : Z) : 0 <= S2CellId.level x < 32.
Proof. rewrite level_eq. apply Z.mod_pos_bound. lia. Qed.


Lemma parent_at_ok (x t : Z) :
  0 <= x < 2 ^ 64 -> produced_ok x ->
  exists r, S2CellId.parent_at x t = Some r /\ produced_ok r.
Proof.
  intros Hx Hok.
  pose proof (level_range x) as Hr.
  unfold S2CellId.parent_at. change S2CellId.kMaxLevel with 28.
  destruct (Z.ltb_spec t 0).
  { exists S2CellId.None. split; [reflexivity|left; reflexivity]. }
  destruct (Z.gtb_spec t 28).
  { exists S2CellId.None. split; [reflexivity|left; reflexivity]. }
  cbn [orb]. rewrite Z.geb_leb.
  destruct (Z.leb_spec (S2CellId.level x) t) as [Hle|Hgt].
  { exists x. split; [reflexivity|exact Hok]. }
  destruct Hok as [E0|(Hv & _)].
  { rewrite E0 in Hgt. change (S2CellId.level S2CellId.None) with 0 in Hgt.
    lia. }
  destruct (valid_deep_is_enc x Hx Hv ltac:(lia)) as (l & a & Hl & Ha & ->).
  rewrite enc_level in Hgt by lia.
  pose proof (parent_at_enc l a t ltac:(lia) ltac:(lia) Ha) as E.
  unfold S2CellId.parent_at in E. change S2CellId.kMaxLevel with 28 in E.
  replace ((t <? 0) || (t >? 28)) with false in E.
  2:{ symmetry. apply orb_false_intro.
      - apply Z.ltb_ge; lia.
      - rewrite Z.gtb_ltb. apply Z.ltb_ge; lia. }
  rewrite Z.geb_leb in E.
  replace (S2CellId.level (enc l a) <=? t) with false in E
    by (symmetry; rewrite enc_level by lia; apply Z.leb_gt; lia).
  rewrite E. eexists. split; [reflexivity|].
  apply enc_ok; [lia|]. apply ancestor_bound; lia.
Qed.

End CompactInvariantText.

Section CompactClaims.

Lemma zeros_length (n : nat) : String.length (zeros n) = n.
Proof. induction n as [|m IH]; cbn; [reflexivity|]. rewrite IH. reflexivity. Qed.

Lemma substr_from_long_text (n : nat) :
  Str.substr_from (1 + 1) (String "0" (String "/" (zeros n))) = zeros n.
Proof.
  unfold Str.substr_from. cbn [String.length Nat.add Nat.sub].
  rewrite Nat.sub_0_r. cbn [substring]. apply substring_all.
Qed.

(** [FromString] on "0/" followed by [2^31] digits: the length does not fit
    an [int], the level read from it is negative, no test rejects it and
    it is packed as it is. *)
Lemma FromString_long_text (n : nat) :
  Z.of_nat n = 2 ^ 31 ->
  S2CellId.FromString (long_text n) = 2 ^ 64 - 2 ^ 31.
Proof.
  intros Hn. unfold S2CellId.FromString, long_text. cbv beta iota zeta.
  change (Str.find "/" (String "0" (String "/" (zeros n)))) with (Some 1%nat).
  cbv beta iota.
  change (Str.substr_to 1 (String "0" (String "/" (zeros n))))
    with (String "0" EmptyString).
  change (Str.stoi (String "0" EmptyString)) with (Some 0).
  cbv beta iota.
  rewrite substr_from_long_text, zeros_length, Hn.
  change (U64.to_int (2 ^ 31)) with (- 2 ^ 31).
  change (Z.to_nat (- 2 ^ 31)) with O.
  cbn [S2CellId.parse_path].
  vm_compute. reflexivity.
Qed.

(** C9.  [ConvertFromOldFormat], [FromFaceLevel], [parent], [child] and
    [parent(int)] return [None] or a valid identifier whose face is below
    6, whose depth is at most 28 and whose path field holds nothing above
    its [2 * depth] low bits (or the marker of the root of face 0), and so
    does [FromString] on every text shorter than [2^31] characters.  On the
    text "0/" followed by [2^31] digits, [FromString] returns a word that
    is neither [None] nor valid. *)
Theorem produced_values_valid :
  (forall old_id, 0 <= old_id < 2 ^ 64 ->
     produced_ok (S2CellId.ConvertFromOldFormat old_id))
  /\ (forall face level, produced_ok (S2CellId.FromFaceLevel face level))
  /\ (forall str, Z.of_nat (String.length str) < 2 ^ 31 ->
        produced_ok (S2CellId.FromString str))
  /\ (forall x, 0 <= x < 2 ^ 64 -> produced_ok (S2CellId.parent x))
  /\ (forall x p, 0 <= x < 2 ^ 64 -> produced_ok (S2CellId.child x p))
  /\ (forall x t, 0 <= x < 2 ^ 64 -> produced_ok x ->
        exists r, S2CellId.parent_at x t = Some r /\ produced_ok r)
  /\ (let r := S2CellId.FromString (long_text (Z.to_nat (2 ^ 31))) in
      r <> S2CellId.None /\ S2CellId.is_valid r = false).
Proof.
  split; [exact ConvertFromOldFormat_ok|].
  split; [exact FromFaceLevel_ok|].
  split; [exact FromString_ok|].
  split; [exact parent_ok|].
  split; [exact child_ok|].
  split; [exact parent_at_ok|].
  cbv zeta.
  rewrite FromString_long_text by (apply Z2Nat.id; lia).
  split; [vm_compute; discriminate|vm_compute; reflexivity].
Qed.




End CompactClaims.

(* ================================================================== *)
(** * The text form of the path identifier *)
(* ================================================================== *)

Section TextCodec.

Lemma to_string_face (f : Z) :
  0 <= f <= 5 ->
  Str.to_string f = String (S2CellId.digit_char f) EmptyString.
Proof.
  intros Hf.
  assert (C : f = 0 \/ f = 1 \/ f = 2 \/ f = 3 \/ f = 4 \/ f = 5) by lia.
  destruct C as [->|[->|[->|[->|[->| ->]]]]]; reflexivity.
Qed.

Lemma digit_code (d : Z) :
  0 <= d < 4 -> Str.code (S2CellId.digit_char d) = 48 + d.
Proof.
  intros Hd.
  assert (C : d = 0 \/ d = 1 \/ d = 2 \/ d = 3) by lia.
  destruct C as [->|[->|[->| ->]]]; reflexivity.
Qed.

(** The digit that [ToString] and [ConvertToOldFormat] read at position
    [i], counted from the leaf. *)
Lemma digit_at (p i : Z) :
  0 <= i ->
  U64.to_int (Z.land (U64.shr p (2 * i)) 3) = (p / 4 ^ i) mod 4.
Proof.
  intros Hi. unfold U64.shr.
  rewrite Z.shiftr_div_pow2, pow4, land3_mod4 by lia.
  apply to_int_small. pose proof (digit_range (p / 4 ^ i)). lia.
Qed.

Lemma root_to_leaf_cons (n : nat) :
  forall p, root_to_leaf (S n) p
            = (p / 4 ^ Z.of_nat n) mod 4 :: root_to_leaf n p.
Proof.
  induction n as [|m IH]; intros p.
  - cbn [root_to_leaf app]. change (Z.of_nat 0) with 0.
    rewrite Z.pow_0_r, Z.div_1_r. reflexivity.
  - change (root_to_leaf (S (S m)) p)
      with (root_to_leaf (S m) (p / 4) ++ [p mod 4]).
    rewrite IH. cbn [app].
    change (root_to_leaf m (p / 4) ++ [p mod 4]) with (root_to_leaf (S m) p).
    f_equal. rewrite Nat2Z.inj_succ. unfold Z.succ.
    pose proof (pow4_pos (Z.of_nat m) ltac:(lia)).
    rewrite pow4_succ, Z.div_div by lia. reflexivity.
Qed.

Lemma root_to_leaf_length (n : nat) :
  forall p, List.length (root_to_leaf n p) = n.
Proof.
  induction n as [|m IH]; intros p; cbn [root_to_leaf]; [reflexivity|].
  rewrite length_app, IH. cbn. lia.
Qed.

Lemma root_to_leaf_digits (n : nat) :
  forall p, Forall (fun d => 0 <= d < 4) (root_to_leaf n p).
Proof.
  induction n as [|m IH]; intros p; cbn [root_to_leaf]; [constructor|].
  apply Forall_app. split; [apply IH|].
  constructor; [apply digit_range|constructor].
Qed.

Lemma path_digits_text (n : nat) :
  forall p, S2CellId.path_digits n p = digit_text (root_to_leaf n p).
Proof.
  induction n as [|m IH]; intros p.
  - reflexivity.
  - rewrite root_to_leaf_cons. cbn [S2CellId.path_digits].
    rewrite digit_at, IH by lia. reflexivity.
Qed.

Lemma path_digits_length (n : nat) :
  forall p, String.length (S2CellId.path_digits n p) = n.
Proof.
  induction n as [|m IH]; intros p; cbn; [reflexivity|].
  rewrite IH. reflexivity.
Qed.

(** Reading back the digits that [ToString] wrote. *)
Lemma parse_path_digits (n : nat) :
  forall p acc,
    0 <= p -> 0 <= acc -> (acc + 1) * 4 ^ Z.of_nat n <= 2 ^ 58 ->
    S2CellId.parse_path n (S2CellId.path_digits n p) acc
    = Some (acc * 4 ^ Z.of_nat n + p mod 4 ^ Z.of_nat n).
Proof.
  induction n as [|m IH]; intros p acc Hp Hacc Hb.
  - cbn [S2CellId.path_digits S2CellId.parse_path].
    change (Z.of_nat 0) with 0.
    rewrite Z.pow_0_r, Z.mod_1_r. f_equal. lia.
  - rewrite Nat2Z.inj_succ in *. unfold Z.succ in *.
    rewrite pow4_succ in * by lia.
    pose proof (pow4_pos (Z.of_nat m) ltac:(lia)) as H4.
    cbn [S2CellId.path_digits S2CellId.parse_path].
    rewrite digit_at by lia.
    pose proof (digit_range (p / 4 ^ Z.of_nat m)) as Hd.
    rewrite digit_code by exact Hd.
    replace ((48 + _ <? 48) || (48 + _ >? 51)) with false.
    2:{ symmetry. apply orb_false_intro.
        - apply Z.ltb_ge; lia.
        - rewrite Z.gtb_ltb. apply Z.ltb_ge; lia. }
    replace (48 + (p / 4 ^ Z.of_nat m) mod 4 - 48)
      with ((p / 4 ^ Z.of_nat m) mod 4) by lia.
    rewrite append_digit by nia.
    rewrite IH by nia.
    f_equal.
    rewrite (Z.mul_comm 4 (4 ^ Z.of_nat m)).
    rewrite (Z.rem_mul_r p (4 ^ Z.of_nat m) 4) by lia. lia.
Qed.

Lemma substr_from_two (a b : ascii) (rest : string) :
  Str.substr_from (1 + 1) (String a (String b rest)) = rest.
Proof.
  unfold Str.substr_from. cbn [String.length Nat.add Nat.sub].
  rewrite Nat.sub_0_r. cbn [substring]. apply substring_all.
Qed.

(** [FromString] on a face digit alone. *)
Lemma FromString_face (f : Z) :
  0 <= f <= 5 ->
  S2CellId.FromString (String (S2CellId.digit_char f) EmptyString)
  = S2CellId.FromFaceLevel f 0.
Proof.
  intros Hf.
  assert (C : f = 0 \/ f = 1 \/ f = 2 \/ f = 3 \/ f = 4 \/ f = 5) by lia.
  destruct C as [->|[->|[->|[->|[->| ->]]]]]; reflexivity.
Qed.

(** [FromString] on a face digit, a slash and more text. *)
Lemma FromString_path (f : Z) (rest : string) :
  0 <= f <= 5 ->
  S2CellId.FromString (String (S2CellId.digit_char f) (String "/" rest))
  = let level := U64.to_int (Z.of_nat (String.length rest)) in
    if level =? 0 then S2CellId.FromFaceLevel f 0
    else if level >? S2CellId.kMaxLevel then S2CellId.None
    else match S2CellId.parse_path (Z.to_nat level) rest 0 with
         | Datatypes.None => S2CellId.None
         | Some path => S2CellId.pack f path level
         end.
Proof.
  intros Hf.
  assert (C : f = 0 \/ f = 1 \/ f = 2 \/ f = 3 \/ f = 4 \/ f = 5) by lia.
  unfold S2CellId.FromString.
  destruct C as [->|[->|[->|[->|[->| ->]]]]];
    cbv beta iota zeta;
    match goal with
    | |- context [Str.find "/"%char (String ?c (String "/"%char rest))] =>
        change (Str.find "/"%char (String c (String "/"%char rest)))
          with (Some 1%nat);
        cbv beta iota;
        change (Str.substr_to 1 (String c (String "/"%char rest)))
          with (String c EmptyString)
    end;
    match goal with
    | |- context [Str.stoi ?s] =>
        let v := eval vm_compute in (Str.stoi s) in
        change (Str.stoi s) with v
    end;
    cbv beta iota;
    rewrite substr_from_two;
    reflexivity.
Qed.

Lemma face_root_enc (f : Z) :
  0 <= f <= 5 -> S2CellId.FromFaceLevel f 0 = enc 0 f.
Proof.
  intros Hf.
  assert (C : f = 0 \/ f = 1 \/ f = 2 \/ f = 3 \/ f = 4 \/ f = 5) by lia.
  destruct C as [->|[->|[->|[->|[->| ->]]]]]; reflexivity.
Qed.

(** Walking down from a face cell along the digits of a path. *)
Lemma walk_root_to_leaf (n : nat) :
  forall f p,
    0 <= f < 6 -> Z.of_nat n <= 28 -> 0 <= p < 4 ^ Z.of_nat n ->
    fold_left S2CellId.child (root_to_leaf n p) (enc 0 f)
    = enc (Z.of_nat n) (f * 4 ^ Z.of_nat n + p).
Proof.
  induction n as [|m IH]; intros f p Hf Hn Hp.
  - change (Z.of_nat 0) with 0 in *.
    change (4 ^ 0) with 1 in *.
    cbn [root_to_leaf fold_left]. f_equal. lia.
  - rewrite Nat2Z.inj_succ in *. unfold Z.succ in *.
    rewrite pow4_succ in * by lia.
    pose proof (pow4_pos (Z.of_nat m) ltac:(lia)) as H4.
    cbn [root_to_leaf]. rewrite fold_left_app. cbn [fold_left].
    assert (Hq : 0 <= p / 4 < 4 ^ Z.of_nat m)
      by (Z.div_mod_to_equations; lia).
    rewrite IH by lia.
    rewrite child_enc by (try apply digit_range; nia).
    f_equal. pose proof (Z.div_mod p 4 ltac:(lia)). lia.
Qed.

End TextCodec.

Section TextClaims.

Lemma ToString_valid (x l a : Z) :
  S2CellId.is_valid x = true ->
  0 <= l <= 28 -> 0 <= a < 6 * 4 ^ l ->
  S2CellId.level x = l -> S2CellId.face x = a / 4 ^ l ->
  S2CellId.path x = a mod 4 ^ l ->
  S2CellId.ToString x
  = if l =? 0 then String (S2CellId.digit_char (a / 4 ^ l)) EmptyString
    else String (S2CellId.digit_char (a / 4 ^ l))
           (String "/" (S2CellId.path_digits (Z.to_nat l) (a mod 4 ^ l))).
Proof.
  intros Hv Hl Ha EL EF EP.
  destruct (enc_sum l a Hl Ha) as (Hf & _).
  unfold S2CellId.ToString. rewrite Hv, EL, EF, EP. cbn [negb].
  rewrite to_string_face by lia.
  destruct (l =? 0); reflexivity.
Qed.

(** C7, as the code has it.  An invalid identifier renders as "INVALID".
    A valid one renders as its face digit at depth 0, and else as the face
    digit, a slash and one digit '0'..'3' for each level from the root to
    the leaf.  When the identifier is canonical (at depth 0 its path field
    is empty, or it is the marker of the root of face 0), these digits are
    the child positions that lead from the face cell to it, and
    [FromString] gives it back. *)
Theorem string_roundtrip (x : Z) :
  0 <= x < 2 ^ 64 ->
  (S2CellId.is_valid x = false -> S2CellId.ToString x = "INVALID"%string)
  /\ (S2CellId.is_valid x = true ->
      let ds := root_to_leaf (Z.to_nat (S2CellId.level x)) (S2CellId.path x) in
      S2CellId.ToString x = cell_text (S2CellId.face x) ds
      /\ Z.of_nat (List.length ds) = S2CellId.level x
      /\ Forall (fun d => 0 <= d < 4) ds
      /\ (canonical x = true ->
          fold_left S2CellId.child ds
            (S2CellId.FromFaceLevel (S2CellId.face x) 0) = x
          /\ S2CellId.FromString (S2CellId.ToString x) = x)).
Proof.
  intros Hx. split.
  { intros Hv. unfold S2CellId.ToString. rewrite Hv. reflexivity. }
  intros Hv. cbv zeta.
  destruct (valid_view x Hx Hv) as (l & a & Hl & Ha & EL & EF & EP & Hc).
  destruct (enc_sum l a Hl Ha) as (Hf & Hp & Hp56 & Ea).
  pose proof (ToString_valid x l a Hv Hl Ha EL EF EP) as TS.
  rewrite EL, EF, EP.
  split; [|split; [|split]].
  - rewrite TS. destruct (Z.eqb_spec l 0) as [->|Hl0].
    + reflexivity.
    + rewrite path_digits_text.
      destruct (Z.to_nat l) as [|m] eqn:Em; [lia|].
      rewrite root_to_leaf_cons. reflexivity.
  - rewrite root_to_leaf_length. lia.
  - apply root_to_leaf_digits.
  - intros Hcan. specialize (Hc Hcan).
    split.
    + rewrite face_root_enc by lia.
      rewrite walk_root_to_leaf by (rewrite ?Z2Nat.id; lia).
      rewrite Z2Nat.id, <- Ea by lia. symmetry; exact Hc.
    + rewrite TS. destruct (Z.eqb_spec l 0) as [L0|Hl0].
      * rewrite FromString_face, face_root_enc by lia.
        rewrite Hc, L0, Z.pow_0_r, Z.div_1_r. reflexivity.
      * rewrite FromString_path by lia. cbv zeta.
        rewrite path_digits_length.
        rewrite to_int_small, Z2Nat.id by lia.
        replace (l =? 0) with false by (symmetry; apply Z.eqb_neq; lia).
        change S2CellId.kMaxLevel with 28.
        replace (l >? 28) with false
          by (symmetry; rewrite Z.gtb_ltb; apply Z.ltb_ge; lia).
        pose proof (pow4_le_56 l Hl).
        rewrite parse_path_digits
          by (rewrite ?Z2Nat.id by lia; try apply Z.mod_pos_bound; lia).
        rewrite Z2Nat.id by lia.
        rewrite Z.mul_0_l, Z.add_0_l, Z.mod_mod by lia.
        rewrite pack_sum by lia.
        rewrite Hc, enc_unfold by lia. reflexivity.
Qed.

Lemma string_roundtrip_witness :
  S2CellId.FromString (S2CellId.ToString (S2CellId.FromString "4/1302"%string))
  = S2CellId.FromString "4/1302"%string.
Proof.
  destruct (string_roundtrip (S2CellId.FromString "4/1302"%string)) as (_ & H).
  - word_range.
  - destruct (H eq_refl) as (_ & _ & _ & R).
    destruct (R eq_refl) as (_ & E). exact E.
Defined.

(** C7, against the claim as written: the word with face 1, depth 0 and a
    1 in its path field passes [is_valid], renders as "1", and "1" reads
    back as the face cell without that bit. *)
Lemma string_roundtrip_counterexample :
  let x := 2 ^ 61 + 32 in
  S2CellId.is_valid x = true
  /\ S2CellId.ToString x = "1"%string
  /\ S2CellId.FromString (S2CellId.ToString x) = 2 ^ 61
  /\ S2CellId.FromString (S2CellId.ToString x) <> x.
Proof.
  vm_compute. repeat split; try reflexivity. discriminate.
Qed.

End TextClaims.

(* ================================================================== *)
(** * More of the curve-position identifier: traversal *)
(* ================================================================== *)

Section CurveTraversal.

(** The marker bit of depth [l] times the number of cells of that depth on
    a face is the span of a face. *)
Lemma marker_span (l : Z) :
  0 <= l <= 30 -> 2 ^ (2 * (30 - l)) * 4 ^ l = 2 ^ 60.
Proof.
  intros Hl. rewrite <- pow4, <- Z.pow_add_r by lia. f_equal. lia.
Qed.

Lemma cell_bound (l a : Z) :
  0 <= l <= 30 -> 0 <= a < 8 * 4 ^ l -> 0 < cell l a < 2 ^ 64.
Proof. intros Hl Ha. apply cell_range; rewrite ?pow4; lia. Qed.

Lemma lsb_cell4 (l a : Z) :
  0 <= l <= 30 -> 0 <= a < 8 * 4 ^ l ->
  s2v1.lsb (cell l a) = 2 ^ (2 * (30 - l)).
Proof. intros Hl Ha. apply lsb_cell; rewrite ?pow4; lia. Qed.

Lemma valid_cell4 (x : Z) :
  0 <= x < 2 ^ 64 -> s2v1.is_valid x = true ->
  exists l a, 0 <= l <= 30 /\ 0 <= a < 6 * 4 ^ l /\ x = cell l a.
Proof.
  intros Hx Hv. destruct (valid_is_cell x Hx Hv) as (l & a & Hl & Ha & E).
  exists l, a. rewrite <- pow4 by lia. auto.
Qed.

Lemma is_valid_cell4 (l a : Z) :
  0 <= l <= 30 -> 0 <= a < 6 * 4 ^ l -> s2v1.is_valid (cell l a) = true.
Proof. intros Hl Ha. apply is_valid_cell; rewrite ?pow4; lia. Qed.

Lemma face_cell4 (l a : Z) :
  0 <= l <= 30 -> 0 <= a < 8 * 4 ^ l -> s2v1.face (cell l a) = a / 4 ^ l.
Proof.
  intros Hl Ha. rewrite face_cell by (rewrite ?pow4; lia).
  rewrite pow4 by lia. reflexivity.
Qed.

(** A cell whose index is at or past the end of the last face is not
    valid. *)
Lemma invalid_cell_past_end (l a : Z) :
  0 <= l <= 30 -> 6 * 4 ^ l <= a < 8 * 4 ^ l ->
  s2v1.is_valid (cell l a) = false.
Proof.
  intros Hl Ha. unfold s2v1.is_valid.
  pose proof (pow4_pos l ltac:(lia)) as H4.
  rewrite face_cell4 by lia.
  replace (a / 4 ^ l <? s2v1.kNumFaces) with false; [reflexivity|].
  symmetry. apply Z.ltb_ge. change s2v1.kNumFaces with 6.
  apply Z.div_le_lower_bound; lia.
Qed.

Lemma double_lsb (l : Z) :
  0 <= l <= 30 ->
  U64.shl (2 ^ (2 * (30 - l))) 1 = 2 * 2 ^ (2 * (30 - l)).
Proof.
  intros Hl. unfold U64.shl. rewrite Z.shiftl_mul_pow2 by lia.
  pose proof (pow2_pos (2 * (30 - l)) ltac:(lia)).
  pose proof (pow2_le (2 * (30 - l)) 60 ltac:(lia)).
  rewrite wrap_small by lia. lia.
Qed.

Lemma next_cell (l a : Z) :
  0 <= l <= 30 -> 0 <= a -> a + 1 < 8 * 4 ^ l ->
  s2v1.next (cell l a) = cell l (a + 1).
Proof.
  intros Hl Ha Hb. unfold s2v1.next.
  rewrite lsb_cell4, double_lsb by lia.
  pose proof (cell_bound l (a + 1) Hl ltac:(lia)) as Hr.
  unfold U64.add. rewrite !cell_unfold in *.
  replace ((2 * a + 1) * 2 ^ (2 * (30 - l)) + 2 * 2 ^ (2 * (30 - l)))
    with ((2 * (a + 1) + 1) * 2 ^ (2 * (30 - l))) by lia.
  apply wrap_small; lia.
Qed.

Lemma prev_cell (l a : Z) :
  0 <= l <= 30 -> 1 <= a < 8 * 4 ^ l ->
  s2v1.prev (cell l a) = cell l (a - 1).
Proof.
  intros Hl Ha. unfold s2v1.prev.
  rewrite lsb_cell4, double_lsb by lia.
  pose proof (cell_bound l (a - 1) Hl ltac:(lia)) as Hr.
  unfold U64.sub. rewrite !cell_unfold in *.
  replace ((2 * a + 1) * 2 ^ (2 * (30 - l)) - 2 * 2 ^ (2 * (30 - l)))
    with ((2 * (a - 1) + 1) * 2 ^ (2 * (30 - l))) by lia.
  apply wrap_small; lia.
Qed.

(** Before the first cell of a depth, [prev] wraps to the top of the
    64-bit range: to the last index that fits the word. *)
Lemma prev_cell_first (l : Z) :
  0 <= l <= 30 -> s2v1.prev (cell l 0) = cell l (8 * 4 ^ l - 1).
Proof.
  intros Hl. unfold s2v1.prev.
  pose proof (pow4_pos l ltac:(lia)) as H4.
  rewrite lsb_cell4, double_lsb by lia.
  pose proof (cell_bound l (8 * 4 ^ l - 1) Hl ltac:(lia)) as Hr.
  pose proof (marker_span l Hl) as Hs.
  unfold U64.sub, U64.wrap, U64.modulus. rewrite !cell_unfold in *.
  symmetry. apply Z.mod_unique with (-1); [lia|].
  replace (2 ^ 64) with (16 * 2 ^ 60) by reflexivity. rewrite <- Hs. lia.
Qed.

Lemma child_begin_at_cell (l a k : Z) :
  0 <= l <= k -> k <= 30 -> 0 <= a < 8 * 4 ^ l ->
  s2v1.child_begin_at (cell l a) k = cell k (a * 4 ^ (k - l)).
Proof.
  intros Hl Hk Ha. unfold s2v1.child_begin_at.
  rewrite lsb_cell4, lsb_for_level_eq by lia.
  pose proof (pow4_pos (k - l) ltac:(lia)) as H4.
  pose proof (pow2_pos (2 * (30 - k)) ltac:(lia)) as HQ.
  assert (EP : 2 ^ (2 * (30 - l)) = 2 ^ (2 * (30 - k)) * 4 ^ (k - l)).
  { rewrite <- pow4, <- Z.pow_add_r by lia. f_equal. lia. }
  assert (E4 : 4 ^ k = 4 ^ l * 4 ^ (k - l)).
  { rewrite <- Z.pow_add_r by lia. f_equal. lia. }
  pose proof (cell_bound l a ltac:(lia) Ha) as Hx.
  pose proof (cell_bound k (a * 4 ^ (k - l)) ltac:(lia) ltac:(nia)) as Hr.
  unfold U64.add, U64.sub. rewrite !cell_unfold in *. rewrite EP in *.
  rewrite (wrap_small (_ - _)) by nia.
  rewrite wrap_small by nia. lia.
Qed.

Lemma child_end_at_cell (l a k : Z) :
  0 <= l <= k -> k <= 30 -> 0 <= a -> a + 1 < 8 * 4 ^ l ->
  s2v1.child_end_at (cell l a) k = cell k ((a + 1) * 4 ^ (k - l)).
Proof.
  intros Hl Hk Ha Hb. unfold s2v1.child_end_at.
  rewrite lsb_cell4, lsb_for_level_eq by lia.
  pose proof (pow4_pos (k - l) ltac:(lia)) as H4.
  pose proof (pow2_pos (2 * (30 - k)) ltac:(lia)) as HQ.
  assert (EP : 2 ^ (2 * (30 - l)) = 2 ^ (2 * (30 - k)) * 4 ^ (k - l)).
  { rewrite <- pow4, <- Z.pow_add_r by lia. f_equal. lia. }
  assert (E4 : 4 ^ k = 4 ^ l * 4 ^ (k - l)).
  { rewrite <- Z.pow_add_r by lia. f_equal. lia. }
  pose proof (cell_bound l (a + 1) ltac:(lia) ltac:(lia)) as Hx.
  pose proof (cell_bound k ((a + 1) * 4 ^ (k - l)) ltac:(lia) ltac:(nia)) as Hr.
  unfold U64.add. rewrite !cell_unfold in *. rewrite EP in *.
  rewrite (wrap_small (_ + _ * 4 ^ (k - l))) by nia.
  rewrite wrap_small by nia. lia.
Qed.

Lemma child_begin_cell (l a : Z) :
  0 <= l < 30 -> 0 <= a < 8 * 4 ^ l ->
  s2v1.child_begin (cell l a) = cell (l + 1) (4 * a).
Proof.
  intros Hl Ha.
  assert (E : s2v1.child_begin (cell l a)
              = s2v1.child_begin_at (cell l a) (l + 1)).
  { unfold s2v1.child_begin, s2v1.child_begin_at.
    rewrite lsb_cell4, lsb_for_level_eq by lia. f_equal.
    unfold U64.shr. rewrite Z.shiftr_div_pow2 by lia.
    replace (2 * (30 - l)) with (2 * (30 - (l + 1)) + 2) by lia.
    rewrite Z.pow_add_r, Z.div_mul by lia. reflexivity. }
  rewrite E, child_begin_at_cell by lia.
  f_equal. replace (l + 1 - l) with 1 by lia. lia.
Qed.

Lemma child_end_cell (l a : Z) :
  0 <= l < 30 -> 0 <= a -> a + 1 < 8 * 4 ^ l ->
  s2v1.child_end (cell l a) = cell (l + 1) (4 * a + 4).
Proof.
  intros Hl Ha Hb.
  assert (E : s2v1.child_end (cell l a)
              = s2v1.child_end_at (cell l a) (l + 1)).
  { unfold s2v1.child_end, s2v1.child_end_at.
    rewrite lsb_cell4, lsb_for_level_eq by lia. f_equal.
    unfold U64.shr. rewrite Z.shiftr_div_pow2 by lia.
    replace (2 * (30 - l)) with (2 * (30 - (l + 1)) + 2) by lia.
    rewrite Z.pow_add_r, Z.div_mul by lia. reflexivity. }
  rewrite E, child_end_at_cell by lia.
  f_equal. replace (l + 1 - l) with 1 by lia. lia.
Qed.

Lemma Begin_cell (l : Z) : 0 <= l <= 30 -> s2v1.Begin l = cell l 0.
Proof.
  intros Hl. unfold s2v1.Begin.
  rewrite FromFace_cell, child_begin_at_cell by (rewrite ?Z.pow_0_r; lia).
  reflexivity.
Qed.

Lemma End_cell (l : Z) : 0 <= l <= 30 -> s2v1.End l = cell l (6 * 4 ^ l).
Proof.
  intros Hl. unfold s2v1.End.
  rewrite FromFace_cell, child_end_at_cell by (rewrite ?Z.pow_0_r; lia).
  f_equal. rewrite Z.sub_0_r. lia.
Qed.

Lemma is_leaf_cell (l a : Z) :
  0 <= l <= 30 -> 0 <= a -> s2v1.is_leaf (cell l a) = (l =? 30).
Proof.
  intros Hl Ha. unfold s2v1.is_leaf. rewrite cell_unfold.
  change 1 with (Z.ones 1) at 2. rewrite Z.land_ones by lia.
  change (2 ^ 1) with 2.
  destruct (Z.eqb_spec l 30) as [->|Hne].
  - change (2 ^ (2 * (30 - 30))) with 1. rewrite Z.mul_1_r.
    replace ((2 * a + 1) mod 2) with 1 by (Z.div_mod_to_equations; lia).
    reflexivity.
  - replace (2 * (30 - l)) with (1 + (2 * (30 - l) - 1)) by lia.
    rewrite Z.pow_add_r, Z.pow_1_r by lia.
    replace ((2 * a + 1) * (2 * 2 ^ (2 * (30 - l) - 1)))
      with ((2 * a + 1) * 2 ^ (2 * (30 - l) - 1) * 2) by lia.
    rewrite Z.mod_mul by lia. reflexivity.
Qed.

(** A cell below the leaves meets the assertions of [child_begin()] and
    [child_end()]. *)
Lemma child_begin_pre_cell (l a : Z) :
  0 <= l < 30 -> 0 <= a < 6 * 4 ^ l ->
  s2v1.child_begin_pre (cell l a) = true.
Proof.
  intros Hl Ha. unfold s2v1.child_begin_pre.
  rewrite is_valid_cell4, is_leaf_cell by lia.
  replace (l =? 30) with false by (symmetry; apply Z.eqb_neq; lia).
  reflexivity.
Qed.

Lemma cell_lt (l a b : Z) :
  0 <= l <= 30 -> (cell l a < cell l b <-> a < b).
Proof.
  intros Hl. rewrite !cell_unfold.
  pose proof (pow2_pos (2 * (30 - l)) ltac:(lia)). split; nia.
Qed.

End CurveTraversal.

Section CurveTraversalProperties.

(** X1.  For a valid curve-position identifier below a face cell, the
    parent is a valid cell one level up on the same face, the child
    position is in 0..3, and the parent's child at that position is the
    identifier itself. *)
Theorem parent_child_position_roundtrip (x : Z) :
  0 <= x < 2 ^ 64 ->
  s2v1.is_valid x = true ->
  s2v1.level x > 0 ->
  0 <= s2v1.child_position x < 4
  /\ s2v1.child (s2v1.parent x) (s2v1.child_position x) = x
  /\ s2v1.is_valid (s2v1.parent x) = true
  /\ s2v1.level (s2v1.parent x) = s2v1.level x - 1
  /\ s2v1.face (s2v1.parent x) = s2v1.face x.
Proof.
  intros Hx Hv Hlev.
  destruct (valid_cell4 x Hx Hv) as (l & a & Hl & Ha & ->).
  rewrite level_cell in * by lia.
  pose proof (quarter_bound l a ltac:(lia) Ha) as Hq.
  pose proof (pow4_pos (l - 1) ltac:(lia)) as H4.
  assert (E4 : 4 ^ l = 4 * 4 ^ (l - 1)).
  { rewrite <- pow4_succ by lia. f_equal. lia. }
  rewrite child_position_cell, parent_cell by (rewrite ?pow4; lia).
  split; [apply digit_range|].
  split.
  { rewrite child_cell by (rewrite ?pow4; try apply digit_range; lia).
    replace (l - 1 + 1) with l by lia. f_equal.
    pose proof (Z.div_mod a 4 ltac:(lia)). lia. }
  split; [apply is_valid_cell4; lia|].
  split; [apply level_cell; lia|].
  rewrite !face_cell4 by lia.
  rewrite Z.div_div, E4 by lia. reflexivity.
Qed.

Lemma parent_child_position_roundtrip_witness :
  let x := s2v1.FromFacePosLevel 4 12345678901234567 17 in
  s2v1.child (s2v1.parent x) (s2v1.child_position x) = x.
Proof.
  cbv zeta.
  destruct (parent_child_position_roundtrip
              (s2v1.FromFacePosLevel 4 12345678901234567 17))
    as (_ & E & _).
  - word_range.
  - reflexivity.
  - reflexivity.
  - exact E.
Defined.

(** X2.  On a valid curve-position identifier, [next] and [prev] undo each
    other and keep the depth; [next] gives a greater identifier, which is
    valid unless it is [End] of that depth, and [prev] gives a valid
    identifier unless the start was [Begin] of that depth. *)
Theorem next_prev_inverse (x : Z) :
  0 <= x < 2 ^ 64 ->
  s2v1.is_valid x = true ->
  s2v1.prev (s2v1.next x) = x
  /\ s2v1.next (s2v1.prev x) = x
  /\ s2v1.level (s2v1.next x) = s2v1.level x
  /\ s2v1.level (s2v1.prev x) = s2v1.level x
  /\ x < s2v1.next x
  /\ (s2v1.is_valid (s2v1.next x) = true
      \/ s2v1.next x = s2v1.End (s2v1.level x))
  /\ (s2v1.is_valid (s2v1.prev x) = true
      \/ x = s2v1.Begin (s2v1.level x)).
Proof.
  intros Hx Hv.
  destruct (valid_cell4 x Hx Hv) as (l & a & Hl & Ha & ->).
  pose proof (pow4_pos l ltac:(lia)) as H4.
  rewrite level_cell by lia.
  rewrite next_cell by lia.
  rewrite prev_cell by lia.
  replace (a + 1 - 1) with a by lia.
  split; [reflexivity|].
  assert (Hprev : s2v1.next (s2v1.prev (cell l a)) = cell l a
                  /\ s2v1.level (s2v1.prev (cell l a)) = l
                  /\ (s2v1.is_valid (s2v1.prev (cell l a)) = true
                      \/ cell l a = s2v1.Begin l)).
  { destruct (Z.eq_dec a 0) as [->|Ha0].
    - rewrite prev_cell_first by lia.
      split; [|split].
      + unfold s2v1.next.
        rewrite lsb_cell4, double_lsb by lia.
        pose proof (marker_span l Hl) as Hs.
        unfold U64.add, U64.wrap, U64.modulus. rewrite !cell_unfold.
        symmetry. apply Z.mod_unique with 1;
          [pose proof (cell_bound l 0 Hl ltac:(lia)) as Hb;
           rewrite cell_unfold in Hb; lia|].
        replace (2 ^ 64) with (16 * 2 ^ 60) by reflexivity.
        rewrite <- Hs. lia.
      + apply level_cell; lia.
      + right. rewrite Begin_cell by lia. reflexivity.
    - rewrite prev_cell by lia.
      split; [|split].
      + rewrite next_cell by lia. f_equal. lia.
      + apply level_cell; lia.
      + left. apply is_valid_cell4; lia. }
  destruct Hprev as (E1 & E2 & E3).
  split; [exact E1|].
  split; [apply level_cell; lia|].
  split; [exact E2|].
  split; [apply cell_lt; lia|].
  split; [|exact E3].
  destruct (Z_lt_dec (a + 1) (6 * 4 ^ l)).
  - left. apply is_valid_cell4; lia.
  - right. rewrite End_cell by lia. f_equal. lia.
Qed.

Lemma next_prev_inverse_witness :
  s2v1.prev (s2v1.next (s2v1.FromFace 5)) = s2v1.FromFace 5
  /\ s2v1.next (s2v1.FromFace 5) = s2v1.End 0.
Proof.
  destruct (next_prev_inverse (s2v1.FromFace 5)) as (E & _ & _ & _ & _ & D & _).
  - word_range.
  - reflexivity.
  - split; [exact E|]. destruct D as [D|D]; [discriminate D|exact D].
Defined.

(** X3.  The children of a valid identifier that is not a leaf are met in
    order by the iteration from [child_begin] with [next] up to
    [child_end]: the identifier meets the assertions of both, [child_begin]
    is child 0, [next] leads from each child to the following one, and
    from child 3 to [child_end], which is not child 0.  When [next] of the
    identifier is valid, it meets the assertions of [child_begin] too and
    [child_end] is its [child_begin]; otherwise the identifier is the last
    cell of its level, [next] is [End] of the level and [child_end] is
    [End] of the next level. *)
Theorem children_iteration (x : Z) :
  0 <= x < 2 ^ 64 ->
  s2v1.is_valid x = true ->
  s2v1.level x < s2v1.kMaxLevel ->
  s2v1.child_begin_pre x = true
  /\ s2v1.child_begin x = s2v1.child x 0
  /\ s2v1.next (s2v1.child x 0) = s2v1.child x 1
  /\ s2v1.next (s2v1.child x 1) = s2v1.child x 2
  /\ s2v1.next (s2v1.child x 2) = s2v1.child x 3
  /\ s2v1.next (s2v1.child x 3) = s2v1.child_end x
  /\ s2v1.child_end x <> s2v1.child x 0
  /\ (s2v1.is_valid (s2v1.next x) = true ->
      s2v1.child_begin_pre (s2v1.next x) = true
      /\ s2v1.child_end x = s2v1.child_begin (s2v1.next x))
  /\ (s2v1.is_valid (s2v1.next x) = false ->
      s2v1.next x = s2v1.End (s2v1.level x)
      /\ s2v1.child_end x = s2v1.End (s2v1.level x + 1)).
Proof.
  intros Hx Hv Hlev.
  destruct (valid_cell4 x Hx Hv) as (l & a & Hl & Ha & ->).
  rewrite level_cell in * by lia. change s2v1.kMaxLevel with 30 in Hlev.
  pose proof (pow4_pos l ltac:(lia)) as H4.
  pose proof (pow4_succ l ltac:(lia)) as E4.
  split; [apply child_begin_pre_cell; lia|].
  rewrite !child_cell, child_begin_cell, child_end_cell, next_cell
    by (rewrite ?pow4; lia).
  rewrite !next_cell by lia.
  split; [f_equal; lia|].
  split; [f_equal; lia|].
  split; [f_equal; lia|].
  split; [f_equal; lia|].
  split; [f_equal; lia|].
  split; [intros E; apply cell_inj in E; lia|].
  destruct (Z_lt_dec (a + 1) (6 * 4 ^ l)) as [Hin|Hlast].
  - split.
    + intros _. split; [apply child_begin_pre_cell; lia|].
      rewrite child_begin_cell by lia. f_equal. lia.
    + rewrite is_valid_cell4 by lia. discriminate.
  - split.
    + rewrite invalid_cell_past_end by lia. discriminate.
    + intros _. rewrite !End_cell by lia.
      split; f_equal; lia.
Qed.

Lemma children_iteration_witness :
  s2v1.next (s2v1.child (s2v1.FromFace 2) 3) = s2v1.child_end (s2v1.FromFace 2).
Proof.
  destruct (children_iteration (s2v1.FromFace 2))
    as (_ & _ & _ & _ & _ & E & _).
  - word_range.
  - reflexivity.
  - reflexivity.
  - exact E.
Defined.

(** X4.  For a depth [l] in 0..30, [Begin l] is the valid first cell of
    face 0 at that depth, [End l] is not a valid identifier, the two are
    [6 * 4^l] steps of [2 * lsb] apart, and every valid identifier of
    depth [l] lies in the half-open range from [Begin l] to [End l]. *)
Theorem begin_end_bounds (l : Z) :
  0 <= l <= 30 ->
  s2v1.is_valid (s2v1.Begin l) = true
  /\ s2v1.level (s2v1.Begin l) = l
  /\ s2v1.face (s2v1.Begin l) = 0
  /\ s2v1.is_valid (s2v1.End l) = false
  /\ s2v1.level (s2v1.End l) = l
  /\ s2v1.End l = s2v1.Begin l + 6 * 4 ^ l * (2 * s2v1.lsb_for_level l)
  /\ (forall x, 0 <= x < 2 ^ 64 -> s2v1.is_valid x = true ->
        s2v1.level x = l -> s2v1.Begin l <= x < s2v1.End l).
Proof.
  intros Hl. pose proof (pow4_pos l ltac:(lia)) as H4.
  rewrite Begin_cell, End_cell, lsb_for_level_eq by lia.
  split; [apply is_valid_cell4; lia|].
  split; [apply level_cell; lia|].
  split; [rewrite face_cell4 by lia; apply Z.div_0_l; lia|].
  split; [apply invalid_cell_past_end; lia|].
  split; [apply level_cell; lia|].
  split; [rewrite !cell_unfold; lia|].
  intros x Hx Hv Hlev.
  destruct (valid_cell4 x Hx Hv) as (l' & a & Hl' & Ha & ->).
  rewrite level_cell in Hlev by lia. subst l'.
  split.
  - destruct (Z.eq_dec a 0) as [->|]; [lia|].
    apply Z.lt_le_incl, cell_lt; lia.
  - apply cell_lt; lia.
Qed.

Lemma begin_end_bounds_witness :
  s2v1.is_valid (s2v1.Begin 12) = true /\ s2v1.is_valid (s2v1.End 12) = false.
Proof.
  destruct (begin_end_bounds 12) as (A & _ & _ & B & _).
  - lia.
  - split; [exact A|exact B].
Defined.

End CurveTraversalProperties.

(* ================================================================== *)
(** * More of the curve-position identifier: containment *)
(* ================================================================== *)

Section CurveContainment.

Lemma interval_inside (a b Q K : Z) :
  0 < Q -> 0 < K -> 0 <= a -> 0 <= b ->
  ((2 * a + 1) * (Q * K) - (Q * K - 1) <= (2 * b + 1) * Q
   /\ (2 * b + 1) * Q <= (2 * a + 1) * (Q * K) + (Q * K - 1))
  <-> a * K <= b < (a + 1) * K.
Proof.
  intros HQ HK Ha Hb. split.
  - intros [H1 H2]. split.
    + assert (2 * a * K * Q < (2 * b + 1) * Q) by lia.
      assert (2 * a * K < 2 * b + 1)
        by (apply Z.mul_lt_mono_pos_r with Q; lia).
      lia.
    + assert ((2 * b + 1) * Q < (2 * (a + 1) * K) * Q) by lia.
      assert (2 * b + 1 < 2 * (a + 1) * K)
        by (apply Z.mul_lt_mono_pos_r with Q; lia).
      lia.
  - intros [H1 H2]. split.
    + assert ((2 * a * K + 1) * Q <= (2 * b + 1) * Q)
        by (apply Z.mul_le_mono_nonneg_r; lia).
      nia.
    + assert ((2 * b + 1) * Q <= (2 * (a + 1) * K - 1) * Q)
        by (apply Z.mul_le_mono_nonneg_r; lia).
      nia.
Qed.

Lemma interval_overlap (a b Q K : Z) :
  0 < Q -> 0 < K -> 0 <= a -> 0 <= b ->
  ((2 * b + 1) * Q - (Q - 1) <= (2 * a + 1) * (Q * K) + (Q * K - 1)
   /\ (2 * a + 1) * (Q * K) - (Q * K - 1) <= (2 * b + 1) * Q + (Q - 1))
  <-> a * K <= b < (a + 1) * K.
Proof.
  intros HQ HK Ha Hb. split.
  - intros [H1 H2]. split.
    + assert (a * K * Q < (b + 1) * Q) by lia.
      assert (a * K < b + 1) by (apply Z.mul_lt_mono_pos_r with Q; lia).
      lia.
    + assert (b * Q < ((a + 1) * K) * Q) by lia.
      assert (b < (a + 1) * K) by (apply Z.mul_lt_mono_pos_r with Q; lia).
      lia.
  - intros [H1 H2]. split.
    + assert ((b + 1) * Q <= ((a + 1) * K) * Q)
        by (apply Z.mul_le_mono_nonneg_r; lia).
      nia.
    + assert ((a * K) * Q <= b * Q) by (apply Z.mul_le_mono_nonneg_r; lia).
      nia.
Qed.

Lemma interval_not_inside (a b P K : Z) :
  0 < P -> 0 < K -> 0 <= a -> 0 <= b ->
  ~ ((2 * a + 1) * P - (P - 1) <= (2 * b + 1) * (P * (4 * K))
     /\ (2 * b + 1) * (P * (4 * K)) <= (2 * a + 1) * P + (P - 1)).
Proof.
  intros HP HK Ha Hb [H1 H2].
  assert (2 * a * P < ((2 * b + 1) * 4 * K) * P) by lia.
  assert (2 * a < (2 * b + 1) * 4 * K)
    by (apply Z.mul_lt_mono_pos_r with P; lia).
  assert (((2 * b + 1) * 4 * K) * P < (2 * a + 2) * P) by lia.
  assert ((2 * b + 1) * 4 * K < 2 * a + 2)
    by (apply Z.mul_lt_mono_pos_r with P; lia).
  lia.
Qed.

Lemma quotient_is (a b K : Z) :
  0 < K -> (b / K = a <-> a * K <= b < (a + 1) * K).
Proof.
  intros HK. split.
  - intros <-. pose proof (Z.div_mod b K ltac:(lia)).
    pose proof (Z.mod_pos_bound b K HK). nia.
  - intros H. symmetry. apply Z.div_unique with (b - a * K); lia.
Qed.

Lemma marker_ratio (l m : Z) :
  0 <= l <= m -> m <= 30 ->
  2 ^ (2 * (30 - l)) = 2 ^ (2 * (30 - m)) * 4 ^ (m - l).
Proof.
  intros Hl Hm. rewrite <- pow4, <- Z.pow_add_r by lia. f_equal. lia.
Qed.

Lemma contains_bounds (x y : Z) :
  s2v1.contains x y = true <->
  s2v1.range_min x <= y /\ y <= s2v1.range_max x.
Proof.
  unfold s2v1.contains, s2v1.ge, s2v1.le.
  rewrite andb_true_iff, Z.geb_leb, !Z.leb_le. reflexivity.
Qed.

Lemma contains_cell_deep (l a m b : Z) :
  0 <= l <= m -> m <= 30 -> 0 <= a < 6 * 4 ^ l -> 0 <= b < 6 * 4 ^ m ->
  s2v1.contains (cell l a) (cell m b) = true
  <-> a * 4 ^ (m - l) <= b < (a + 1) * 4 ^ (m - l).
Proof.
  intros Hl Hm Ha Hb. rewrite contains_bounds.
  rewrite range_min_cell, range_max_cell by (rewrite ?pow4; lia).
  rewrite !cell_unfold, (marker_ratio l m) by lia.
  apply interval_inside; try lia;
    first [apply pow2_pos; lia | apply pow4_pos; lia].
Qed.

Lemma contains_cell_shallow (l a m b : Z) :
  0 <= m < l -> l <= 30 -> 0 <= a < 6 * 4 ^ l -> 0 <= b < 6 * 4 ^ m ->
  s2v1.contains (cell l a) (cell m b) = false.
Proof.
  intros Hm Hl Ha Hb.
  destruct (s2v1.contains (cell l a) (cell m b)) eqn:E; [exfalso|reflexivity].
  apply contains_bounds in E.
  rewrite range_min_cell, range_max_cell in E by (rewrite ?pow4; lia).
  rewrite !cell_unfold, (marker_ratio m l) in E by lia.
  replace (l - m) with (l - m - 1 + 1) in E by lia.
  rewrite pow4_succ in E by lia.
  revert E. apply interval_not_inside; try lia;
    first [apply pow2_pos; lia | apply pow4_pos; lia].
Qed.

Lemma intersects_bounds (x y : Z) :
  s2v1.intersects x y = true <->
  s2v1.range_min y <= s2v1.range_max x /\ s2v1.range_min x <= s2v1.range_max y.
Proof.
  unfold s2v1.intersects, s2v1.ge, s2v1.le.
  rewrite andb_true_iff, Z.geb_leb, !Z.leb_le. reflexivity.
Qed.

Lemma intersects_cell_deep (l a m b : Z) :
  0 <= l <= m -> m <= 30 -> 0 <= a < 6 * 4 ^ l -> 0 <= b < 6 * 4 ^ m ->
  s2v1.intersects (cell l a) (cell m b) = true
  <-> a * 4 ^ (m - l) <= b < (a + 1) * 4 ^ (m - l).
Proof.
  intros Hl Hm Ha Hb. rewrite intersects_bounds.
  rewrite !range_min_cell, !range_max_cell by (rewrite ?pow4; lia).
  rewrite !cell_unfold, (marker_ratio l m) by lia.
  apply interval_overlap; try lia;
    first [apply pow2_pos; lia | apply pow4_pos; lia].
Qed.

Lemma parent_at_cell4 (l a k : Z) :
  0 <= k <= l -> l <= 30 -> 0 <= a < 8 * 4 ^ l ->
  s2v1.parent_at (cell l a) k = cell k (a / 4 ^ (l - k)).
Proof.
  intros Hk Hl Ha. rewrite parent_at_cell by (rewrite ?pow4; lia).
  rewrite pow4 by lia. reflexivity.
Qed.

Lemma ancestor_index_bound (l a k : Z) :
  0 <= k <= l -> 0 <= a < 6 * 4 ^ l -> 0 <= a / 4 ^ (l - k) < 6 * 4 ^ k.
Proof. intros Hk Ha. apply ancestor_bound; lia. Qed.

(** X5.  For valid curve-position identifiers, [x.contains(y)] holds
    exactly when [y] is at least as deep as [x] and the ancestor of [y] at
    the depth of [x] is [x]. *)
Theorem contains_iff_ancestor (x y : Z) :
  0 <= x < 2 ^ 64 -> 0 <= y < 2 ^ 64 ->
  s2v1.is_valid x = true -> s2v1.is_valid y = true ->
  (s2v1.contains x y = true
   <-> s2v1.level x <= s2v1.level y
       /\ s2v1.parent_at y (s2v1.level x) = x).
Proof.
  intros Hx Hy Hvx Hvy.
  destruct (valid_cell4 x Hx Hvx) as (l & a & Hl & Ha & ->).
  destruct (valid_cell4 y Hy Hvy) as (m & b & Hm & Hb & ->).
  rewrite !level_cell by lia.
  destruct (Z_le_dec l m) as [Hle|Hgt].
  - rewrite contains_cell_deep by lia.
    rewrite parent_at_cell4 by lia.
    pose proof (pow4_pos (m - l) ltac:(lia)) as H4.
    pose proof (ancestor_index_bound m b l ltac:(lia) Hb).
    rewrite <- quotient_is by lia.
    split.
    + intros E. split; [lia|]. rewrite E. reflexivity.
    + intros [_ E]. apply cell_inj in E; lia.
  - rewrite contains_cell_shallow by lia.
    split; [discriminate|lia].
Qed.

Lemma contains_iff_ancestor_witness :
  s2v1.contains (s2v1.FromFace 3) (s2v1.FromFacePosLevel 3 987654321 20) = true.
Proof.
  apply (contains_iff_ancestor (s2v1.FromFace 3)
           (s2v1.FromFacePosLevel 3 987654321 20)).
  - word_range.
  - word_range.
  - reflexivity.
  - reflexivity.
  - split; [vm_compute; intro; discriminate|reflexivity].
Defined.

(** X6.  Two valid curve-position identifiers intersect exactly when one
    of them contains the other; cells never overlap partially. *)
Theorem intersects_iff_nested (x y : Z) :
  0 <= x < 2 ^ 64 -> 0 <= y < 2 ^ 64 ->
  s2v1.is_valid x = true -> s2v1.is_valid y = true ->
  (s2v1.intersects x y = true
   <-> s2v1.contains x y = true \/ s2v1.contains y x = true).
Proof.
  intros Hx Hy Hvx Hvy.
  destruct (valid_cell4 x Hx Hvx) as (l & a & Hl & Ha & ->).
  destruct (valid_cell4 y Hy Hvy) as (m & b & Hm & Hb & ->).
  assert (Hsym : s2v1.intersects (cell l a) (cell m b)
                 = s2v1.intersects (cell m b) (cell l a)).
  { unfold s2v1.intersects, s2v1.le, s2v1.ge.
    rewrite !Z.geb_leb. apply andb_comm. }
  destruct (Z_le_dec l m) as [Hle|Hgt].
  - rewrite intersects_cell_deep, <- contains_cell_deep by lia.
    split; [intros H; left; exact H|].
    intros [H|H]; [exact H|].
    destruct (Z.eq_dec l m) as [->|Hne].
    + rewrite contains_cell_deep in * by lia.
      rewrite Z.sub_diag, Z.pow_0_r in *. lia.
    + rewrite contains_cell_shallow in H by lia. discriminate H.
  - rewrite Hsym, intersects_cell_deep, <- contains_cell_deep by lia.
    split; [intros H; right; exact H|].
    intros [H|H]; [|exact H].
    rewrite contains_cell_shallow in H by lia. discriminate H.
Qed.

Lemma intersects_iff_nested_witness :
  s2v1.intersects (s2v1.FromFacePosLevel 3 987654321 20) (s2v1.FromFace 3)
  = true.
Proof.
  apply (intersects_iff_nested (s2v1.FromFacePosLevel 3 987654321 20)
           (s2v1.FromFace 3)).
  - word_range.
  - word_range.
  - reflexivity.
  - reflexivity.
  - right. reflexivity.
Defined.

(** X7.  For a valid identifier [x] and a depth [k] from its own depth to
    30, [child_begin(k)] and [child_end(k)] bound its descendants of depth
    [k]: a valid identifier [y] of depth [k] has [x] as its ancestor
    exactly when [child_begin(k) <= y < child_end(k)].  [child_begin(k)]
    is itself such a descendant. *)
Theorem descendants_range (x k : Z) :
  0 <= x < 2 ^ 64 ->
  s2v1.is_valid x = true ->
  s2v1.level x <= k <= 30 ->
  s2v1.is_valid (s2v1.child_begin_at x k) = true
  /\ s2v1.level (s2v1.child_begin_at x k) = k
  /\ s2v1.parent_at (s2v1.child_begin_at x k) (s2v1.level x) = x
  /\ (forall y, 0 <= y < 2 ^ 64 -> s2v1.is_valid y = true ->
        s2v1.level y = k ->
        (s2v1.parent_at y (s2v1.level x) = x
         <-> s2v1.child_begin_at x k <= y < s2v1.child_end_at x k)).
Proof.
  intros Hx Hv Hk.
  destruct (valid_cell4 x Hx Hv) as (l & a & Hl & Ha & ->).
  rewrite level_cell in * by lia.
  pose proof (pow4_pos (k - l) ltac:(lia)) as H4.
  pose proof (pow4_pos l ltac:(lia)) as H4l.
  assert (E4 : 4 ^ k = 4 ^ l * 4 ^ (k - l)).
  { rewrite <- Z.pow_add_r by lia. f_equal. lia. }
  rewrite child_begin_at_cell, child_end_at_cell by lia.
  assert (Hb : 0 <= a * 4 ^ (k - l) < 6 * 4 ^ k) by nia.
  split; [apply is_valid_cell4; lia|].
  split; [apply level_cell; lia|].
  split.
  { rewrite parent_at_cell4 by lia. f_equal. apply Z.div_mul; lia. }
  intros y Hy Hvy Hly.
  destruct (valid_cell4 y Hy Hvy) as (m & b & Hm & Hbm & ->).
  rewrite level_cell in Hly by lia. subst m.
  rewrite parent_at_cell4 by lia.
  pose proof (ancestor_index_bound k b l ltac:(lia) Hbm).
  split.
  - intros E. apply cell_inj in E; try lia. destruct E as [_ E].
    apply quotient_is in E; [|lia].
    split.
    + destruct (Z.eq_dec (a * 4 ^ (k - l)) b) as [->|]; [lia|].
      apply Z.lt_le_incl, cell_lt; lia.
    + apply cell_lt; lia.
  - intros [H1 H2]. f_equal. apply quotient_is; [lia|].
    apply cell_lt in H2; [|lia].
    split; [|lia].
    destruct (Z_le_dec (a * 4 ^ (k - l)) b); [assumption|].
    assert (cell k b < cell k (a * 4 ^ (k - l))) by (apply cell_lt; lia).
    lia.
Qed.

Lemma descendants_range_witness :
  s2v1.parent_at (s2v1.child_begin_at (s2v1.FromFace 1) 9) 0 = s2v1.FromFace 1.
Proof.
  destruct (descendants_range (s2v1.FromFace 1) 9) as (_ & _ & E & _).
  - word_range.
  - reflexivity.
  - vm_compute. split; intro; discriminate.
  - exact E.
Defined.

End CurveContainment.

(* ================================================================== *)
(** * More of the curve-position identifier: levels and construction *)
(* ================================================================== *)

Section CurveLevels.

(** X8.  Ancestors compose: for a valid identifier, [parent(k)] is a valid
    cell of depth [k] on the same face, [parent(level())] is the identifier
    itself, [parent()] is [parent(level() - 1)], and the ancestor at depth
    [j] of the ancestor at depth [k] is the ancestor at depth [j]. *)
Theorem parent_at_compose (x j k : Z) :
  0 <= x < 2 ^ 64 ->
  s2v1.is_valid x = true ->
  0 <= j <= k -> k <= s2v1.level x ->
  s2v1.is_valid (s2v1.parent_at x k) = true
  /\ s2v1.level (s2v1.parent_at x k) = k
  /\ s2v1.face (s2v1.parent_at x k) = s2v1.face x
  /\ s2v1.parent_at (s2v1.parent_at x k) j = s2v1.parent_at x j
  /\ s2v1.parent_at x (s2v1.level x) = x
  /\ (s2v1.level x > 0 ->
      s2v1.parent x = s2v1.parent_at x (s2v1.level x - 1)).
Proof.
  intros Hx Hv Hj Hk.
  destruct (valid_cell4 x Hx Hv) as (l & a & Hl & Ha & ->).
  rewrite level_cell in * by lia.
  pose proof (ancestor_index_bound l a k ltac:(lia) Ha) as Hb.
  pose proof (pow4_pos (l - k) ltac:(lia)) as H4.
  pose proof (pow4_pos (k - j) ltac:(lia)) as H4'.
  pose proof (pow4_pos k ltac:(lia)) as H4k.
  rewrite !parent_at_cell4 by lia.
  split; [apply is_valid_cell4; lia|].
  split; [apply level_cell; lia|].
  split.
  { rewrite !face_cell4 by lia.
    rewrite Z.div_div, <- Z.pow_add_r by lia. do 2 f_equal. lia. }
  split.
  { f_equal.
    rewrite Z.div_div, <- Z.pow_add_r by lia. do 2 f_equal. lia. }
  split.
  { rewrite Z.sub_diag, Z.pow_0_r, Z.div_1_r. reflexivity. }
  intros Hpos.
  rewrite parent_cell, parent_at_cell4 by (rewrite ?pow4; lia).
  do 2 f_equal. replace (l - (l - 1)) with 1 by lia. reflexivity.
Qed.

Lemma parent_at_compose_witness :
  let x := s2v1.FromFacePosLevel 1 55555555555 25 in
  s2v1.parent_at (s2v1.parent_at x 10) 4 = s2v1.parent_at x 4.
Proof.
  cbv zeta.
  destruct (parent_at_compose (s2v1.FromFacePosLevel 1 55555555555 25) 4 10)
    as (_ & _ & _ & E & _).
  - word_range.
  - reflexivity.
  - lia.
  - vm_compute. intro; discriminate.
  - exact E.
Defined.

Lemma odd_not_multiple_of_4 (a K : Z) :
  0 < K -> (2 * a + 1) mod (4 * K) <> 0.
Proof.
  intros HK E.
  pose proof (Z.div_mod (2 * a + 1) (4 * K) ltac:(lia)) as D.
  rewrite E in D. lia.
Qed.

(** X9.  On a valid identifier the two shortcuts agree with the depth:
    [is_leaf] is true exactly at depth 30 and [is_face] exactly at depth
    0; and the lowest set bit is the marker bit of the depth, so that
    [a.lsb() <= b.lsb()] exactly when [a.level() >= b.level()]. *)
Theorem level_shortcuts (x y : Z) :
  0 <= x < 2 ^ 64 -> 0 <= y < 2 ^ 64 ->
  s2v1.is_valid x = true -> s2v1.is_valid y = true ->
  s2v1.is_leaf x = (s2v1.level x =? s2v1.kMaxLevel)
  /\ s2v1.is_face x = (s2v1.level x =? 0)
  /\ s2v1.lsb x = s2v1.lsb_for_level (s2v1.level x)
  /\ 0 <= s2v1.level x <= s2v1.kMaxLevel
  /\ (s2v1.lsb x <= s2v1.lsb y <-> s2v1.level x >= s2v1.level y).
Proof.
  intros Hx Hy Hvx Hvy.
  destruct (valid_cell4 x Hx Hvx) as (l & a & Hl & Ha & ->).
  destruct (valid_cell4 y Hy Hvy) as (m & b & Hm & Hb & ->).
  pose proof (pow4_pos l ltac:(lia)) as H4.
  rewrite !level_cell, !lsb_cell4, lsb_for_level_eq by lia.
  change s2v1.kMaxLevel with 30.
  pose proof (pow2_pos (2 * (30 - l)) ltac:(lia)) as HP.
  split; [|split; [|split; [reflexivity|split; [lia|]]]].
  - unfold s2v1.is_leaf. rewrite cell_unfold.
    change 1 with (Z.ones 1) at 2. rewrite Z.land_ones by lia.
    change (2 ^ 1) with 2.
    destruct (Z.eqb_spec l 30) as [->|Hne].
    + change (2 ^ (2 * (30 - 30))) with 1. rewrite Z.mul_1_r.
      replace ((2 * a + 1) mod 2) with 1 by (Z.div_mod_to_equations; lia).
      reflexivity.
    + replace (2 * (30 - l)) with (1 + (2 * (30 - l) - 1)) by lia.
      rewrite Z.pow_add_r, Z.pow_1_r by lia.
      replace ((2 * a + 1) * (2 * 2 ^ (2 * (30 - l) - 1)))
        with ((2 * a + 1) * 2 ^ (2 * (30 - l) - 1) * 2) by lia.
      rewrite Z.mod_mul by lia. reflexivity.
  - unfold s2v1.is_face. rewrite lsb_for_level_eq by lia.
    change (U64.sub (2 ^ (2 * (30 - 0))) 1) with (Z.ones 60).
    rewrite Z.land_ones, cell_unfold by lia.
    destruct (Z.eqb_spec l 0) as [->|Hne].
    + change (2 * (30 - 0)) with 60. rewrite Z.mod_mul by lia. reflexivity.
    + rewrite <- (marker_span l) by lia.
      rewrite (Z.mul_comm (2 * a + 1)).
      rewrite Z.mul_mod_distr_l by lia.
      replace l with (l - 1 + 1) at 2 by lia.
      rewrite pow4_succ by lia.
      pose proof (odd_not_multiple_of_4 a (4 ^ (l - 1))
                    (pow4_pos (l - 1) ltac:(lia))).
      destruct (Z.eqb_spec (2 ^ (2 * (30 - l))
                            * ((2 * a + 1) mod (4 * 4 ^ (l - 1)))) 0);
        [nia|reflexivity].
  - split; intros H.
    + destruct (Z_ge_dec l m); [assumption|exfalso].
      pose proof (pow2_lt (2 * (30 - m)) (2 * (30 - l)) ltac:(lia)). lia.
    + apply pow2_le; lia.
Qed.

Lemma level_shortcuts_witness :
  s2v1.is_leaf (s2v1.FromFacePosLevel 2 0 30) = true
  /\ s2v1.is_face (s2v1.FromFacePosLevel 2 0 30) = false.
Proof.
  destruct (level_shortcuts (s2v1.FromFacePosLevel 2 0 30) (s2v1.FromFace 0))
    as (A & B & _).
  - word_range.
  - word_range.
  - reflexivity.
  - reflexivity.
  - split; [exact A|exact B].
Defined.

(** X10.  The range of a valid identifier is made of valid leaf cells:
    [range_min] is its first leaf descendant, [child_begin(30)], and
    [range_max] its last one, the leaf before [child_end(30)]; the
    identifier contains both and is their ancestor. *)
Theorem range_ends_are_leaves (x : Z) :
  0 <= x < 2 ^ 64 ->
  s2v1.is_valid x = true ->
  s2v1.range_min x = s2v1.child_begin_at x 30
  /\ s2v1.range_max x = s2v1.prev (s2v1.child_end_at x 30)
  /\ s2v1.is_valid (s2v1.range_min x) = true
  /\ s2v1.is_valid (s2v1.range_max x) = true
  /\ s2v1.level (s2v1.range_min x) = 30
  /\ s2v1.level (s2v1.range_max x) = 30
  /\ s2v1.parent_at (s2v1.range_min x) (s2v1.level x) = x
  /\ s2v1.parent_at (s2v1.range_max x) (s2v1.level x) = x.
Proof.
  intros Hx Hv.
  destruct (valid_cell4 x Hx Hv) as (l & a & Hl & Ha & ->).
  pose proof (pow4_pos l ltac:(lia)) as H4.
  pose proof (pow4_pos (30 - l) ltac:(lia)) as H4'.
  assert (E4 : 4 ^ 30 = 4 ^ l * 4 ^ (30 - l)).
  { rewrite <- Z.pow_add_r by lia. f_equal. lia. }
  rewrite level_cell by lia.
  rewrite child_begin_at_cell, child_end_at_cell by lia.
  rewrite prev_cell by nia.
  assert (Emin : s2v1.range_min (cell l a) = cell 30 (a * 4 ^ (30 - l))).
  { rewrite range_min_cell by (rewrite ?pow4; lia).
    rewrite !cell_unfold, pow4 by lia.
    change (2 ^ (2 * (30 - 30))) with 1. lia. }
  assert (Emax : s2v1.range_max (cell l a)
                 = cell 30 ((a + 1) * 4 ^ (30 - l) - 1)).
  { rewrite range_max_cell by (rewrite ?pow4; lia).
    rewrite !cell_unfold, pow4 by lia.
    change (2 ^ (2 * (30 - 30))) with 1. lia. }
  rewrite Emin, Emax.
  split; [reflexivity|]. split; [reflexivity|].
  split; [apply is_valid_cell4; nia|].
  split; [apply is_valid_cell4; nia|].
  split; [apply level_cell; nia|].
  split; [apply level_cell; nia|].
  rewrite !parent_at_cell4 by nia.
  split; f_equal.
  - apply Z.div_mul; lia.
  - apply quotient_is; lia.
Qed.

Lemma range_ends_are_leaves_witness :
  s2v1.level (s2v1.range_max (s2v1.FromFacePosLevel 5 777 8)) = 30.
Proof.
  destruct (range_ends_are_leaves (s2v1.FromFacePosLevel 5 777 8))
    as (_ & _ & _ & _ & _ & E & _).
  - word_range.
  - reflexivity.
  - exact E.
Defined.

(** X11.  [child_position(k)] of a valid identifier, for a depth [k]
    between 1 and its own, is the child position of its ancestor at depth
    [k]; it lies in 0..3. *)
Theorem child_position_at_ancestor (x k : Z) :
  0 <= x < 2 ^ 64 ->
  s2v1.is_valid x = true ->
  1 <= k <= s2v1.level x ->
  s2v1.child_position_at x k = s2v1.child_position (s2v1.parent_at x k)
  /\ 0 <= s2v1.child_position_at x k < 4.
Proof.
  intros Hx Hv Hk.
  destruct (valid_cell4 x Hx Hv) as (l & a & Hl & Ha & ->).
  rewrite level_cell in Hk by lia.
  pose proof (ancestor_index_bound l a k ltac:(lia) Ha) as Hb.
  rewrite parent_at_cell4, child_position_cell by lia.
  assert (E : s2v1.child_position_at (cell l a) k = (a / 4 ^ (l - k)) mod 4).
  { unfold s2v1.child_position_at. rewrite to_int_land3.
    unfold U64.shr. change s2v1.kMaxLevel with 30.
    rewrite Z.shiftr_div_pow2 by lia. rewrite cell_unfold.
    replace (2 * (30 - k) + 1) with (2 * (30 - l) + (2 * (l - k) + 1)) by lia.
    rewrite (Z.pow_add_r 2 (2 * (30 - l))) by lia.
    pose proof (pow2_pos (2 * (30 - l)) ltac:(lia)).
    pose proof (pow2_pos (2 * (l - k) + 1) ltac:(lia)).
    rewrite Z.mul_comm, Z.div_mul_cancel_l by lia.
    replace (2 * (l - k) + 1) with (1 + 2 * (l - k)) by lia.
    rewrite Z.pow_add_r, Z.pow_1_r, pow4 by lia.
    pose proof (pow4_pos (l - k) ltac:(lia)).
    rewrite <- Z.div_div by lia.
    replace ((2 * a + 1) / 2) with a by (Z.div_mod_to_equations; lia).
    reflexivity. }
  rewrite E. split; [reflexivity|apply digit_range].
Qed.

Lemma child_position_at_ancestor_witness :
  let x := s2v1.child (s2v1.child (s2v1.child (s2v1.FromFace 4) 2) 1) 3 in
  s2v1.child_position_at x 2 = 1.
Proof.
  cbv zeta.
  destruct (child_position_at_ancestor
              (s2v1.child (s2v1.child (s2v1.child (s2v1.FromFace 4) 2) 1) 3) 2)
    as (E & _).
  - word_range.
  - reflexivity.
  - vm_compute. split; intro; discriminate.
  - rewrite E. reflexivity.
Defined.

End CurveLevels.

Section CurveWrapAndConstruction.

Lemma kWrapOffset_eq : s2v1.kWrapOffset = 6 * 2 ^ 61.
Proof. reflexivity. Qed.

Lemma cell_below_wrap (l a : Z) :
  0 <= l <= 30 -> 0 <= a ->
  (cell l a < 6 * 2 ^ 61 <-> a < 6 * 4 ^ l).
Proof.
  intros Hl Ha. rewrite cell_unfold.
  pose proof (marker_span l Hl) as Hs.
  pose proof (pow2_pos (2 * (30 - l)) ltac:(lia)) as HP.
  pose proof (pow4_pos l ltac:(lia)) as H4.
  replace (6 * 2 ^ 61) with (12 * 4 ^ l * 2 ^ (2 * (30 - l))) by lia.
  split; intros H.
  - apply Z.mul_lt_mono_pos_r in H; lia.
  - apply Z.mul_lt_mono_pos_r; lia.
Qed.

Lemma next_wrap_cell (l a : Z) :
  0 <= l <= 30 -> 0 <= a < 6 * 4 ^ l ->
  s2v1.next_wrap (cell l a)
  = cell l (if a + 1 <? 6 * 4 ^ l then a + 1 else 0).
Proof.
  intros Hl Ha. unfold s2v1.next_wrap.
  pose proof (pow4_pos l ltac:(lia)) as H4.
  rewrite next_cell, kWrapOffset_eq by lia.
  destruct (Z.ltb_spec (a + 1) (6 * 4 ^ l)) as [Hin|Hout].
  - replace (cell l (a + 1) <? 6 * 2 ^ 61) with true; [reflexivity|].
    symmetry. apply Z.ltb_lt. apply cell_below_wrap; lia.
  - replace (cell l (a + 1) <? 6 * 2 ^ 61) with false.
    2:{ symmetry. apply Z.ltb_ge.
        destruct (Z_lt_dec (cell l (a + 1)) (6 * 2 ^ 61)) as [C|C]; [|lia].
        apply cell_below_wrap in C; lia. }
    pose proof (cell_bound l (a + 1) Hl ltac:(lia)) as Hb.
    pose proof (marker_span l Hl) as Hs.
    pose proof (pow2_pos (2 * (30 - l)) ltac:(lia)) as HP.
    unfold U64.sub. rewrite !cell_unfold in *.
    replace a with (6 * 4 ^ l - 1) in * by lia.
    replace ((2 * (6 * 4 ^ l - 1 + 1) + 1) * 2 ^ (2 * (30 - l)) - 6 * 2 ^ 61)
      with (2 ^ (2 * (30 - l))) by lia.
    rewrite wrap_small by (pose proof (pow2_le (2 * (30 - l)) 60 ltac:(lia)); lia).
    lia.
Qed.

Lemma prev_wrap_cell (l a : Z) :
  0 <= l <= 30 -> 0 <= a < 6 * 4 ^ l ->
  s2v1.prev_wrap (cell l a)
  = cell l (if a =? 0 then 6 * 4 ^ l - 1 else a - 1).
Proof.
  intros Hl Ha. unfold s2v1.prev_wrap.
  pose proof (pow4_pos l ltac:(lia)) as H4.
  rewrite kWrapOffset_eq.
  destruct (Z.eqb_spec a 0) as [->|Hne].
  - rewrite prev_cell_first by lia.
    replace (cell l (8 * 4 ^ l - 1) <? 6 * 2 ^ 61) with false.
    2:{ symmetry. apply Z.ltb_ge.
        destruct (Z_lt_dec (cell l (8 * 4 ^ l - 1)) (6 * 2 ^ 61)) as [C|C];
          [|lia].
        apply cell_below_wrap in C; lia. }
    pose proof (marker_span l Hl) as Hs.
    pose proof (pow2_pos (2 * (30 - l)) ltac:(lia)) as HP.
    pose proof (cell_bound l (6 * 4 ^ l - 1) Hl ltac:(lia)) as Hb.
    unfold U64.add, U64.wrap, U64.modulus. rewrite !cell_unfold in *.
    symmetry. apply Z.mod_unique with 1; [lia|].
    replace (2 ^ 64) with (16 * 2 ^ 60) by reflexivity.
    replace (6 * 2 ^ 61) with (12 * 2 ^ 60) by reflexivity.
    rewrite <- Hs. lia.
  - rewrite prev_cell by lia.
    replace (cell l (a - 1) <? 6 * 2 ^ 61) with true; [reflexivity|].
    symmetry. apply Z.ltb_lt. apply cell_below_wrap; lia.
Qed.

(** X12.  On a valid identifier, [next_wrap] and [prev_wrap] always give a
    valid identifier of the same depth and undo each other.  [next_wrap]
    agrees with [next] unless [next] reaches [End], where it gives [Begin]
    of that depth; [prev_wrap] agrees with [prev] unless the identifier is
    [Begin], where it gives the last cell, the one before [End]. *)
Theorem wrap_navigation (x : Z) :
  0 <= x < 2 ^ 64 ->
  s2v1.is_valid x = true ->
  s2v1.is_valid (s2v1.next_wrap x) = true
  /\ s2v1.is_valid (s2v1.prev_wrap x) = true
  /\ s2v1.level (s2v1.next_wrap x) = s2v1.level x
  /\ s2v1.level (s2v1.prev_wrap x) = s2v1.level x
  /\ s2v1.prev_wrap (s2v1.next_wrap x) = x
  /\ s2v1.next_wrap (s2v1.prev_wrap x) = x
  /\ s2v1.next_wrap x
     = (if s2v1.next x =? s2v1.End (s2v1.level x)
        then s2v1.Begin (s2v1.level x) else s2v1.next x)
  /\ s2v1.prev_wrap x
     = (if x =? s2v1.Begin (s2v1.level x)
        then s2v1.prev (s2v1.End (s2v1.level x)) else s2v1.prev x).
Proof.
  intros Hx Hv.
  destruct (valid_cell4 x Hx Hv) as (l & a & Hl & Ha & ->).
  pose proof (pow4_pos l ltac:(lia)) as H4.
  rewrite level_cell by lia.
  rewrite next_wrap_cell, prev_wrap_cell by lia.
  assert (Hn : 0 <= (if a + 1 <? 6 * 4 ^ l then a + 1 else 0) < 6 * 4 ^ l)
    by (destruct (Z.ltb_spec (a + 1) (6 * 4 ^ l)); lia).
  assert (Hp : 0 <= (if a =? 0 then 6 * 4 ^ l - 1 else a - 1) < 6 * 4 ^ l)
    by (destruct (Z.eqb_spec a 0); lia).
  split; [apply is_valid_cell4; lia|].
  split; [apply is_valid_cell4; lia|].
  split; [apply level_cell; lia|].
  split; [apply level_cell; lia|].
  split.
  { rewrite prev_wrap_cell by lia. f_equal.
    destruct (Z.ltb_spec (a + 1) (6 * 4 ^ l)).
    - destruct (Z.eqb_spec (a + 1) 0); lia.
    - destruct (Z.eqb_spec 0 0); lia. }
  split.
  { rewrite next_wrap_cell by lia. f_equal.
    destruct (Z.eqb_spec a 0).
    - destruct (Z.ltb_spec (6 * 4 ^ l - 1 + 1) (6 * 4 ^ l)); lia.
    - destruct (Z.ltb_spec (a - 1 + 1) (6 * 4 ^ l)); lia. }
  rewrite next_cell, Begin_cell, End_cell by lia.
  split.
  - destruct (Z.ltb_spec (a + 1) (6 * 4 ^ l)).
    + destruct (Z.eqb_spec (cell l (a + 1)) (cell l (6 * 4 ^ l))) as [E|];
        [|reflexivity].
      apply cell_inj in E; lia.
    + replace (a + 1) with (6 * 4 ^ l) by lia.
      rewrite Z.eqb_refl. reflexivity.
  - rewrite prev_cell by lia.
    destruct (Z.eqb_spec a 0) as [->|Hne].
    + rewrite Z.eqb_refl. reflexivity.
    + destruct (Z.eqb_spec (cell l a) (cell l 0)) as [E|].
      * apply cell_inj in E; lia.
      * rewrite prev_cell by lia. reflexivity.
Qed.

Lemma wrap_navigation_witness :
  s2v1.next_wrap (s2v1.FromFace 5) = s2v1.FromFace 0
  /\ s2v1.prev_wrap (s2v1.FromFace 0) = s2v1.FromFace 5.
Proof.
  destruct (wrap_navigation (s2v1.FromFace 5)) as (_ & _ & _ & _ & _ & _ & A & _).
  - word_range.
  - reflexivity.
  - destruct (wrap_navigation (s2v1.FromFace 0))
      as (_ & _ & _ & _ & _ & _ & _ & B).
    + word_range.
    + reflexivity.
    + split; [rewrite A|rewrite B]; reflexivity.
Defined.

Lemma pos_eq (x : Z) : s2v1.pos x = x mod 2 ^ 61.
Proof.
  unfold s2v1.pos.
  change (U64.shr (U64.lnot 0) s2v1.kFaceBits) with (Z.ones 61).
  apply Z.land_ones. lia.
Qed.

Lemma FromFacePosLevel_index (f pos k : Z) :
  0 <= f < 6 -> 0 <= pos < 2 ^ 61 -> 0 <= k <= 30 ->
  0 <= (f * 4 ^ 30 + pos / 2) / 4 ^ (30 - k) < 6 * 4 ^ k
  /\ s2v1.FromFacePosLevel f pos k
     = cell k ((f * 4 ^ 30 + pos / 2) / 4 ^ (30 - k)).
Proof.
  intros Hf Hp Hk.
  assert (Hc : 0 <= f * 4 ^ 30 + pos / 2 < 6 * 4 ^ 30).
  { change (4 ^ 30) with (2 ^ 60). Z.div_mod_to_equations. lia. }
  split; [apply ancestor_index_bound; lia|].
  unfold s2v1.FromFacePosLevel.
  assert (E : U64.add (U64.shl (U64.of_int f) s2v1.kPosBits) (Z.lor pos 1)
              = cell 30 (f * 4 ^ 30 + pos / 2)).
  { unfold U64.of_int, U64.shl, U64.add. change s2v1.kPosBits with 61.
    rewrite (wrap_small f), Z.shiftl_mul_pow2 by lia.
    rewrite (wrap_small (f * 2 ^ 61)) by lia.
    rewrite lor_1, cell_unfold.
    change (2 ^ (2 * (30 - 30))) with 1. change (4 ^ 30) with (2 ^ 60).
    rewrite wrap_small by (Z.div_mod_to_equations; lia). lia. }
  rewrite E. apply parent_at_cell4; lia.
Qed.

(** X13.  [FromFacePosLevel] with a face in 0..5, a position below
    [2^61] and a depth in 0..30 returns a valid identifier of that face
    and depth which contains the leaf cell at that position; building
    again from the position of the result gives the same identifier. *)
Theorem FromFacePosLevel_valid (face pos level : Z) :
  0 <= face < 6 -> 0 <= pos < 2 ^ 61 -> 0 <= level <= 30 ->
  let r := s2v1.FromFacePosLevel face pos level in
  s2v1.is_valid r = true
  /\ s2v1.level r = level
  /\ s2v1.face r = face
  /\ s2v1.contains r (s2v1.FromFacePosLevel face pos 30) = true
  /\ s2v1.FromFacePosLevel face (s2v1.pos r) level = r.
Proof.
  intros Hf Hp Hk. cbv zeta.
  destruct (FromFacePosLevel_index face pos level Hf Hp Hk) as (Hb & E).
  destruct (FromFacePosLevel_index face pos 30 Hf Hp ltac:(lia)) as (Hb30 & E30).
  rewrite E, E30.
  rewrite Z.sub_diag, Z.pow_0_r, Z.div_1_r in *.
  set (c := face * 4 ^ 30 + pos / 2) in *.
  pose proof (pow4_pos level ltac:(lia)) as H4.
  pose proof (pow4_pos (30 - level) ltac:(lia)) as H4'.
  assert (E4 : 4 ^ 30 = 4 ^ level * 4 ^ (30 - level)).
  { rewrite <- Z.pow_add_r by lia. f_equal. lia. }
  assert (Hface : c / 4 ^ (30 - level) / 4 ^ level = face).
  { rewrite Z.div_div, (Z.mul_comm (4 ^ (30 - level))), <- E4 by lia.
    unfold c. rewrite Z.div_add_l by lia.
    rewrite (Z.div_small (pos / 2)); [lia|].
    change (4 ^ 30) with (2 ^ 60). Z.div_mod_to_equations. lia. }
  split; [apply is_valid_cell4; lia|].
  split; [apply level_cell; lia|].
  split; [rewrite face_cell4 by lia; exact Hface|].
  split.
  { apply contains_cell_deep; try lia. apply quotient_is; lia. }
  destruct (FromFacePosLevel_index face
              (s2v1.pos (cell level (c / 4 ^ (30 - level)))) level Hf)
    as (_ & E'); [rewrite pos_eq; apply Z.mod_pos_bound; lia|lia|].
  rewrite E'. f_equal.
  (* the index read back from the position of the centre *)
  rewrite pos_eq.
  set (a := c / 4 ^ (30 - level)) in *.
  pose proof (cell_bound level a ltac:(lia) ltac:(lia)) as Hx.
  pose proof (cell_div_face level a ltac:(lia) ltac:(lia)) as Hq.
  rewrite pow4 in Hq by lia. fold a in Hface. rewrite Hface in Hq.
  assert (Epos : cell level a mod 2 ^ 61 = cell level a - face * 2 ^ 61).
  { pose proof (Z.div_mod (cell level a) (2 ^ 61) ltac:(lia)). lia. }
  rewrite Epos.
  replace (face * 4 ^ 30 + (cell level a - face * 2 ^ 61) / 2)
    with (cell level a / 2)
    by (change (4 ^ 30) with (2 ^ 60); Z.div_mod_to_equations; lia).
  rewrite Z.div_div, cell_unfold, pow4 by lia.
  rewrite (Z.mul_comm 2), Z.div_mul_cancel_r by lia.
  Z.div_mod_to_equations. lia.
Qed.

Lemma FromFacePosLevel_valid_witness :
  s2v1.face (s2v1.FromFacePosLevel 4 123456789 11) = 4
  /\ s2v1.level (s2v1.FromFacePosLevel 4 123456789 11) = 11.
Proof.
  destruct (FromFacePosLevel_valid 4 123456789 11) as (_ & A & B & _).
  - lia.
  - lia.
  - lia.
  - split; [exact B|exact A].
Defined.

(** X14.  A valid identifier is its face and position put together, and
    [FromFacePosLevel] on its face, position and depth gives it back; a
    valid identifier of depth 0 is [FromFace] of its face. *)
Theorem face_pos_level_rebuild (x : Z) :
  0 <= x < 2 ^ 64 ->
  s2v1.is_valid x = true ->
  0 <= s2v1.face x < 6
  /\ 0 <= s2v1.pos x < 2 ^ 61
  /\ x = s2v1.face x * 2 ^ 61 + s2v1.pos x
  /\ s2v1.FromFacePosLevel (s2v1.face x) (s2v1.pos x) (s2v1.level x) = x
  /\ (s2v1.level x = 0 -> s2v1.FromFace (s2v1.face x) = x).
Proof.
  intros Hx Hv.
  destruct (valid_cell4 x Hx Hv) as (l & a & Hl & Ha & ->).
  pose proof (pow4_pos l ltac:(lia)) as H4.
  rewrite level_cell, face_cell4, pos_eq by lia.
  pose proof (cell_div_face l a ltac:(lia) ltac:(lia)) as Hq.
  rewrite pow4 in Hq by lia.
  assert (Hf : 0 <= a / 4 ^ l < 6).
  { split; [apply Z.div_pos; lia|apply Z.div_lt_upper_bound; lia]. }
  pose proof (Z.mod_pos_bound (cell l a) (2 ^ 61) ltac:(lia)) as Hp.
  assert (Epos : cell l a = a / 4 ^ l * 2 ^ 61 + cell l a mod 2 ^ 61).
  { pose proof (Z.div_mod (cell l a) (2 ^ 61) ltac:(lia)). lia. }
  split; [exact Hf|]. split; [exact Hp|]. split; [exact Epos|].
  split.
  - destruct (FromFacePosLevel_index (a / 4 ^ l) (cell l a mod 2 ^ 61) l
                Hf Hp Hl) as (_ & E).
    rewrite E. f_equal.
    replace (a / 4 ^ l * 4 ^ 30 + cell l a mod 2 ^ 61 / 2)
      with (cell l a / 2)
      by (change (4 ^ 30) with (2 ^ 60); Z.div_mod_to_equations; lia).
    pose proof (pow4_pos (30 - l) ltac:(lia)).
    rewrite Z.div_div, cell_unfold, pow4 by lia.
    rewrite (Z.mul_comm 2), Z.div_mul_cancel_r by lia.
    Z.div_mod_to_equations. lia.
  - intros L0. subst l. rewrite Z.pow_0_r, Z.div_1_r in *.
    apply FromFace_cell. lia.
Qed.

Lemma face_pos_level_rebuild_witness :
  let x := s2v1.child (s2v1.child (s2v1.FromFace 2) 3) 1 in
  s2v1.FromFacePosLevel (s2v1.face x) (s2v1.pos x) (s2v1.level x) = x.
Proof.
  cbv zeta.
  destruct (face_pos_level_rebuild
              (s2v1.child (s2v1.child (s2v1.FromFace 2) 3) 1))
    as (_ & _ & _ & E & _).
  - word_range.
  - reflexivity.
  - exact E.
Defined.

End CurveWrapAndConstruction.

(* ================================================================== *)
(** * More of the path identifier: agreement with the curve position *)
(* ================================================================== *)

Section CompactAgreement.

Lemma enc_canonical (l a : Z) :
  0 <= l <= 28 -> 0 <= a < 6 * 4 ^ l -> canonical (enc l a) = true.
Proof.
  intros Hl Ha.
  destruct (enc_ok l a Hl Ha) as [E|(_ & W)].
  - destruct (enc_fields l a Hl Ha) as (Hr & _).
    change S2CellId.None with 0 in E. lia.
  - unfold well_formed in W. unfold canonical.
    destruct (Z.eqb_spec (enc l a) S2CellId.root_marker); [reflexivity|].
    cbn [orb] in *.
    destruct (Z.eqb_spec (enc l a mod 32) 0) as [E0|]; [|reflexivity].
    cbn [negb orb].
    apply andb_prop in W. destruct W as (_ & W).
    rewrite E0, Z.pow_0_r in W. apply Z.ltb_lt in W.
    pose proof (Z.mod_pos_bound (enc l a / 32) (2 ^ 56) ltac:(lia)).
    apply Z.eqb_eq. lia.
Qed.

Lemma enc_inj (l a l' a' : Z) :
  0 <= l <= 28 -> 0 <= a < 6 * 4 ^ l ->
  0 <= l' <= 28 -> 0 <= a' < 6 * 4 ^ l' ->
  enc l a = enc l' a' -> l = l' /\ a = a'.
Proof.
  intros Hl Ha Hl' Ha' E.
  apply (f_equal S2CellId.ConvertToOldFormat) in E.
  rewrite !ConvertToOldFormat_enc in E by lia.
  apply cell_inj in E; lia.
Qed.

(** The accessors of a valid identifier and the cell it converts to. *)
Lemma valid_cell_view (x : Z) :
  0 <= x < 2 ^ 64 -> S2CellId.is_valid x = true ->
  exists l a,
    0 <= l <= 28 /\ 0 <= a < 6 * 4 ^ l
    /\ S2CellId.level x = l
    /\ S2CellId.face x = a / 4 ^ l
    /\ S2CellId.path x = a mod 4 ^ l
    /\ S2CellId.ToOldFormat x = cell l a
    /\ (canonical x = true -> x = enc l a).
Proof.
  intros Hx Hv.
  destruct (valid_view x Hx Hv) as (l & a & Hl & Ha & EL & EF & EP & Hc).
  exists l, a. repeat split; try assumption; try lia.
  destruct (Z.eq_dec l 0) as [->|L0].
  - rewrite Z.pow_0_r in Ha, EF. rewrite Z.div_1_r in EF.
    unfold S2CellId.ToOldFormat, S2CellId.ConvertToOldFormat.
    pose proof Hv as Hv'. apply is_valid_fields in Hv'; [|exact Hx].
    destruct Hv' as (N0 & _).
    replace (x =? 0) with false by (symmetry; apply Z.eqb_neq; exact N0).
    destruct (Z.eqb_spec x S2CellId.root_marker) as [EM|NM].
    + subst x. rewrite <- EF. reflexivity.
    + rewrite face_field, level_field by lia.
      rewrite <- face_eq, <- level_eq, EL, EF by lia.
      replace ((a <? 0) || (a >=? 6)) with false.
      2:{ symmetry. apply orb_false_intro.
          - apply Z.ltb_ge; lia.
          - rewrite Z.geb_leb. apply Z.leb_gt; lia. }
      cbn. apply FromFace_cell. lia.
  - destruct (valid_deep_is_enc x Hx Hv ltac:(lia)) as (l' & a' & Hl' & Ha' & E).
    assert (Hcan : canonical x = true)
      by (rewrite E; apply enc_canonical; lia).
    rewrite (Hc Hcan). apply ConvertToOldFormat_enc; lia.
Qed.

Lemma mod_mod4 (u K : Z) : 0 < K -> (u mod (4 * K)) mod 4 = u mod 4.
Proof.
  intros HK. rewrite Z.rem_mul_r by lia.
  rewrite (Z.mul_comm 4), Z_mod_plus_full.
  apply Z.mod_mod. lia.
Qed.

Lemma ConvertFromOldFormat_invalid (o : Z) :
  s2v1.is_valid o = false -> S2CellId.ConvertFromOldFormat o = 0.
Proof.
  intros H. unfold S2CellId.ConvertFromOldFormat. rewrite H. reflexivity.
Qed.

(** The common shape of the delegating operations: convert the result of
    the curve-position operation back, unless it is deeper than 28. *)
Lemma convert_back (l a : Z) :
  0 <= l <= 28 -> 0 <= a < 8 * 4 ^ l ->
  (if s2v1.level (cell l a) >? S2CellId.kMaxLevel then S2CellId.None
   else S2CellId.FromS2CellId (cell l a))
  = if a <? 6 * 4 ^ l then enc l a else S2CellId.None.
Proof.
  intros Hl Ha. rewrite level_cell by lia.
  change S2CellId.kMaxLevel with 28.
  replace (l >? 28) with false
    by (symmetry; rewrite Z.gtb_ltb; apply Z.ltb_ge; lia).
  unfold S2CellId.FromS2CellId.
  destruct (Z.ltb_spec a (6 * 4 ^ l)).
  - apply ConvertFromOldFormat_cell; lia.
  - apply ConvertFromOldFormat_invalid, invalid_cell_past_end; lia.
Qed.

(** X15.  Converting a valid path identifier to the curve position gives a
    valid identifier of the same face and depth, and converting back gives
    the path identifier again exactly when it is canonical (a face cell
    with a stray path field comes back without it). *)
Theorem compact_conversion_roundtrip (x : Z) :
  0 <= x < 2 ^ 64 ->
  S2CellId.is_valid x = true ->
  s2v1.is_valid (S2CellId.ToOldFormat x) = true
  /\ s2v1.level (S2CellId.ToOldFormat x) = S2CellId.level x
  /\ s2v1.face (S2CellId.ToOldFormat x) = S2CellId.face x
  /\ S2CellId.is_valid (S2CellId.FromS2CellId (S2CellId.ToOldFormat x)) = true
  /\ (S2CellId.FromS2CellId (S2CellId.ToOldFormat x) = x
      <-> canonical x = true).
Proof.
  intros Hx Hv.
  destruct (valid_cell_view x Hx Hv) as (l & a & Hl & Ha & EL & EF & EP & ET & Hc).
  rewrite ET, EL, EF. unfold S2CellId.FromS2CellId.
  rewrite ConvertFromOldFormat_cell by lia.
  split; [apply is_valid_cell4; lia|].
  split; [apply level_cell; lia|].
  split; [apply face_cell4; lia|].
  split; [apply enc_valid; lia|].
  split.
  - intros E. rewrite <- E. apply enc_canonical; lia.
  - intros C. symmetry. apply Hc, C.
Qed.

Lemma compact_conversion_roundtrip_witness :
  let x := S2CellId.FromString "2/0312" in
  S2CellId.FromS2CellId (S2CellId.ToOldFormat x) = x.
Proof.
  cbv zeta.
  destruct (compact_conversion_roundtrip (S2CellId.FromString "2/0312"))
    as (_ & _ & _ & _ & E).
  - word_range.
  - reflexivity.
  - apply E. reflexivity.
Defined.

(** X16.  [child] on a valid path identifier of depth below 28 agrees with
    the curve position: the result is valid, one level deeper, at the
    given child position, converts to the child of the converted
    identifier, and its parent is the identifier it came from when that
    one is canonical. *)
Theorem compact_child_agrees (x p : Z) :
  0 <= x < 2 ^ 64 ->
  S2CellId.is_valid x = true ->
  S2CellId.level x < S2CellId.kMaxLevel ->
  0 <= p < 4 ->
  S2CellId.is_valid (S2CellId.child x p) = true
  /\ S2CellId.level (S2CellId.child x p) = S2CellId.level x + 1
  /\ S2CellId.face (S2CellId.child x p) = S2CellId.face x
  /\ S2CellId.child_position (S2CellId.child x p) = p
  /\ S2CellId.ToOldFormat (S2CellId.child x p)
     = s2v1.child (S2CellId.ToOldFormat x) p
  /\ (canonical x = true -> S2CellId.parent (S2CellId.child x p) = x).
Proof.
  intros Hx Hv Hlev Hp.
  destruct (valid_cell_view x Hx Hv) as (l & a & Hl & Ha & EL & EF & EP & ET & Hc).
  rewrite EL in *. change S2CellId.kMaxLevel with 28 in Hlev.
  pose proof (pow4_pos l ltac:(lia)) as H4.
  pose proof (pow4_succ l ltac:(lia)) as E4.
  rewrite (child_view x l a p) by (assumption || lia).
  rewrite ET, EF.
  assert (Hb : 0 <= 4 * a + p < 6 * 4 ^ (l + 1)) by lia.
  split; [apply enc_valid; lia|].
  split; [apply enc_level; lia|].
  split.
  { rewrite enc_face, E4 by lia.
    rewrite <- Z.div_div by lia. f_equal. Z.div_mod_to_equations. lia. }
  split.
  { unfold S2CellId.child_position.
    rewrite enc_valid, enc_level, enc_path by lia. cbn [negb].
    replace (l + 1 =? 0) with false by (symmetry; apply Z.eqb_neq; lia).
    rewrite land3_mod4, E4, mod_mod4 by lia.
    rewrite to_int_small by (Z.div_mod_to_equations; lia).
    Z.div_mod_to_equations. lia. }
  split.
  { unfold S2CellId.ToOldFormat.
    rewrite ConvertToOldFormat_enc, child_cell by (rewrite ?pow4; lia).
    reflexivity. }
  intros C. rewrite parent_enc by lia.
  replace (l + 1 - 1) with l by lia.
  replace ((4 * a + p) / 4) with a by (Z.div_mod_to_equations; lia).
  symmetry. apply Hc, C.
Qed.

Lemma compact_child_agrees_witness :
  S2CellId.ToOldFormat (S2CellId.child (S2CellId.FromFaceLevel 3 5) 2)
  = s2v1.child (S2CellId.ToOldFormat (S2CellId.FromFaceLevel 3 5)) 2.
Proof.
  destruct (compact_child_agrees (S2CellId.FromFaceLevel 3 5) 2)
    as (_ & _ & _ & _ & E & _).
  - word_range.
  - reflexivity.
  - reflexivity.
  - lia.
  - exact E.
Defined.

(** X17.  [parent] on a valid path identifier below a face cell agrees
    with the curve position: the result is valid, one level up, converts
    to the parent of the converted identifier, and its child at the
    identifier's child position is the identifier; the child position is
    the one the curve position has. *)
Theorem compact_parent_agrees (x : Z) :
  0 <= x < 2 ^ 64 ->
  S2CellId.is_valid x = true ->
  S2CellId.level x > 0 ->
  S2CellId.is_valid (S2CellId.parent x) = true
  /\ S2CellId.level (S2CellId.parent x) = S2CellId.level x - 1
  /\ S2CellId.ToOldFormat (S2CellId.parent x)
     = s2v1.parent (S2CellId.ToOldFormat x)
  /\ S2CellId.child_position x
     = s2v1.child_position (S2CellId.ToOldFormat x)
  /\ 0 <= S2CellId.child_position x < 4
  /\ S2CellId.child (S2CellId.parent x) (S2CellId.child_position x) = x.
Proof.
  intros Hx Hv Hlev.
  destruct (valid_cell_view x Hx Hv) as (l & a & Hl & Ha & EL & EF & EP & ET & Hc).
  rewrite EL in *.
  destruct (valid_deep_is_enc x Hx Hv ltac:(lia)) as (l' & a' & Hl' & Ha' & E).
  assert (Hcan : canonical x = true) by (rewrite E; apply enc_canonical; lia).
  pose proof (Hc Hcan) as Ex. clear E l' a' Hl' Ha'.
  pose proof (quarter_bound l a ltac:(lia) Ha) as Hq.
  pose proof (pow4_pos (l - 1) ltac:(lia)) as H4.
  assert (E4 : 4 ^ l = 4 * 4 ^ (l - 1)).
  { replace l with (l - 1 + 1) at 1 by lia. apply pow4_succ. lia. }
  rewrite (parent_view x l a) by (assumption || lia).
  rewrite ET.
  assert (ECP : S2CellId.child_position x = a mod 4).
  { unfold S2CellId.child_position. rewrite Hv, EL, EP. cbn [negb].
    replace (l =? 0) with false by (symmetry; apply Z.eqb_neq; lia).
    rewrite land3_mod4, E4, mod_mod4 by lia.
    apply to_int_small. pose proof (digit_range a). lia. }
  rewrite ECP.
  split; [apply enc_valid; lia|].
  split; [apply enc_level; lia|].
  split.
  { unfold S2CellId.ToOldFormat.
    rewrite ConvertToOldFormat_enc, parent_cell by (rewrite ?pow4; lia).
    reflexivity. }
  split; [rewrite child_position_cell by lia; reflexivity|].
  split; [apply digit_range|].
  rewrite child_enc by (try apply digit_range; lia).
  replace (l - 1 + 1) with l by lia.
  replace (4 * (a / 4) + a mod 4) with a
    by (pose proof (Z.div_mod a 4 ltac:(lia)); lia).
  symmetry. exact Ex.
Qed.

Lemma compact_parent_agrees_witness :
  let x := S2CellId.FromString "5/13202" in
  S2CellId.child (S2CellId.parent x) (S2CellId.child_position x) = x.
Proof.
  cbv zeta.
  destruct (compact_parent_agrees (S2CellId.FromString "5/13202"))
    as (_ & _ & _ & _ & _ & E).
  - word_range.
  - reflexivity.
  - reflexivity.
  - exact E.
Defined.

(** X18.  [parent(int)] of a valid path identifier, for a target depth up
    to its own, converts to the ancestor that the curve position gives at
    that depth, on the short-span loop and on the delegated long span
    alike. *)
Theorem compact_parent_at_agrees (x t : Z) :
  0 <= x < 2 ^ 64 ->
  S2CellId.is_valid x = true ->
  0 <= t <= S2CellId.level x ->
  exists r,
    S2CellId.parent_at x t = Some r
    /\ S2CellId.is_valid r = true
    /\ S2CellId.ToOldFormat r = s2v1.parent_at (S2CellId.ToOldFormat x) t.
Proof.
  intros Hx Hv Ht.
  destruct (valid_cell_view x Hx Hv) as (l & a & Hl & Ha & EL & EF & EP & ET & Hc).
  rewrite EL in Ht. rewrite ET.
  destruct (Z.eq_dec t l) as [->|Hne].
  - exists x.
    split.
    { unfold S2CellId.parent_at. change S2CellId.kMaxLevel with 28.
      replace ((l <? 0) || (l >? 28)) with false.
      2:{ symmetry. apply orb_false_intro.
          - apply Z.ltb_ge; lia.
          - rewrite Z.gtb_ltb. apply Z.ltb_ge; lia. }
      rewrite Z.geb_leb, EL, Z.leb_refl. reflexivity. }
    split; [exact Hv|].
    rewrite ET, parent_at_cell4 by lia.
    rewrite Z.sub_diag, Z.pow_0_r, Z.div_1_r. reflexivity.
  - destruct (valid_deep_is_enc x Hx Hv ltac:(lia)) as (l' & a' & Hl' & Ha' & E).
    assert (Hcan : canonical x = true) by (rewrite E; apply enc_canonical; lia).
    rewrite (Hc Hcan).
    pose proof (ancestor_index_bound l a t ltac:(lia) Ha) as Hb.
    exists (enc t (a / 4 ^ (l - t))).
    split; [apply parent_at_enc; lia|].
    split; [apply enc_valid; lia|].
    unfold S2CellId.ToOldFormat.
    rewrite ConvertToOldFormat_enc, parent_at_cell4 by lia. reflexivity.
Qed.

Lemma compact_parent_at_agrees_witness :
  exists r,
    S2CellId.parent_at (S2CellId.FromFaceLevel 4 20) 3 = Some r
    /\ S2CellId.is_valid r = true
    /\ S2CellId.ToOldFormat r
       = s2v1.parent_at (S2CellId.ToOldFormat (S2CellId.FromFaceLevel 4 20)) 3.
Proof.
  apply (compact_parent_at_agrees (S2CellId.FromFaceLevel 4 20) 3).
  - word_range.
  - reflexivity.
  - vm_compute. split; intro; discriminate.
Defined.

End CompactAgreement.

(* ================================================================== *)
(** * Traversal with the path identifier *)
(* ================================================================== *)

Section CompactTraversal.

Lemma enc_not_none (l a : Z) :
  0 <= l <= 28 -> 0 <= a < 6 * 4 ^ l -> enc l a <> S2CellId.None.
Proof.
  intros Hl Ha. destruct (enc_fields l a Hl Ha) as (Hr & _).
  change S2CellId.None with 0. lia.
Qed.

Lemma ToOldFormat_enc (l a : Z) :
  0 <= l <= 28 -> 0 <= a < 6 * 4 ^ l ->
  S2CellId.ToOldFormat (enc l a) = cell l a.
Proof. intros. apply ConvertToOldFormat_enc; lia. Qed.

Lemma FromS2CellId_cell (l a : Z) :
  0 <= l <= 28 -> 0 <= a < 8 * 4 ^ l ->
  S2CellId.FromS2CellId (cell l a)
  = if a <? 6 * 4 ^ l then enc l a else S2CellId.None.
Proof.
  intros Hl Ha. unfold S2CellId.FromS2CellId.
  destruct (Z.ltb_spec a (6 * 4 ^ l)).
  - apply ConvertFromOldFormat_cell; lia.
  - apply ConvertFromOldFormat_invalid, invalid_cell_past_end; lia.
Qed.

Lemma next_view (x l a : Z) :
  S2CellId.ToOldFormat x = cell l a ->
  0 <= l <= 28 -> 0 <= a < 6 * 4 ^ l ->
  S2CellId.next x
  = if a + 1 <? 6 * 4 ^ l then enc l (a + 1) else S2CellId.None.
Proof.
  intros ET Hl Ha. pose proof (pow4_pos l ltac:(lia)).
  unfold S2CellId.next. rewrite ET, next_cell by lia.
  cbv zeta. apply convert_back; lia.
Qed.

Lemma prev_view (x l a : Z) :
  S2CellId.ToOldFormat x = cell l a ->
  0 <= l <= 28 -> 0 <= a < 6 * 4 ^ l ->
  S2CellId.prev x = if a =? 0 then S2CellId.None else enc l (a - 1).
Proof.
  intros ET Hl Ha. pose proof (pow4_pos l ltac:(lia)).
  unfold S2CellId.prev. rewrite ET.
  destruct (Z.eqb_spec a 0) as [->|Hne].
  - rewrite prev_cell_first by lia. cbv zeta.
    rewrite convert_back by lia.
    replace (8 * 4 ^ l - 1 <? 6 * 4 ^ l) with false
      by (symmetry; apply Z.ltb_ge; lia).
    reflexivity.
  - rewrite prev_cell by lia. cbv zeta.
    rewrite convert_back by lia.
    replace (a - 1 <? 6 * 4 ^ l) with true
      by (symmetry; apply Z.ltb_lt; lia).
    reflexivity.
Qed.

Lemma next_wrap_view (x l a : Z) :
  S2CellId.ToOldFormat x = cell l a ->
  0 <= l <= 28 -> 0 <= a < 6 * 4 ^ l ->
  S2CellId.next_wrap x
  = enc l (if a + 1 <? 6 * 4 ^ l then a + 1 else 0).
Proof.
  intros ET Hl Ha. pose proof (pow4_pos l ltac:(lia)).
  unfold S2CellId.next_wrap. rewrite ET, next_wrap_cell by lia.
  cbv zeta.
  destruct (Z.ltb_spec (a + 1) (6 * 4 ^ l)).
  - rewrite convert_back by lia.
    replace (a + 1 <? 6 * 4 ^ l) with true
      by (symmetry; apply Z.ltb_lt; lia).
    reflexivity.
  - rewrite convert_back by lia.
    replace (0 <? 6 * 4 ^ l) with true
      by (symmetry; apply Z.ltb_lt; lia).
    reflexivity.
Qed.

Lemma prev_wrap_view (x l a : Z) :
  S2CellId.ToOldFormat x = cell l a ->
  0 <= l <= 28 -> 0 <= a < 6 * 4 ^ l ->
  S2CellId.prev_wrap x
  = enc l (if a =? 0 then 6 * 4 ^ l - 1 else a - 1).
Proof.
  intros ET Hl Ha. pose proof (pow4_pos l ltac:(lia)).
  unfold S2CellId.prev_wrap. rewrite ET, prev_wrap_cell by lia.
  cbv zeta.
  destruct (Z.eqb_spec a 0).
  - rewrite convert_back by lia.
    replace (6 * 4 ^ l - 1 <? 6 * 4 ^ l) with true
      by (symmetry; apply Z.ltb_lt; lia).
    reflexivity.
  - rewrite convert_back by lia.
    replace (a - 1 <? 6 * 4 ^ l) with true
      by (symmetry; apply Z.ltb_lt; lia).
    reflexivity.
Qed.

Lemma Begin_enc (l : Z) : 0 <= l <= 28 -> S2CellId.Begin l = enc l 0.
Proof.
  intros Hl. pose proof (pow4_pos l ltac:(lia)).
  unfold S2CellId.Begin. change S2CellId.kMaxLevel with 28.
  replace (l >? 28) with false
    by (symmetry; rewrite Z.gtb_ltb; apply Z.ltb_ge; lia).
  rewrite Begin_cell, FromS2CellId_cell by lia.
  replace (0 <? 6 * 4 ^ l) with true by (symmetry; apply Z.ltb_lt; lia).
  reflexivity.
Qed.

Lemma End_none (l : Z) : 0 <= l -> S2CellId.End l = S2CellId.None.
Proof.
  intros Hl. unfold S2CellId.End. change S2CellId.kMaxLevel with 28.
  destruct (Z.gtb_spec l 28); [reflexivity|].
  pose proof (pow4_pos l ltac:(lia)).
  rewrite End_cell, FromS2CellId_cell by lia.
  replace (6 * 4 ^ l <? 6 * 4 ^ l) with false
    by (symmetry; apply Z.ltb_ge; lia).
  reflexivity.
Qed.

Lemma iter_next_enc (l : Z) (k : nat) :
  0 <= l <= 28 -> Z.of_nat k < 6 * 4 ^ l ->
  Nat.iter k S2CellId.next (S2CellId.Begin l) = enc l (Z.of_nat k).
Proof.
  intros Hl. induction k as [|k IH]; intros Hk.
  - apply Begin_enc; lia.
  - rewrite Nat.iter_succ, IH by lia.
    rewrite (next_view _ l (Z.of_nat k)) by (try apply ToOldFormat_enc; lia).
    replace (Z.of_nat k + 1 <? 6 * 4 ^ l) with true
      by (symmetry; apply Z.ltb_lt; lia).
    f_equal. lia.
Qed.

Lemma iter_next_cell (l : Z) (k : nat) :
  0 <= l <= 30 -> Z.of_nat k < 8 * 4 ^ l ->
  Nat.iter k s2v1.next (s2v1.Begin l) = cell l (Z.of_nat k).
Proof.
  intros Hl. induction k as [|k IH]; intros Hk.
  - apply Begin_cell; lia.
  - rewrite Nat.iter_succ, IH, next_cell by lia. f_equal. lia.
Qed.

(** X19.  [next] and [prev] on a valid path identifier follow the curve
    position: [next] is [None] exactly at the last cell of the level
    (where the curve position reaches [End]), [prev] is [None] exactly at
    the first one, and otherwise the result is valid, on the same level,
    converts to the neighbour of the converted identifier, and the other
    operation leads back to a canonical identifier. *)
Theorem compact_next_prev (x : Z) :
  0 <= x < 2 ^ 64 ->
  S2CellId.is_valid x = true ->
  (S2CellId.next x = S2CellId.None
   <-> s2v1.next (S2CellId.ToOldFormat x) = s2v1.End (S2CellId.level x))
  /\ (S2CellId.prev x = S2CellId.None
      <-> S2CellId.ToOldFormat x = s2v1.Begin (S2CellId.level x))
  /\ (S2CellId.next x <> S2CellId.None ->
      S2CellId.is_valid (S2CellId.next x) = true
      /\ S2CellId.level (S2CellId.next x) = S2CellId.level x
      /\ S2CellId.ToOldFormat (S2CellId.next x)
         = s2v1.next (S2CellId.ToOldFormat x)
      /\ (canonical x = true -> S2CellId.prev (S2CellId.next x) = x))
  /\ (S2CellId.prev x <> S2CellId.None ->
      S2CellId.is_valid (S2CellId.prev x) = true
      /\ S2CellId.level (S2CellId.prev x) = S2CellId.level x
      /\ S2CellId.ToOldFormat (S2CellId.prev x)
         = s2v1.prev (S2CellId.ToOldFormat x)
      /\ (canonical x = true -> S2CellId.next (S2CellId.prev x) = x)).
Proof.
  intros Hx Hv.
  destruct (valid_cell_view x Hx Hv) as (l & a & Hl & Ha & EL & EF & EP & ET & Hc).
  pose proof (pow4_pos l ltac:(lia)) as H4.
  rewrite (next_view x l a ET Hl Ha), (prev_view x l a ET Hl Ha).
  rewrite ET, EL, next_cell, End_cell, Begin_cell by lia.
  split; [|split; [|split]].
  - destruct (Z.ltb_spec (a + 1) (6 * 4 ^ l)) as [Hlt|Hge].
    + split; intros E.
      * exfalso. revert E. apply enc_not_none; lia.
      * apply cell_inj in E; lia.
    + split; intros E; [f_equal; lia|reflexivity].
  - destruct (Z.eqb_spec a 0) as [->|Hne].
    + split; reflexivity.
    + split; intros E.
      * exfalso. revert E. apply enc_not_none; lia.
      * apply cell_inj in E; lia.
  - destruct (Z.ltb_spec (a + 1) (6 * 4 ^ l)) as [Hlt|Hge];
      [intros _|intros N; exfalso; apply N; reflexivity].
    split; [apply enc_valid; lia|].
    split; [apply enc_level; lia|].
    split; [apply ToOldFormat_enc; lia|].
    intros C.
    rewrite (prev_view _ l (a + 1)) by (try apply ToOldFormat_enc; lia).
    replace (a + 1 =? 0) with false by (symmetry; apply Z.eqb_neq; lia).
    replace (a + 1 - 1) with a by lia. symmetry. apply Hc, C.
  - destruct (Z.eqb_spec a 0) as [->|Hne];
      [intros N; exfalso; apply N; reflexivity|intros _].
    split; [apply enc_valid; lia|].
    split; [apply enc_level; lia|].
    split; [rewrite prev_cell by lia; apply ToOldFormat_enc; lia|].
    intros C.
    rewrite (next_view _ l (a - 1)) by (try apply ToOldFormat_enc; lia).
    replace (a - 1 + 1) with a by lia.
    replace (a <? 6 * 4 ^ l) with true by (symmetry; apply Z.ltb_lt; lia).
    symmetry. apply Hc, C.
Qed.

Lemma compact_next_prev_witness :
  let x := S2CellId.FromString "5/3" in
  S2CellId.next x = S2CellId.None
  /\ S2CellId.prev (S2CellId.FromString "0/0") = S2CellId.None.
Proof.
  cbv zeta. split.
  - destruct (compact_next_prev (S2CellId.FromString "5/3")) as (E & _).
    + word_range.
    + reflexivity.
    + apply E. reflexivity.
  - destruct (compact_next_prev (S2CellId.FromString "0/0")) as (_ & E & _).
    + word_range.
    + reflexivity.
    + apply E. reflexivity.
Defined.

(** X20.  The loop from [Begin(level)] with [next] until [End(level)]:
    [End] is [None] at every level, [Begin] is the valid first cell of a
    level up to 28 (and [None] above), the cells reached by fewer than
    6 * 4^level steps are valid and convert to the cells the curve
    position reaches, and step number 6 * 4^level gives [End]. *)
Theorem compact_level_iteration (l : Z) :
  0 <= l ->
  S2CellId.End l = S2CellId.None
  /\ (l > 28 -> S2CellId.Begin l = S2CellId.None)
  /\ (l <= 28 ->
      S2CellId.is_valid (S2CellId.Begin l) = true
      /\ S2CellId.level (S2CellId.Begin l) = l
      /\ S2CellId.face (S2CellId.Begin l) = 0
      /\ S2CellId.ToOldFormat (S2CellId.Begin l) = s2v1.Begin l
      /\ S2CellId.prev (S2CellId.Begin l) = S2CellId.None
      /\ (forall k : nat,
             Z.of_nat k < 6 * 4 ^ l ->
             let c := Nat.iter k S2CellId.next (S2CellId.Begin l) in
             S2CellId.is_valid c = true
             /\ S2CellId.level c = l
             /\ S2CellId.ToOldFormat c
                = Nat.iter k s2v1.next (s2v1.Begin l))
      /\ Nat.iter (Z.to_nat (6 * 4 ^ l)) S2CellId.next (S2CellId.Begin l)
         = S2CellId.End l).
Proof.
  intros H0.
  split; [apply End_none; lia|].
  split.
  { intros Hl. unfold S2CellId.Begin. change S2CellId.kMaxLevel with 28.
    replace (l >? 28) with true
      by (symmetry; rewrite Z.gtb_ltb; apply Z.ltb_lt; lia).
    reflexivity. }
  intros Hl.
  pose proof (pow4_pos l ltac:(lia)) as H4.
  rewrite Begin_enc by lia.
  split; [apply enc_valid; lia|].
  split; [apply enc_level; lia|].
  split; [rewrite enc_face by lia; apply Z.div_0_l; lia|].
  split; [rewrite Begin_cell by lia; apply ToOldFormat_enc; lia|].
  split.
  { rewrite (prev_view _ l 0) by (try apply ToOldFormat_enc; lia).
    reflexivity. }
  split.
  { intros k Hk. cbv zeta.
    rewrite <- Begin_enc, iter_next_enc, iter_next_cell by lia.
    split; [apply enc_valid; lia|].
    split; [apply enc_level; lia|].
    apply ToOldFormat_enc; lia. }
  rewrite End_none by lia.
  replace (Z.to_nat (6 * 4 ^ l)) with (S (Z.to_nat (6 * 4 ^ l - 1))) by lia.
  rewrite Nat.iter_succ, <- Begin_enc, iter_next_enc by lia.
  rewrite (next_view _ l (Z.of_nat (Z.to_nat (6 * 4 ^ l - 1))))
    by (try apply ToOldFormat_enc; lia).
  replace (Z.of_nat (Z.to_nat (6 * 4 ^ l - 1)) + 1 <? 6 * 4 ^ l) with false
    by (symmetry; apply Z.ltb_ge; lia).
  reflexivity.
Qed.

Lemma compact_level_iteration_witness :
  Nat.iter 24 S2CellId.next (S2CellId.Begin 1) = S2CellId.End 1.
Proof.
  destruct (compact_level_iteration 1) as (_ & _ & H).
  - lia.
  - destruct H as (_ & _ & _ & _ & _ & _ & E); [lia|].
    exact E.
Defined.

(** X21.  [next_wrap] and [prev_wrap] on a valid path identifier always
    give a valid identifier of the same level, which converts to the
    wrapping neighbour of the converted identifier; they undo each other
    on canonical identifiers, and [next_wrap] is [next] wherever [next]
    is not [None]. *)
Theorem compact_wrap_navigation (x : Z) :
  0 <= x < 2 ^ 64 ->
  S2CellId.is_valid x = true ->
  S2CellId.is_valid (S2CellId.next_wrap x) = true
  /\ S2CellId.is_valid (S2CellId.prev_wrap x) = true
  /\ S2CellId.level (S2CellId.next_wrap x) = S2CellId.level x
  /\ S2CellId.level (S2CellId.prev_wrap x) = S2CellId.level x
  /\ S2CellId.ToOldFormat (S2CellId.next_wrap x)
     = s2v1.next_wrap (S2CellId.ToOldFormat x)
  /\ S2CellId.ToOldFormat (S2CellId.prev_wrap x)
     = s2v1.prev_wrap (S2CellId.ToOldFormat x)
  /\ (S2CellId.next x <> S2CellId.None ->
      S2CellId.next_wrap x = S2CellId.next x)
  /\ (S2CellId.next x = S2CellId.None ->
      S2CellId.next_wrap x = S2CellId.Begin (S2CellId.level x))
  /\ (canonical x = true ->
      S2CellId.prev_wrap (S2CellId.next_wrap x) = x
      /\ S2CellId.next_wrap (S2CellId.prev_wrap x) = x).
Proof.
  intros Hx Hv.
  destruct (valid_cell_view x Hx Hv) as (l & a & Hl & Ha & EL & EF & EP & ET & Hc).
  pose proof (pow4_pos l ltac:(lia)) as H4.
  rewrite (next_wrap_view x l a ET Hl Ha), (prev_wrap_view x l a ET Hl Ha).
  rewrite (next_view x l a ET Hl Ha).
  rewrite ET, EL, next_wrap_cell, prev_wrap_cell, Begin_enc by lia.
  assert (Hn : 0 <= (if a + 1 <? 6 * 4 ^ l then a + 1 else 0) < 6 * 4 ^ l)
    by (destruct (Z.ltb_spec (a + 1) (6 * 4 ^ l)); lia).
  assert (Hp : 0 <= (if a =? 0 then 6 * 4 ^ l - 1 else a - 1) < 6 * 4 ^ l)
    by (destruct (Z.eqb_spec a 0); lia).
  split; [apply enc_valid; lia|].
  split; [apply enc_valid; lia|].
  split; [apply enc_level; lia|].
  split; [apply enc_level; lia|].
  split; [apply ToOldFormat_enc; lia|].
  split; [apply ToOldFormat_enc; lia|].
  split.
  { destruct (Z.ltb_spec (a + 1) (6 * 4 ^ l));
      [reflexivity|intros N; exfalso; apply N; reflexivity]. }
  split.
  { destruct (Z.ltb_spec (a + 1) (6 * 4 ^ l)); [|reflexivity].
    intros E. exfalso. revert E. apply enc_not_none; lia. }
  intros C. split.
  - rewrite (prev_wrap_view _ l _ (ToOldFormat_enc l _ Hl Hn) Hl Hn).
    rewrite (Hc C). f_equal.
    destruct (Z.ltb_spec (a + 1) (6 * 4 ^ l)).
    + destruct (Z.eqb_spec (a + 1) 0); lia.
    + destruct (Z.eqb_spec 0 0); lia.
  - rewrite (next_wrap_view _ l _ (ToOldFormat_enc l _ Hl Hp) Hl Hp).
    rewrite (Hc C). f_equal.
    destruct (Z.eqb_spec a 0).
    + destruct (Z.ltb_spec (6 * 4 ^ l - 1 + 1) (6 * 4 ^ l)); lia.
    + destruct (Z.ltb_spec (a - 1 + 1) (6 * 4 ^ l)); lia.
Qed.

Lemma compact_wrap_navigation_witness :
  S2CellId.next_wrap (S2CellId.FromString "5/33") = S2CellId.Begin 2.
Proof.
  destruct (compact_wrap_navigation (S2CellId.FromString "5/33"))
    as (_ & _ & _ & _ & _ & _ & _ & E & _).
  - word_range.
  - reflexivity.
  - apply E. reflexivity.
Defined.

End CompactTraversal.

(* ================================================================== *)
(** * Descendants and ranges of the path identifier *)
(* ================================================================== *)

Section CompactDescendants.

Lemma pow4_split (m n : Z) : 0 <= m <= n -> 4 ^ n = 4 ^ m * 4 ^ (n - m).
Proof.
  intros H. rewrite <- Z.pow_add_r by lia. f_equal. lia.
Qed.

Lemma range_min_leaf (l a : Z) :
  0 <= l <= 30 -> 0 <= a < 6 * 4 ^ l ->
  s2v1.range_min (cell l a) = cell 30 (a * 4 ^ (30 - l)).
Proof.
  intros Hl Ha.
  rewrite range_min_cell by (rewrite ?pow4; lia).
  rewrite !cell_unfold, pow4 by lia.
  change (2 ^ (2 * (30 - 30))) with 1. lia.
Qed.

Lemma range_max_leaf (l a : Z) :
  0 <= l <= 30 -> 0 <= a < 6 * 4 ^ l ->
  s2v1.range_max (cell l a) = cell 30 ((a + 1) * 4 ^ (30 - l) - 1).
Proof.
  intros Hl Ha.
  rewrite range_max_cell by (rewrite ?pow4; lia).
  rewrite !cell_unfold, pow4 by lia.
  change (2 ^ (2 * (30 - 30))) with 1. lia.
Qed.

Lemma child_begin_at_view (x l a t : Z) :
  S2CellId.ToOldFormat x = cell l a -> S2CellId.level x = l ->
  0 <= l < t -> t <= 28 -> 0 <= a < 6 * 4 ^ l ->
  0 <= a * 4 ^ (t - l) < 6 * 4 ^ t
  /\ S2CellId.child_begin_at x t = enc t (a * 4 ^ (t - l)).
Proof.
  intros ET EL Hl Ht Ha.
  pose proof (pow4_pos l ltac:(lia)) as H4.
  pose proof (pow4_pos (t - l) ltac:(lia)) as H4'.
  pose proof (pow4_split l t ltac:(lia)) as E4.
  assert (Hb : 0 <= a * 4 ^ (t - l) < 6 * 4 ^ t) by nia.
  split; [exact Hb|].
  unfold S2CellId.child_begin_at. change S2CellId.kMaxLevel with 28.
  rewrite EL.
  replace ((t >? 28) || (t <=? l)) with false.
  2:{ symmetry. apply orb_false_intro.
      - rewrite Z.gtb_ltb. apply Z.ltb_ge; lia.
      - apply Z.leb_gt; lia. }
  rewrite ET, child_begin_at_cell, FromS2CellId_cell by lia.
  replace (a * 4 ^ (t - l) <? 6 * 4 ^ t) with true
    by (symmetry; apply Z.ltb_lt; lia).
  reflexivity.
Qed.

Lemma child_end_at_view (x l a t : Z) :
  S2CellId.ToOldFormat x = cell l a -> S2CellId.level x = l ->
  0 <= l < t -> t <= 28 -> 0 <= a < 6 * 4 ^ l ->
  S2CellId.child_end_at x t
  = if a + 1 <? 6 * 4 ^ l then enc t ((a + 1) * 4 ^ (t - l))
    else S2CellId.None.
Proof.
  intros ET EL Hl Ht Ha.
  pose proof (pow4_pos l ltac:(lia)) as H4.
  pose proof (pow4_pos (t - l) ltac:(lia)) as H4'.
  pose proof (pow4_split l t ltac:(lia)) as E4.
  unfold S2CellId.child_end_at. change S2CellId.kMaxLevel with 28.
  rewrite EL.
  replace ((t >? 28) || (t <=? l)) with false.
  2:{ symmetry. apply orb_false_intro.
      - rewrite Z.gtb_ltb. apply Z.ltb_ge; lia.
      - apply Z.leb_gt; lia. }
  rewrite ET, child_end_at_cell, FromS2CellId_cell by nia.
  destruct (Z.ltb_spec (a + 1) (6 * 4 ^ l)).
  - replace ((a + 1) * 4 ^ (t - l) <? 6 * 4 ^ t) with true
      by (symmetry; apply Z.ltb_lt; nia).
    reflexivity.
  - replace ((a + 1) * 4 ^ (t - l) <? 6 * 4 ^ t) with false
      by (symmetry; apply Z.ltb_ge; nia).
    reflexivity.
Qed.

(** X22.  The children of a valid path identifier of depth below 28 are
    visited by [child_begin], [next], [child_end]: [child_begin] is child
    0, [next] of child 0, 1, 2 is child 1, 2, 3, and [child_end] is [next]
    of child 3, that is the first child of the next cell of the level, or
    [None] when the identifier is the last cell of its level.  At depth 28
    both [child_begin] and [child_end] are [None]. *)
Theorem compact_children_iteration (x : Z) :
  0 <= x < 2 ^ 64 ->
  S2CellId.is_valid x = true ->
  (S2CellId.level x = 28 ->
   S2CellId.child_begin x = S2CellId.None
   /\ S2CellId.child_end x = S2CellId.None)
  /\ (S2CellId.level x < 28 ->
      S2CellId.child_begin x = S2CellId.child x 0
      /\ S2CellId.next (S2CellId.child x 0) = S2CellId.child x 1
      /\ S2CellId.next (S2CellId.child x 1) = S2CellId.child x 2
      /\ S2CellId.next (S2CellId.child x 2) = S2CellId.child x 3
      /\ S2CellId.next (S2CellId.child x 3) = S2CellId.child_end x
      /\ (S2CellId.next x = S2CellId.None ->
          S2CellId.child_end x = S2CellId.None)
      /\ (S2CellId.next x <> S2CellId.None ->
          S2CellId.child_end x = S2CellId.child_begin (S2CellId.next x))).
Proof.
  intros Hx Hv.
  destruct (valid_cell_view x Hx Hv) as (l & a & Hl & Ha & EL & EF & EP & ET & Hc).
  pose proof (pow4_pos l ltac:(lia)) as H4.
  split.
  { intros E. unfold S2CellId.child_begin, S2CellId.child_end.
    rewrite E. split; reflexivity. }
  intros Hlt. rewrite EL in Hlt.
  pose proof (pow4_succ l ltac:(lia)) as E4.
  assert (Hch : forall p, 0 <= p < 4 ->
                S2CellId.child x p = enc (l + 1) (4 * a + p))
    by (intros p Hp; apply child_view; assumption || lia).
  assert (Hnx : forall p, 0 <= p < 3 ->
                S2CellId.next (enc (l + 1) (4 * a + p))
                = enc (l + 1) (4 * a + (p + 1))).
  { intros p Hp.
    rewrite (next_view _ (l + 1) (4 * a + p))
      by (try apply ToOldFormat_enc; lia).
    replace (4 * a + p + 1 <? 6 * 4 ^ (l + 1)) with true
      by (symmetry; apply Z.ltb_lt; lia).
    f_equal. lia. }
  assert (Hce : S2CellId.child_end x
                = if a + 1 <? 6 * 4 ^ l then enc (l + 1) (4 * a + 4)
                  else S2CellId.None).
  { unfold S2CellId.child_end. change S2CellId.kMaxLevel with 28.
    rewrite EL.
    replace (l >=? 28) with false
      by (symmetry; rewrite Z.geb_leb; apply Z.leb_gt; lia).
    rewrite ET, child_end_cell by lia. cbv zeta.
    rewrite convert_back by lia.
    destruct (Z.ltb_spec (a + 1) (6 * 4 ^ l)).
    - replace (4 * a + 4 <? 6 * 4 ^ (l + 1)) with true
        by (symmetry; apply Z.ltb_lt; lia).
      reflexivity.
    - replace (4 * a + 4 <? 6 * 4 ^ (l + 1)) with false
        by (symmetry; apply Z.ltb_ge; lia).
      reflexivity. }
  rewrite !Hch by lia.
  split.
  { unfold S2CellId.child_begin. change S2CellId.kMaxLevel with 28.
    rewrite EL.
    replace (l >=? 28) with false
      by (symmetry; rewrite Z.geb_leb; apply Z.leb_gt; lia).
    apply Hch. lia. }
  split; [apply (Hnx 0); lia|].
  split; [apply (Hnx 1); lia|].
  split; [apply (Hnx 2); lia|].
  rewrite Hce, (next_view x l a ET Hl Ha).
  split.
  { rewrite (next_view _ (l + 1) (4 * a + 3))
      by (try apply ToOldFormat_enc; lia).
    replace (4 * a + 3 + 1) with (4 * a + 4) by lia.
    destruct (Z.ltb_spec (a + 1) (6 * 4 ^ l)).
    - replace (4 * a + 4 <? 6 * 4 ^ (l + 1)) with true
        by (symmetry; apply Z.ltb_lt; lia).
      reflexivity.
    - replace (4 * a + 4 <? 6 * 4 ^ (l + 1)) with false
        by (symmetry; apply Z.ltb_ge; lia).
      reflexivity. }
  destruct (Z.ltb_spec (a + 1) (6 * 4 ^ l)) as [Hin|Hout].
  - split; [intros E; exfalso; revert E; apply enc_not_none; lia|].
    intros _. unfold S2CellId.child_begin. change S2CellId.kMaxLevel with 28.
    rewrite enc_level by lia.
    replace (l >=? 28) with false
      by (symmetry; rewrite Z.geb_leb; apply Z.leb_gt; lia).
    rewrite child_enc by lia. f_equal. lia.
  - split; [reflexivity|intros N; exfalso; apply N; reflexivity].
Qed.

Lemma compact_children_iteration_witness :
  let x := S2CellId.FromString "3/21" in
  S2CellId.next (S2CellId.child x 3) = S2CellId.child_end x.
Proof.
  cbv zeta.
  destruct (compact_children_iteration (S2CellId.FromString "3/21"))
    as (_ & H).
  - word_range.
  - reflexivity.
  - destruct H as (_ & _ & _ & _ & E & _); [reflexivity|exact E].
Defined.

(** X23.  [child_begin(int)] and [child_end(int)] on a valid path
    identifier: for a target depth that is not strictly below the
    identifier, or beyond 28, both are [None]; otherwise [child_begin] is
    valid at the target depth, converts to the first descendant that the
    curve position gives there, has the identifier as its ancestor, and
    [child_end] is [child_begin] of the next cell of the level, or [None]
    when there is none. *)
Theorem compact_descendants (x t : Z) :
  0 <= x < 2 ^ 64 ->
  S2CellId.is_valid x = true ->
  (t <= S2CellId.level x \/ t > 28 ->
   S2CellId.child_begin_at x t = S2CellId.None
   /\ S2CellId.child_end_at x t = S2CellId.None)
  /\ (S2CellId.level x < t <= 28 ->
      S2CellId.is_valid (S2CellId.child_begin_at x t) = true
      /\ S2CellId.level (S2CellId.child_begin_at x t) = t
      /\ S2CellId.ToOldFormat (S2CellId.child_begin_at x t)
         = s2v1.child_begin_at (S2CellId.ToOldFormat x) t
      /\ S2CellId.contains x (S2CellId.child_begin_at x t) = true
      /\ (canonical x = true ->
          S2CellId.parent_at (S2CellId.child_begin_at x t)
                             (S2CellId.level x) = Some x)
      /\ (S2CellId.next x = S2CellId.None ->
          S2CellId.child_end_at x t = S2CellId.None)
      /\ (S2CellId.next x <> S2CellId.None ->
          S2CellId.child_end_at x t
          = S2CellId.child_begin_at (S2CellId.next x) t)).
Proof.
  intros Hx Hv.
  destruct (valid_cell_view x Hx Hv) as (l & a & Hl & Ha & EL & EF & EP & ET & Hc).
  pose proof (pow4_pos l ltac:(lia)) as H4.
  split.
  { intros Hout.
    unfold S2CellId.child_begin_at, S2CellId.child_end_at.
    change S2CellId.kMaxLevel with 28.
    replace ((t >? 28) || (t <=? S2CellId.level x)) with true.
    - split; reflexivity.
    - symmetry. apply orb_true_iff. rewrite Z.gtb_ltb.
      destruct Hout; [right; apply Z.leb_le|left; apply Z.ltb_lt]; lia. }
  intros Ht. rewrite EL in Ht.
  pose proof (pow4_pos (t - l) ltac:(lia)) as H4'.
  destruct (child_begin_at_view x l a t ET EL ltac:(lia) ltac:(lia) Ha)
    as (Hb & Eb).
  rewrite Eb, (child_end_at_view x l a t ET EL) by lia.
  rewrite (next_view x l a ET Hl Ha).
  split; [apply enc_valid; lia|].
  split; [apply enc_level; lia|].
  split; [rewrite ET, child_begin_at_cell by lia; apply ToOldFormat_enc; lia|].
  split.
  { unfold S2CellId.contains. rewrite ET, ToOldFormat_enc by lia.
    apply contains_cell_deep; lia. }
  split.
  { intros C. rewrite EL, parent_at_enc by lia.
    rewrite Z.div_mul by lia. f_equal. symmetry. apply Hc, C. }
  destruct (Z.ltb_spec (a + 1) (6 * 4 ^ l)) as [Hin|Hout].
  - split; [intros E; exfalso; revert E; apply enc_not_none; lia|].
    intros _.
    destruct (child_begin_at_view (enc l (a + 1)) l (a + 1) t)
      as (_ & E); try lia.
    + apply ToOldFormat_enc; lia.
    + apply enc_level; lia.
  - split; [reflexivity|intros N; exfalso; apply N; reflexivity].
Qed.

Lemma compact_descendants_witness :
  let x := S2CellId.FromString "1/30" in
  S2CellId.child_begin_at x 2 = S2CellId.None
  /\ S2CellId.child_end_at x 9 = S2CellId.child_begin_at (S2CellId.next x) 9.
Proof.
  cbv zeta. split.
  - destruct (compact_descendants (S2CellId.FromString "1/30") 2)
      as (H & _).
    + word_range.
    + reflexivity.
    + destruct H as (E & _); [left; vm_compute; intro; discriminate|exact E].
  - destruct (compact_descendants (S2CellId.FromString "1/30") 9)
      as (_ & H).
    + word_range.
    + reflexivity.
    + destruct H as (_ & _ & _ & _ & _ & _ & E).
      * vm_compute. split; [reflexivity|intro; discriminate].
      * apply E. vm_compute. intro; discriminate.
Defined.

(** X24.  The range of a valid path identifier ends at depth 28, not at
    the leaves: [range_min] and [range_max] are valid identifiers of depth
    28 that convert to the first and last descendant of the converted
    identifier at depth 28; the identifier contains both; at depth 28
    both are the identifier itself, and above it [range_min] is
    [child_begin(28)]. *)
Theorem compact_range_depth (x : Z) :
  0 <= x < 2 ^ 64 ->
  S2CellId.is_valid x = true ->
  S2CellId.is_valid (S2CellId.range_min x) = true
  /\ S2CellId.is_valid (S2CellId.range_max x) = true
  /\ S2CellId.level (S2CellId.range_min x) = 28
  /\ S2CellId.level (S2CellId.range_max x) = 28
  /\ S2CellId.ToOldFormat (S2CellId.range_min x)
     = s2v1.child_begin_at (S2CellId.ToOldFormat x) 28
  /\ S2CellId.ToOldFormat (S2CellId.range_max x)
     = s2v1.prev (s2v1.child_end_at (S2CellId.ToOldFormat x) 28)
  /\ S2CellId.contains x (S2CellId.range_min x) = true
  /\ S2CellId.contains x (S2CellId.range_max x) = true
  /\ (S2CellId.level x = 28 ->
      S2CellId.range_min x = x /\ S2CellId.range_max x = x)
  /\ (S2CellId.level x < 28 ->
      S2CellId.range_min x = S2CellId.child_begin_at x 28).
Proof.
  intros Hx Hv.
  destruct (valid_cell_view x Hx Hv) as (l & a & Hl & Ha & EL & EF & EP & ET & Hc).
  pose proof (pow4_pos l ltac:(lia)) as H4.
  pose proof (pow4_pos (28 - l) ltac:(lia)) as H4'.
  pose proof (pow4_split l 28 ltac:(lia)) as E28.
  assert (E30 : 4 ^ (30 - l) = 4 ^ (28 - l) * 4 ^ (30 - 28)).
  { rewrite <- Z.pow_add_r by lia. f_equal. lia. }
  pose proof (pow4_pos (30 - l) ltac:(lia)) as H4''.
  pose proof (pow4_split l 30 ltac:(lia)) as E30'.
  assert (Hlo30 : 0 <= a * 4 ^ (30 - l) < 6 * 4 ^ 30) by nia.
  assert (Hhi30 : 0 <= (a + 1) * 4 ^ (30 - l) - 1 < 6 * 4 ^ 30) by nia.
  assert (Hlo : 0 <= a * 4 ^ (28 - l) < 6 * 4 ^ 28) by nia.
  assert (Hhi : 0 <= (a + 1) * 4 ^ (28 - l) - 1 < 6 * 4 ^ 28) by nia.
  assert (Emin : S2CellId.range_min x = enc 28 (a * 4 ^ (28 - l))).
  { unfold S2CellId.range_min. rewrite Hv. cbn [negb]. cbv zeta.
    rewrite ET, is_valid_cell4 by lia. cbn [negb].
    rewrite range_min_leaf by lia.
    rewrite is_valid_cell4 by lia.
    cbn [negb]. rewrite level_cell by lia.
    change S2CellId.kMaxLevel with 28. change (30 >? 28) with true.
    cbv iota.
    rewrite parent_at_cell4 by lia.
    rewrite E30, Z.mul_assoc, Z.div_mul by (cbn; lia).
    unfold S2CellId.FromS2CellId. apply ConvertFromOldFormat_cell; lia. }
  assert (Emax : S2CellId.range_max x = enc 28 ((a + 1) * 4 ^ (28 - l) - 1)).
  { unfold S2CellId.range_max. rewrite Hv. cbn [negb]. cbv zeta.
    rewrite ET, is_valid_cell4 by lia. cbn [negb].
    rewrite range_max_leaf by lia.
    rewrite is_valid_cell4 by lia.
    cbn [negb]. rewrite level_cell by lia.
    change S2CellId.kMaxLevel with 28. change (30 >? 28) with true.
    cbv iota.
    rewrite parent_at_cell4 by lia.
    replace (((a + 1) * 4 ^ (30 - l) - 1) / 4 ^ (30 - 28))
      with ((a + 1) * 4 ^ (28 - l) - 1).
    2:{ symmetry. apply quotient_is; [cbn; lia|].
        rewrite E30. change (4 ^ (30 - 28)) with 16. nia. }
    unfold S2CellId.FromS2CellId. apply ConvertFromOldFormat_cell; lia. }
  rewrite Emin, Emax, ET.
  split; [apply enc_valid; lia|].
  split; [apply enc_valid; lia|].
  split; [apply enc_level; lia|].
  split; [apply enc_level; lia|].
  split; [rewrite child_begin_at_cell by lia; apply ToOldFormat_enc; lia|].
  split.
  { rewrite child_end_at_cell, prev_cell by nia. apply ToOldFormat_enc; lia. }
  split.
  { unfold S2CellId.contains. rewrite ET, ToOldFormat_enc by lia.
    apply contains_cell_deep; lia. }
  split.
  { unfold S2CellId.contains. rewrite ET, ToOldFormat_enc by lia.
    apply contains_cell_deep; lia. }
  split.
  - rewrite EL. intros ->.
    assert (Ex : x = enc 28 a).
    { destruct (valid_deep_is_enc x Hx Hv ltac:(lia))
        as (l' & a' & Hl' & Ha' & E).
      apply Hc. rewrite E. apply enc_canonical; lia. }
    rewrite Z.sub_diag, Z.pow_0_r, !Z.mul_1_r.
    replace (a + 1 - 1) with a by lia.
    split; symmetry; exact Ex.
  - rewrite EL. intros Hlt.
    destruct (child_begin_at_view x l a 28 ET EL ltac:(lia) ltac:(lia) Ha)
      as (_ & E).
    symmetry. exact E.
Qed.

Lemma compact_range_depth_witness :
  S2CellId.level (S2CellId.range_max (S2CellId.FromString "4/012")) = 28.
Proof.
  destruct (compact_range_depth (S2CellId.FromString "4/012"))
    as (_ & _ & _ & E & _).
  - word_range.
  - reflexivity.
  - exact E.
Defined.

End CompactDescendants.

(* ================================================================== *)
(** * Containment, order and construction of the path identifier *)
(* ================================================================== *)

Section CompactRelations.

Lemma parent_at_self (x t : Z) :
  S2CellId.level x = t -> 0 <= t <= 28 -> S2CellId.parent_at x t = Some x.
Proof.
  intros EL Ht. unfold S2CellId.parent_at. change S2CellId.kMaxLevel with 28.
  replace ((t <? 0) || (t >? 28)) with false.
  2:{ symmetry. apply orb_false_intro.
      - apply Z.ltb_ge; lia.
      - rewrite Z.gtb_ltb. apply Z.ltb_ge; lia. }
  rewrite Z.geb_leb, EL, Z.leb_refl. reflexivity.
Qed.

(** A valid canonical identifier in its normal form. *)
Lemma canonical_cell_view (x : Z) :
  0 <= x < 2 ^ 64 -> S2CellId.is_valid x = true -> canonical x = true ->
  exists l a,
    0 <= l <= 28 /\ 0 <= a < 6 * 4 ^ l
    /\ x = enc l a
    /\ S2CellId.level x = l
    /\ S2CellId.ToOldFormat x = cell l a.
Proof.
  intros Hx Hv C.
  destruct (valid_cell_view x Hx Hv) as (l & a & Hl & Ha & EL & _ & _ & ET & Hc).
  exists l, a. repeat split; try assumption; try lia. apply Hc, C.
Qed.

Lemma child_position_at_cell (l a k : Z) :
  1 <= k <= l -> l <= 30 -> 0 <= a ->
  s2v1.child_position_at (cell l a) k = (a / 4 ^ (l - k)) mod 4.
Proof.
  intros Hk Hl Ha.
  unfold s2v1.child_position_at. rewrite to_int_land3.
  unfold U64.shr. change s2v1.kMaxLevel with 30.
  rewrite Z.shiftr_div_pow2 by lia. rewrite cell_unfold.
  replace (2 * (30 - k) + 1) with (2 * (30 - l) + (2 * (l - k) + 1)) by lia.
  rewrite (Z.pow_add_r 2 (2 * (30 - l))) by lia.
  pose proof (pow2_pos (2 * (30 - l)) ltac:(lia)).
  pose proof (pow2_pos (2 * (l - k) + 1) ltac:(lia)).
  rewrite Z.mul_comm, Z.div_mul_cancel_l by lia.
  replace (2 * (l - k) + 1) with (1 + 2 * (l - k)) by lia.
  rewrite Z.pow_add_r, Z.pow_1_r, pow4 by lia.
  pose proof (pow4_pos (l - k) ltac:(lia)).
  rewrite <- Z.div_div by lia.
  replace ((2 * a + 1) / 2) with a by (Z.div_mod_to_equations; lia).
  reflexivity.
Qed.

(** X25.  For valid canonical path identifiers, [contains] holds exactly
    when the second is at least as deep as the first and [parent(int)]
    leads from it to the first, at the first's depth. *)
Theorem compact_contains_iff_ancestor (x y : Z) :
  0 <= x < 2 ^ 64 -> 0 <= y < 2 ^ 64 ->
  S2CellId.is_valid x = true -> S2CellId.is_valid y = true ->
  canonical x = true -> canonical y = true ->
  (S2CellId.contains x y = true
   <-> S2CellId.level x <= S2CellId.level y
       /\ S2CellId.parent_at y (S2CellId.level x) = Some x).
Proof.
  intros Hx Hy Hvx Hvy Cx Cy.
  destruct (canonical_cell_view x Hx Hvx Cx) as (l & a & Hl & Ha & Ex & ELx & ETx).
  destruct (canonical_cell_view y Hy Hvy Cy) as (m & b & Hm & Hb & Ey & ELy & ETy).
  unfold S2CellId.contains. rewrite ETx, ETy, ELx, ELy.
  destruct (Z.le_gt_cases l m) as [Hle|Hgt].
  - rewrite contains_cell_deep by lia.
    pose proof (pow4_pos (m - l) ltac:(lia)) as H4.
    rewrite <- (quotient_is a b (4 ^ (m - l)) H4).
    destruct (Z.eq_dec l m) as [<-|Hne].
    + rewrite Z.sub_diag, Z.pow_0_r, Z.div_1_r.
      rewrite (parent_at_self y l ELy Hl), Ex, Ey.
      split.
      * intros ->. split; [lia|reflexivity].
      * intros (_ & E). injection E as E.
        apply enc_inj in E; lia.
    + rewrite Ey at 1. rewrite parent_at_enc, Ex by lia.
      pose proof (ancestor_bound m b l ltac:(lia) Hb) as Hq.
      split.
      * intros ->. split; [lia|reflexivity].
      * intros (_ & E). injection E as E.
        apply enc_inj in E; lia.
  - rewrite contains_cell_shallow by lia.
    split; [discriminate|intros (Hc & _); lia].
Qed.

Lemma compact_contains_iff_ancestor_witness :
  S2CellId.contains (S2CellId.FromString "2/03")
                    (S2CellId.FromString "2/03121") = true.
Proof.
  apply (compact_contains_iff_ancestor (S2CellId.FromString "2/03")
                                       (S2CellId.FromString "2/03121"));
    try reflexivity; word_range.
Defined.

(** X26.  On valid canonical path identifiers the comparison operators
    form a strict total order: of two identifiers one precedes the other
    or they are equal, [<=] is [<] or equality, and [>=] is [>] or
    equality.  In that order the children 0 and 1 of an identifier precede
    it and the children 2 and 3 follow it. *)
Theorem compact_order (x y : Z) :
  0 <= x < 2 ^ 64 -> 0 <= y < 2 ^ 64 ->
  S2CellId.is_valid x = true -> S2CellId.is_valid y = true ->
  canonical x = true -> canonical y = true ->
  (S2CellId.lt x y = true \/ x = y \/ S2CellId.lt y x = true)
  /\ (S2CellId.lt x y = true -> x <> y /\ S2CellId.lt y x = false)
  /\ (S2CellId.le x y = true <-> S2CellId.lt x y = true \/ x = y)
  /\ (S2CellId.ge x y = true <-> S2CellId.gt x y = true \/ x = y)
  /\ (S2CellId.level x < 28 ->
      S2CellId.lt (S2CellId.child x 0) x = true
      /\ S2CellId.lt (S2CellId.child x 1) x = true
      /\ S2CellId.lt x (S2CellId.child x 2) = true
      /\ S2CellId.lt x (S2CellId.child x 3) = true).
Proof.
  intros Hx Hy Hvx Hvy Cx Cy.
  destruct (canonical_cell_view x Hx Hvx Cx) as (l & a & Hl & Ha & Ex & ELx & ETx).
  destruct (canonical_cell_view y Hy Hvy Cy) as (m & b & Hm & Hb & Ey & ELy & ETy).
  assert (Inj : cell l a = cell m b -> x = y).
  { intros E. apply cell_inj in E; try lia.
    destruct E as (-> & ->). rewrite Ex, Ey. reflexivity. }
  unfold S2CellId.le, S2CellId.ge, S2CellId.gt, S2CellId.lt, s2v1.lt.
  rewrite ETx, ETy, ELx.
  split; [|split; [|split; [|split]]].
  - destruct (Z.lt_trichotomy (cell l a) (cell m b)) as [H|[H|H]].
    + left. apply Z.ltb_lt, H.
    + right; left. apply Inj, H.
    + right; right. apply Z.ltb_lt, H.
  - intros H. apply Z.ltb_lt in H. split.
    + intros E. rewrite <- E, ETx in ETy. lia.
    + apply Z.ltb_ge. lia.
  - rewrite negb_true_iff, Z.ltb_ge, Z.ltb_lt. split.
    + intros H. destruct (Z.eq_dec (cell l a) (cell m b)) as [E|N].
      * right. apply Inj, E.
      * left. lia.
    + intros [H|E]; [lia|]. rewrite <- E, ETx in ETy. lia.
  - rewrite negb_true_iff, Z.ltb_ge, Z.ltb_lt. split.
    + intros H. destruct (Z.eq_dec (cell l a) (cell m b)) as [E|N].
      * right. apply Inj, E.
      * left. lia.
    + intros [H|E]; [lia|]. rewrite <- E, ETx in ETy. lia.
  - intros Hlt.
    pose proof (pow4_pos l ltac:(lia)) as H4.
    pose proof (pow4_succ l ltac:(lia)) as E4.
    assert (Hch : forall p, 0 <= p < 4 ->
                  S2CellId.ToOldFormat (S2CellId.child x p)
                  = cell (l + 1) (4 * a + p)).
    { intros p Hp. rewrite Ex, child_enc by lia.
      apply ToOldFormat_enc; lia. }
    rewrite !Hch by lia.
    rewrite !cell_unfold.
    replace (2 * (30 - l)) with (2 + 2 * (30 - (l + 1))) by lia.
    rewrite Z.pow_add_r by lia.
    pose proof (pow2_pos (2 * (30 - (l + 1))) ltac:(lia)) as HQ.
    change (2 ^ 2) with 4.
    repeat split; apply Z.ltb_lt; nia.
Qed.

Lemma compact_order_witness :
  S2CellId.lt (S2CellId.child (S2CellId.FromString "3/2") 1)
              (S2CellId.FromString "3/2") = true.
Proof.
  destruct (compact_order (S2CellId.FromString "3/2")
                          (S2CellId.FromString "0/1"))
    as (_ & _ & _ & _ & H).
  - word_range.
  - word_range.
  - reflexivity.
  - reflexivity.
  - reflexivity.
  - reflexivity.
  - destruct H as (_ & E & _); [reflexivity|exact E].
Defined.

(** X27.  [child_position(int)] of a valid path identifier is -1 for a
    depth outside 1..level, and otherwise the child position, in 0..3,
    that the curve position reports for the converted identifier at that
    depth; at the identifier's own depth it is [child_position()]. *)
Theorem compact_child_position_at (x k : Z) :
  0 <= x < 2 ^ 64 ->
  S2CellId.is_valid x = true ->
  (k <= 0 \/ k > S2CellId.level x -> S2CellId.child_position_at x k = -1)
  /\ (1 <= k <= S2CellId.level x ->
      S2CellId.child_position_at x k
      = s2v1.child_position_at (S2CellId.ToOldFormat x) k
      /\ 0 <= S2CellId.child_position_at x k < 4)
  /\ S2CellId.child_position_at x (S2CellId.level x)
     = S2CellId.child_position x.
Proof.
  intros Hx Hv.
  destruct (valid_cell_view x Hx Hv) as (l & a & Hl & Ha & EL & EF & EP & ET & Hc).
  unfold S2CellId.child_position_at, S2CellId.child_position.
  rewrite Hv, EL, EP, ET. cbn [negb]. cbv zeta.
  split; [|split].
  - intros Hout.
    replace ((k <=? 0) || (k >? l)) with true; [reflexivity|].
    symmetry. apply orb_true_iff. rewrite Z.gtb_ltb.
    destruct Hout; [left; apply Z.leb_le|right; apply Z.ltb_lt]; lia.
  - intros Hk.
    replace ((k <=? 0) || (k >? l)) with false.
    2:{ symmetry. apply orb_false_intro.
        - apply Z.leb_gt; lia.
        - rewrite Z.gtb_ltb. apply Z.ltb_ge; lia. }
    rewrite child_position_at_cell by lia.
    unfold U64.shr. rewrite Z.shiftr_div_pow2, pow4, land3_mod4 by lia.
    pose proof (pow4_pos (l - k) ltac:(lia)) as H4.
    pose proof (pow4_pos (k - 1) ltac:(lia)) as H4'.
    assert (E4 : 4 ^ l = 4 ^ (l - k) * (4 * 4 ^ (k - 1))).
    { rewrite <- pow4_succ, <- Z.pow_add_r by lia. f_equal. lia. }
    assert (E : (a mod 4 ^ l / 4 ^ (l - k)) mod 4 = (a / 4 ^ (l - k)) mod 4).
    { rewrite E4, Z.rem_mul_r by lia.
      rewrite (Z.mul_comm (4 ^ (l - k))), Z.div_add by lia.
      rewrite (Z.div_small (a mod 4 ^ (l - k)))
        by (apply Z.mod_pos_bound; lia).
      rewrite Z.add_0_l. apply mod_mod4; lia. }
    rewrite E, to_int_small by (pose proof (digit_range (a / 4 ^ (l - k))); lia).
    split; [reflexivity|apply digit_range].
  - destruct (Z.eqb_spec l 0) as [->|Hne]; [reflexivity|].
    replace ((l <=? 0) || (l >? l)) with false.
    2:{ symmetry. apply orb_false_intro.
        - apply Z.leb_gt; lia.
        - rewrite Z.gtb_ltb. apply Z.ltb_ge; lia. }
    rewrite Z.sub_diag. reflexivity.
Qed.

Lemma compact_child_position_at_witness :
  S2CellId.child_position_at (S2CellId.FromString "1/3021") 2
  = s2v1.child_position_at
      (S2CellId.ToOldFormat (S2CellId.FromString "1/3021")) 2.
Proof.
  destruct (compact_child_position_at (S2CellId.FromString "1/3021") 2)
    as (_ & H & _).
  - word_range.
  - reflexivity.
  - destruct H as (E & _); [|exact E].
    vm_compute. split; intro; discriminate.
Defined.

(** X28.  [CanRepresentInNewFormat] is the exact condition under which a
    valid curve-position identifier converts: when it holds the
    conversion is a valid path identifier, when it fails the conversion is
    [None]; and every valid path identifier converts to a curve-position
    identifier for which it holds. *)
Theorem can_represent_iff_converts (old_id : Z) :
  0 <= old_id < 2 ^ 64 ->
  s2v1.is_valid old_id = true ->
  (S2CellId.CanRepresentInNewFormat old_id = true
   <-> S2CellId.is_valid (S2CellId.FromS2CellId old_id) = true)
  /\ (S2CellId.CanRepresentInNewFormat old_id = false
      <-> S2CellId.FromS2CellId old_id = S2CellId.None)
  /\ (forall x, 0 <= x < 2 ^ 64 -> S2CellId.is_valid x = true ->
      S2CellId.CanRepresentInNewFormat (S2CellId.ToOldFormat x) = true).
Proof.
  intros Hx Hv.
  split; [|split].
  - destruct (ConvertFromOldFormat_total old_id Hx)
      as [(Hn & _)|(l & a & Hl & Ha & -> & E)]; [congruence|].
    unfold S2CellId.CanRepresentInNewFormat, S2CellId.FromS2CellId.
    rewrite E, level_cell by lia. change S2CellId.kMaxLevel with 28.
    rewrite Z.gtb_ltb.
    destruct (Z.ltb_spec 28 l).
    + replace (l <=? 28) with false by (symmetry; apply Z.leb_gt; lia).
      split; discriminate.
    + replace (l <=? 28) with true by (symmetry; apply Z.leb_le; lia).
      split; [intros _; apply enc_valid; lia|reflexivity].
  - destruct (ConvertFromOldFormat_total old_id Hx)
      as [(Hn & _)|(l & a & Hl & Ha & -> & E)]; [congruence|].
    unfold S2CellId.CanRepresentInNewFormat, S2CellId.FromS2CellId.
    rewrite E, level_cell by lia. change S2CellId.kMaxLevel with 28.
    rewrite Z.gtb_ltb.
    destruct (Z.ltb_spec 28 l).
    + replace (l <=? 28) with false by (symmetry; apply Z.leb_gt; lia).
      split; reflexivity.
    + replace (l <=? 28) with true by (symmetry; apply Z.leb_le; lia).
      split; [discriminate|].
      intros E0. exfalso. revert E0. apply enc_not_none; lia.
  - intros x Hx' Hv'.
    destruct (valid_cell_view x Hx' Hv') as (l & a & Hl & Ha & _ & _ & _ & ET & _).
    unfold S2CellId.CanRepresentInNewFormat.
    rewrite ET, level_cell by lia. apply Z.leb_le.
    change S2CellId.kMaxLevel with 28. lia.
Qed.

Lemma can_represent_iff_converts_witness :
  S2CellId.FromS2CellId (s2v1.FromFacePosLevel 2 12345 29) = S2CellId.None.
Proof.
  destruct (can_represent_iff_converts (s2v1.FromFacePosLevel 2 12345 29))
    as (_ & E & _).
  - word_range.
  - reflexivity.
  - apply E. reflexivity.
Defined.

(** X29.  [FromFacePosLevel] for a face below 6 and a position below
    2^61 is [None] beyond depth 28, and up to depth 28 a valid path
    identifier of that face and depth which converts to what the curve
    position builds from the same arguments; with position 0 it is
    [FromFaceLevel], and [FromFace] is the face cell. *)
Theorem compact_FromFacePosLevel (face pos level : Z) :
  0 <= face < 6 -> 0 <= pos < 2 ^ 61 -> 0 <= level ->
  (level > 28 -> S2CellId.FromFacePosLevel face pos level = S2CellId.None)
  /\ (level <= 28 ->
      let r := S2CellId.FromFacePosLevel face pos level in
      S2CellId.is_valid r = true
      /\ S2CellId.level r = level
      /\ S2CellId.face r = face
      /\ S2CellId.ToOldFormat r = s2v1.FromFacePosLevel face pos level
      /\ S2CellId.FromFacePosLevel face 0 level
         = S2CellId.FromFaceLevel face level)
  /\ S2CellId.FromFace face = S2CellId.FromFaceLevel face 0
  /\ S2CellId.is_face (S2CellId.FromFace face) = true.
Proof.
  intros Hf Hp Hk.
  split; [|split; [|split]].
  - intros Hd. unfold S2CellId.FromFacePosLevel.
    change S2CellId.kMaxLevel with 28.
    replace (level >? 28) with true
      by (symmetry; rewrite Z.gtb_ltb; apply Z.ltb_lt; lia).
    reflexivity.
  - intros Hd. cbv zeta.
    destruct (FromFacePosLevel_index face pos level Hf Hp ltac:(lia))
      as (Hb & E).
    pose proof (pow4_pos level ltac:(lia)) as H4.
    pose proof (pow4_pos (30 - level) ltac:(lia)) as H4'.
    assert (E4 : 4 ^ 30 = 4 ^ level * 4 ^ (30 - level)).
    { rewrite <- Z.pow_add_r by lia. f_equal. lia. }
    assert (Er : S2CellId.FromFacePosLevel face pos level
                 = enc level ((face * 4 ^ 30 + pos / 2) / 4 ^ (30 - level))).
    { unfold S2CellId.FromFacePosLevel. change S2CellId.kMaxLevel with 28.
      replace (level >? 28) with false
        by (symmetry; rewrite Z.gtb_ltb; apply Z.ltb_ge; lia).
      rewrite E, FromS2CellId_cell by lia.
      replace (_ <? 6 * 4 ^ level) with true
        by (symmetry; apply Z.ltb_lt; lia).
      reflexivity. }
    rewrite Er, E.
    split; [apply enc_valid; lia|].
    split; [apply enc_level; lia|].
    split.
    { rewrite enc_face by lia.
      rewrite Z.div_div, (Z.mul_comm (4 ^ (30 - level))), <- E4 by lia.
      rewrite Z.div_add_l by lia.
      rewrite (Z.div_small (pos / 2)); [lia|].
      change (4 ^ 30) with (2 ^ 60). Z.div_mod_to_equations. lia. }
    split; [apply ToOldFormat_enc; lia|].
    unfold S2CellId.FromFacePosLevel, S2CellId.FromFaceLevel.
    change S2CellId.kMaxLevel with 28.
    replace (level >? 28) with false
      by (symmetry; rewrite Z.gtb_ltb; apply Z.ltb_ge; lia).
    replace (face <? 0) with false by (symmetry; apply Z.ltb_ge; lia).
    replace (face >? 5) with false
      by (symmetry; rewrite Z.gtb_ltb; apply Z.ltb_ge; lia).
    replace (level <? 0) with false by (symmetry; apply Z.ltb_ge; lia).
    cbn [orb].
    rewrite FromFacePosLevel_cell by lia.
    destruct (Z.eqb_spec level 0) as [->|Hne].
    + assert (C : face = 0 \/ face = 1 \/ face = 2 \/ face = 3 \/ face = 4
                  \/ face = 5) by lia.
      destruct C as [->|[->|[->|[->|[->| ->]]]]]; reflexivity.
    + rewrite is_valid_cell4 by nia. reflexivity.
  - assert (C : face = 0 \/ face = 1 \/ face = 2 \/ face = 3 \/ face = 4
                \/ face = 5) by lia.
    destruct C as [->|[->|[->|[->|[->| ->]]]]]; reflexivity.
  - assert (C : face = 0 \/ face = 1 \/ face = 2 \/ face = 3 \/ face = 4
                \/ face = 5) by lia.
    destruct C as [->|[->|[->|[->|[->| ->]]]]]; reflexivity.
Qed.

Lemma compact_FromFacePosLevel_witness :
  S2CellId.ToOldFormat (S2CellId.FromFacePosLevel 3 987654321 17)
  = s2v1.FromFacePosLevel 3 987654321 17.
Proof.
  destruct (compact_FromFacePosLevel 3 987654321 17) as (_ & H & _);
    try lia.
  destruct H as (_ & _ & _ & E & _); [lia|exact E].
Defined.

End CompactRelations.

(* ================================================================== *)
(** * The text form as a normal form *)
(* ================================================================== *)

Section TextNormalForm.

(** What [FromString] returns on a text of representable length: [None]
    or the code of a cell. *)
Lemma FromString_enc (str : string) :
  Z.of_nat (String.length str) < 2 ^ 31 ->
  S2CellId.FromString str = S2CellId.None
  \/ exists l a, 0 <= l <= 28 /\ 0 <= a < 6 * 4 ^ l
                 /\ S2CellId.FromString str = enc l a.
Proof.
  intros Hlen. unfold S2CellId.FromString.
  destruct str as [|c0 str0]; [left; reflexivity|].
  destruct (Str.stoi _) as [face|]; [|left; reflexivity].
  destruct (Z.ltb_spec face 0); [left; reflexivity|].
  destruct (Z.gtb_spec face 5); [left; reflexivity|].
  cbn [orb].
  assert (Hroot : S2CellId.FromFaceLevel face 0 = S2CellId.None
                  \/ exists l a, 0 <= l <= 28 /\ 0 <= a < 6 * 4 ^ l
                                 /\ S2CellId.FromFaceLevel face 0 = enc l a).
  { right. exists 0, face. rewrite Z.pow_0_r.
    split; [lia|]. split; [lia|]. apply face_root_enc; lia. }
  destruct (Str.find _ _) as [p|]; [|exact Hroot].
  remember (Str.substr_from (p + 1) (String c0 str0)) as path_str eqn:EP.
  assert (Hle : (String.length path_str <= String.length (String c0 str0))%nat).
  { rewrite EP. apply substring_length_le. }
  rewrite to_int_small by lia.
  remember (Z.of_nat (String.length path_str)) as level eqn:EL.
  destruct (Z.eqb_spec level 0); [exact Hroot|].
  change S2CellId.kMaxLevel with 28.
  destruct (Z.gtb_spec level 28); [left; reflexivity|].
  destruct (S2CellId.parse_path _ _ _) as [path|] eqn:E; [|left; reflexivity].
  apply parse_path_bound in E;
    [|lia|rewrite Z2Nat.id, Z.add_0_l, Z.mul_1_l by lia;
          pose proof (pow4_le_56 level ltac:(lia)); lia].
  rewrite Z2Nat.id in E by lia.
  pose proof (pow4_le_56 level ltac:(lia)).
  rewrite pack_sum by lia.
  destruct (sum_is_enc face path level ltac:(lia) ltac:(lia) ltac:(lia))
    as (-> & Hb).
  right. exists level, (face * 4 ^ level + path).
  split; [lia|]. split; [exact Hb|reflexivity].
Qed.

(** Reading back the text of a valid canonical identifier. *)
Lemma FromString_ToString (x : Z) :
  0 <= x < 2 ^ 64 -> S2CellId.is_valid x = true -> canonical x = true ->
  S2CellId.FromString (S2CellId.ToString x) = x.
Proof.
  intros Hx Hv Hcan.
  destruct (valid_view x Hx Hv) as (l & a & Hl & Ha & EL & EF & EP & Hc).
  destruct (enc_sum l a Hl Ha) as (Hf & Hp & Hp56 & Ea).
  specialize (Hc Hcan).
  rewrite (ToString_valid x l a Hv Hl Ha EL EF EP).
  destruct (Z.eqb_spec l 0) as [L0|Hl0].
  - rewrite FromString_face, face_root_enc by lia.
    rewrite Hc, L0, Z.pow_0_r, Z.div_1_r. reflexivity.
  - rewrite FromString_path by lia. cbv zeta.
    rewrite path_digits_length.
    rewrite to_int_small, Z2Nat.id by lia.
    replace (l =? 0) with false by (symmetry; apply Z.eqb_neq; lia).
    change S2CellId.kMaxLevel with 28.
    replace (l >? 28) with false
      by (symmetry; rewrite Z.gtb_ltb; apply Z.ltb_ge; lia).
    pose proof (pow4_le_56 l Hl).
    rewrite parse_path_digits
      by (rewrite ?Z2Nat.id by lia; try apply Z.mod_pos_bound; lia).
    rewrite Z2Nat.id by lia.
    rewrite Z.mul_0_l, Z.add_0_l, Z.mod_mod by lia.
    rewrite pack_sum by lia.
    rewrite Hc, enc_unfold by lia. reflexivity.
Qed.

(** X30.  The text form is a normal form.  For a text of fewer than 2^31
    characters, [FromString] gives [None], which renders as "INVALID", or
    a valid canonical identifier whose own text reads back as the same
    identifier and is not "INVALID"; and two valid canonical identifiers
    with the same text are equal. *)
Theorem text_normal_form (str : string) :
  Z.of_nat (String.length str) < 2 ^ 31 ->
  let r := S2CellId.FromString str in
  (r = S2CellId.None -> S2CellId.ToString r = "INVALID"%string)
  /\ (r <> S2CellId.None ->
      S2CellId.is_valid r = true
      /\ canonical r = true
      /\ S2CellId.FromString (S2CellId.ToString r) = r
      /\ S2CellId.ToString r <> "INVALID"%string)
  /\ (forall x y,
         0 <= x < 2 ^ 64 -> 0 <= y < 2 ^ 64 ->
         S2CellId.is_valid x = true -> S2CellId.is_valid y = true ->
         canonical x = true -> canonical y = true ->
         S2CellId.ToString x = S2CellId.ToString y -> x = y).
Proof.
  intros Hlen. cbv zeta.
  split; [|split].
  - intros ->. reflexivity.
  - intros Hne.
    destruct (FromString_enc str Hlen) as [E|(l & a & Hl & Ha & E)];
      [contradiction|].
    rewrite E in *.
    destruct (enc_fields l a Hl Ha) as (Hr & _).
    assert (Hrt : S2CellId.FromString (S2CellId.ToString (enc l a)) = enc l a).
    { apply FromString_ToString;
        [lia|apply enc_valid; lia|apply enc_canonical; lia]. }
    split; [apply enc_valid; lia|].
    split; [apply enc_canonical; lia|].
    split; [exact Hrt|].
    intros Ei. rewrite Ei in Hrt.
    change (S2CellId.FromString "INVALID") with S2CellId.None in Hrt.
    apply Hne. symmetry. exact Hrt.
  - intros x y Hx Hy Hvx Hvy Cx Cy E.
    rewrite <- (FromString_ToString x Hx Hvx Cx).
    rewrite <- (FromString_ToString y Hy Hvy Cy).
    rewrite E. reflexivity.
Qed.

Lemma text_normal_form_witness :
  S2CellId.FromString (S2CellId.ToString (S2CellId.FromString " 3/0120"))
  = S2CellId.FromString " 3/0120".
Proof.
  destruct (text_normal_form " 3/0120") as (_ & H & _).
  - vm_compute. reflexivity.
  - destruct H as (_ & _ & E & _); [|exact E].
    vm_compute. intro; discriminate.
Defined.

End TextNormalForm.
